(** * ANEDA: the distance-calibrated node2vec engine

    A shallow embedding of [path_approximation/src/modified_node2vec.py]
    (classes [Node2vec] and [Node2vecModel]), of the closures of
    [run_routing] and of [plot_route] in
    [path_approximation/src/testing_functions.py], of
    [path_approximation/src/train_neural_net.py], and of parts of
    [src/data_helper.py] and [src/landmarks.py].

    Conventions of the embedding.
    - Python integers are [Z]; tensor entries of floating type are idealised
      as real numbers ([R]), so [torch.sigmoid], [torch.log] and the
      arithmetic of the loss are the exact real functions.  Where a rounding
      decides a discrete result (a count taken with [int], an equality of
      floats) the numbers are binary64 floats, as in Python.
    - A 1-D tensor is a list, a 2-D tensor is the list of its rows, a 3-D
      tensor is a list of 2-D tensors.
    - Code that can raise returns a [result]; the constructors of [error]
      are the Python exception classes involved.
    - The two sources of randomness, [dgl.sampling.node2vec_random_walk] and
      [torch.randint], are external: they are the fields of an [Oracle], and
      what their documentation promises about shapes and ranges is the
      predicate [oracle_ok]. *)

From Stdlib Require String.
From Stdlib Require Import ZArith List Bool Lia Reals Lra Permutation Sorted.
From Stdlib Require PrimFloat FloatOps SpecFloat FloatAxioms.
Import ListNotations.

Open Scope Z_scope.

(** ** Exceptions *)

Inductive error : Type :=
| AssertionError
| IndexError
| RuntimeError
| KeyError
| ZeroDivisionError.

Inductive result (A : Type) : Type :=
| Ok (a : A)
| Raise (e : error).

Arguments Ok {A} a.
Arguments Raise {A} e.

Definition bind {A B} (m : result A) (k : A -> result B) : result B :=
  match m with
  | Ok a => k a
  | Raise e => Raise e
  end.

Notation "x <- m ;; k" := (bind m (fun x => k))
  (at level 61, m at next level, right associativity).

Fixpoint mapM {A B} (f : A -> result B) (xs : list A) : result (list B) :=
  match xs with
  | [] => Ok []
  | x :: xs' => y <- f x ;; ys <- mapM f xs' ;; Ok (y :: ys)
  end.

(** The functions outside the sampler and the loss also raise exceptions
    that these two never do. *)

Inductive exn : Type :=
| Builtin (e : error)
| ValueError
| UnboundLocalError
| AttributeError
| OverflowError
| OSError.

Inductive outcome (A : Type) : Type :=
| Return (a : A)
| Throw (x : exn).

Arguments Return {A} a.
Arguments Throw {A} x.

Definition and_then {A B} (m : outcome A) (k : A -> outcome B) : outcome B :=
  match m with
  | Return a => k a
  | Throw x => Throw x
  end.

Notation "x <-- m ;; k" := (and_then m (fun x => k))
  (at level 61, m at next level, right associativity).

Definition lift {A} (r : result A) : outcome A :=
  match r with
  | Ok a => Return a
  | Raise e => Throw (Builtin e)
  end.

(** ** Binary64 floats *)

Module Binary64.
Import PrimFloat.

(** [float(n)] of an integer: the nearest float. *)
Definition of_Z (n : Z) : float :=
  FloatOps.SF2Prim
    (SpecFloat.binary_normalize FloatOps.prec FloatOps.emax n 0 false).

(** [int(x)] of a float: the fraction is dropped; an infinity is an
    [OverflowError] and nan a [ValueError]. *)
Definition int (x : float) : outcome Z :=
  match FloatOps.Prim2SF x with
  | SpecFloat.S754_zero _ => Return 0
  | SpecFloat.S754_finite s m e =>
      let magnitude :=
        if 0 <=? e then Z.pos m * 2 ^ e else Z.pos m / 2 ^ (- e) in
      Return (if s then - magnitude else magnitude)
  | SpecFloat.S754_infinity _ => Throw OverflowError
  | SpecFloat.S754_nan => Throw ValueError
  end.

End Binary64.

(** ** Tensor operations used by the sampler *)

Module Tensor.

(** [t.repeat(k)] on a 1-D tensor tiles it [k] times. *)
Definition tile {A} (k : Z) (t : list A) : result (list A) :=
  if k <? 0 then Raise RuntimeError
  else Ok (concat (repeat t (Z.to_nat k))).

(** [t[i]] for one index of a 1-D tensor: negative indices count from the
    end, anything outside [-len, len) is an [IndexError]. *)
Definition index {A} (t : list A) (i : Z) : result A :=
  let n := Z.of_nat (length t) in
  if (- n <=? i) && (i <? n) then
    match nth_error t (Z.to_nat (if i <? 0 then i + n else i)) with
    | Some x => Ok x
    | None => Raise IndexError
    end
  else Raise IndexError.

(** [t[idx]] with a 1-D index tensor. *)
Definition index_select {A} (t : list A) (idx : list Z) : result (list A) :=
  mapM (index t) idx.

Fixpoint chunks {A} (rows cols : nat) (flat : list A) : list (list A) :=
  match rows with
  | O => []
  | S r => firstn cols flat :: chunks r cols (skipn cols flat)
  end.

(** [flat.view(-1, cols)]: the number of rows is inferred; it is an error
    when [cols] is not positive or does not divide the element count. *)
Definition view2 {A} (cols : Z) (flat : list A) : result (list (list A)) :=
  if cols <=? 0 then Raise RuntimeError
  else if Z.of_nat (length flat) mod cols =? 0
       then Ok (chunks (Z.to_nat (Z.of_nat (length flat) / cols))
                       (Z.to_nat cols) flat)
       else Raise RuntimeError.

(** The windows of one row: [row.unfold(0, size, 1)]. *)
Definition unfold1 {A} (size : nat) (row : list A) : list (list A) :=
  map (fun i => firstn size (skipn i row))
      (seq 0 (length row + 1 - size)).

(** [t.unfold(1, size, 1)] on a 2-D tensor, giving a 3-D one.  A window
    larger than the rows is a [RuntimeError]. *)
Definition unfold {A} (size : Z) (t : list (list A))
  : result (list (list (list A))) :=
  if (size <? 0)
     || negb (forallb (fun row => size <=? Z.of_nat (length row)) t)
  then Raise RuntimeError
  else Ok (map (unfold1 (Z.to_nat size)) t).

(** [t.contiguous().view(-1)] of a 3-D and of a 2-D tensor. *)
Definition flatten3 {A} (t : list (list (list A))) : list A :=
  concat (concat t).

Definition flatten2 {A} (t : list (list A)) : list A := concat t.

Fixpoint zip_rows {A} (a b : list (list A)) : list (list A) :=
  match a, b with
  | ra :: a', rb :: b' => (ra ++ rb) :: zip_rows a' b'
  | _, _ => []
  end.

(** [torch.cat([a, b], dim=-1)] on 2-D tensors with as many rows. *)
Definition cat_cols {A} (a b : list (list A)) : result (list (list A)) :=
  if Nat.eqb (length a) (length b) then Ok (zip_rows a b)
  else Raise RuntimeError.

(** [t.view(-1, 1)] of a 1-D tensor. *)
Definition column {A} (t : list A) : list (list A) :=
  map (fun x => [x]) t.

(** The windows of all rows, as [unfold] followed by [view] lists them. *)
Definition windows {A} (size : nat) (t : list (list A)) : list (list A) :=
  concat (map (unfold1 size) t).

End Tensor.

(** ** The graph and the external random sources *)

Record DGLGraph : Type := {
  num_nodes : Z;
  (** [g.edata['length']], indexed by edge id *)
  edata_length : list R
}.

Record Oracle : Type := {
  (** [node2vec_random_walk(g, nodes, p, q, walk_length, prob,
      return_eids=True)]: the traces and the ids of the edges walked *)
  node2vec_random_walk :
    DGLGraph -> list Z -> R -> R -> Z -> option String.string ->
    list (list Z) * list (list Z);
  (** the draws of [torch.randint(high, (rows, cols))] *)
  randint_draws : Z -> nat -> nat -> list (list Z)
}.

(** [torch.randint(high, (rows, cols))]. *)
Definition randint (O : Oracle) (high : Z) (rows : nat) (cols : Z)
  : result (list (list Z)) :=
  if (high <=? 0) || (cols <? 0) then Raise RuntimeError
  else Ok (randint_draws O high rows (Z.to_nat cols)).

(** What the two libraries document about their results on the graph [g]:
    a walk from each seed with [walk_length + 1] nodes, the seed first, and
    [walk_length] edge ids, each one a valid index of the edge-length tensor
    (an edge id, or the padding value -1, which indexes from the end); and
    [randint] fills the requested shape with integers of [0, high). *)
Record oracle_ok (O : Oracle) (g : DGLGraph) : Prop := {
  walk_shape : forall seeds p q L prob,
    0 <= L ->
    let '(traces, eids) := node2vec_random_walk O g seeds p q L prob in
    length traces = length seeds /\
    length eids = length seeds /\
    Forall (fun t => Z.of_nat (length t) = L + 1) traces /\
    Forall (fun e => Z.of_nat (length e) = L) eids /\
    map (fun t => hd (-1) t) traces = seeds /\
    Forall (Forall (fun e =>
      - Z.of_nat (length (edata_length g)) <= e
        < Z.of_nat (length (edata_length g)))) eids;
  randint_shape : forall high rows cols,
    length (randint_draws O high rows cols) = rows /\
    Forall (fun r => length r = cols) (randint_draws O high rows cols);
  randint_range : forall high rows cols,
    0 < high ->
    Forall (Forall (fun v => 0 <= v < high)) (randint_draws O high rows cols)
}.

(** ** Real-valued primitives *)

Definition sigmoid (x : R) : R := (1 / (1 + exp (- x)))%R.

Definition dot (u v : list R) : R :=
  fold_right Rplus 0%R (map (fun uv => (fst uv * snd uv)%R) (combine u v)).

Definition sum2 (t : list (list R)) : R :=
  fold_right Rplus 0%R (concat t).

Definition numel {A} (t : list (list A)) : nat := length (concat t).

(** [t.mean()] of a 2-D tensor. *)
Definition mean2 (t : list (list R)) : R :=
  (sum2 t / INR (numel t))%R.

(** The label of a positive pair at walk distance [d]: [c / (c + d)]. *)
Definition dist_measure (c d : R) : R := (c / (c + d))%R.

(** ** class Node2vec *)

Module Node2vec.

Record t : Type := {
  g : DGLGraph;
  embedding_dim : Z;
  walk_length : Z;
  p : R;
  q : R;
  num_walks : Z;
  window_size : Z;
  num_negatives : Z;
  N : Z;
  prob : option String.string;
  (** [self.embedding.weight], one row per id of [0 .. N] *)
  embedding : list (list R);
  c : R
}.

(** [nn.Embedding(num_embeddings, embedding_dim)]: the table is filled
    from [init_weight], the initial (random) value of each entry; a
    negative size cannot be allocated. *)
Definition nn_Embedding (init_weight : nat -> nat -> R)
    (num_embeddings embedding_dim : Z) : result (list (list R)) :=
  if (num_embeddings <? 0) || (embedding_dim <? 0) then Raise RuntimeError
  else Ok (map (fun i => map (init_weight i)
                             (seq 0 (Z.to_nat embedding_dim)))
               (seq 0 (Z.to_nat num_embeddings))).

(** [Node2vec.__init__] *)
Definition init (init_weight : nat -> nat -> R)
    (g : DGLGraph) (embedding_dim walk_length : Z) (p q : R)
    (num_walks window_size num_negatives : Z) (use_sparse : bool)
    (weight_name : option String.string) (init_c : R) : result t :=
  if negb (walk_length >=? window_size) then Raise AssertionError
  else
    let N := num_nodes g in
    let prob := match weight_name with
                | Some w => Some w
                | None => None
                end in
    embedding <- nn_Embedding init_weight (N + 1) embedding_dim ;;
    Ok {| g := g; embedding_dim := embedding_dim;
          walk_length := walk_length; p := p; q := q;
          num_walks := num_walks; window_size := window_size;
          num_negatives := num_negatives; N := N; prob := prob;
          embedding := embedding; c := init_c |}.

(** [Node2vec.sample]; the batch is already a tensor of node ids. *)
Definition sample (O : Oracle) (self : t) (batch : list Z)
  : result (list (list Z) * list (list R) * list (list Z)) :=
  batch <- Tensor.tile (num_walks self) batch ;;
  (* positive *)
  let '(pos_traces, edge_ids) :=
    node2vec_random_walk O (g self) batch (p self) (q self)
                         (walk_length self) (prob self) in
  lengths <- Tensor.index_select (edata_length (g self))
                                 (Tensor.flatten2 edge_ids) ;;
  pos_dists <- Tensor.view2 (walk_length self) lengths ;;
  (* rolling window on the node trace and on the edge distances *)
  pos_traces <- Tensor.unfold (window_size self) pos_traces ;;
  pos_traces <- Tensor.view2 (window_size self)
                             (Tensor.flatten3 pos_traces) ;;
  pos_dists <- Tensor.unfold (window_size self - 1) pos_dists ;;
  pos_dists <- Tensor.view2 (window_size self - 1)
                            (Tensor.flatten3 pos_dists) ;;
  (* negative *)
  neg_batch <- Tensor.tile (num_negatives self) batch ;;
  neg_traces <- randint O (N self) (length neg_batch) (walk_length self) ;;
  neg_traces <- Tensor.cat_cols (Tensor.column neg_batch) neg_traces ;;
  neg_traces <- Tensor.unfold (window_size self) neg_traces ;;
  neg_traces <- Tensor.view2 (window_size self)
                             (Tensor.flatten3 neg_traces) ;;
  Ok (pos_traces, pos_dists, neg_traces).

(** [self.embedding(i)] for one id: [nn.Embedding] takes the ids
    [0 .. num_embeddings - 1] only; any other id, a negative one included,
    is an [IndexError]. *)
Definition embedding_row (self : t) (i : Z) : result (list R) :=
  if (0 <=? i) && (i <? Z.of_nat (length (embedding self))) then
    match nth_error (embedding self) (Z.to_nat i) with
    | Some w => Ok w
    | None => Raise IndexError
    end
  else Raise IndexError.

(** [trace[:, 0]] and [trace[:, 1:]] *)
Definition first_column (trace : list (list Z)) : result (list Z) :=
  mapM (fun row => match row with
                   | [] => Raise IndexError
                   | start :: _ => Ok start
                   end) trace.

Definition rest_columns (trace : list (list Z)) : list (list Z) :=
  map (fun row => tl row) trace.

(** [(w_start.unsqueeze(1) * w_rest).sum(dim=-1)] *)
Fixpoint pair_products (w_start : list (list R))
    (w_rest : list (list (list R))) : list (list R) :=
  match w_start, w_rest with
  | ws :: w_start', wr :: w_rest' =>
      map (dot ws) wr :: pair_products w_start' w_rest'
  | _, _ => []
  end.

(** The dot products of the start node with the rest of each row. *)
Definition scores (self : t) (trace : list (list Z))
  : result (list (list R)) :=
  start <- first_column trace ;;
  let rest := rest_columns trace in
  w_start <- mapM (embedding_row self) start ;;
  w_rest <- mapM (mapM (embedding_row self)) rest ;;
  Ok (pair_products w_start w_rest).

(** An elementwise binary operation on two 2-D tensors of one shape
    (broadcasting of a dimension of size 1 is left out: the tensors that
    [sample] returns have the same shape). *)
Fixpoint zip_with {A} (f : A -> A -> result A) (a b : list A)
  : result (list A) :=
  match a, b with
  | [], [] => Ok []
  | x :: a', y :: b' =>
      z <- f x y ;; zs <- zip_with f a' b' ;; Ok (z :: zs)
  | _, _ => Raise RuntimeError
  end.

Definition elementwise (f : R -> R -> R) (a b : list (list R))
  : result (list (list R)) :=
  zip_with (zip_with (fun x y => Ok (f x y))) a b.

Definition e : R := (1 / 10 ^ 15)%R.

(** The rows that the diagnostic [print] of [loss] shows. *)
Definition sentinel_rows (pos_trace : list (list Z)) : list (list Z) :=
  filter (fun row => existsb (fun v => v =? -1) row) pos_trace.

(** [Node2vec.loss]: what it prints, and what it returns. *)
Definition loss (self : t) (pos_trace : list (list Z))
    (pos_dists : list (list R)) (neg_trace : list (list Z))
  : list (list Z) * result R :=
  (sentinel_rows pos_trace,
   pos_out <- scores self pos_trace ;;
   neg_out <- scores self neg_trace ;;
   sq <- elementwise
           (fun x d => (sigmoid x - dist_measure (c self) d) ^ 2)%R
           pos_out pos_dists ;;
   let pos_loss := mean2 sq in
   let neg_loss :=
     (- mean2 (map (map (fun x => ln (1 - sigmoid x + e))) neg_out))%R in
   Ok (pos_loss + neg_loss)%R).

End Node2vec.

(** ** class Node2vecModel *)

Module Node2vecModel.

(** [eval_set]: [[(nodes_train, y_train), (nodes_val, y_val)]] *)
Definition EvalSet : Type := (list Z * list Z) * (list Z * list Z).

Inductive device_name : Type := cpu | cuda.

Record t : Type := {
  model : Node2vec.t;
  g : DGLGraph;
  use_sparse : bool;
  eval_steps : Z;
  eval_set : option EvalSet;
  device : device_name
}.

(** [Node2vecModel.__init__]; [cuda_is_available] is the answer of
    [torch.cuda.is_available()]. *)
Definition init (init_weight : nat -> nat -> R) (cuda_is_available : bool)
    (g : DGLGraph) (embedding_dim walk_length : Z) (p q : R)
    (num_walks window_size num_negatives : Z) (use_sparse : bool)
    (weight_name : option String.string) (eval_set : option EvalSet)
    (eval_steps : Z) (device : device_name) (init_c : R) : result t :=
  model <- Node2vec.init init_weight g embedding_dim walk_length p q
                         num_walks window_size num_negatives use_sparse
                         weight_name init_c ;;
  Ok {| model := model; g := g; use_sparse := use_sparse;
        eval_steps := eval_steps; eval_set := eval_set;
        device := match device with
                  | cpu => cpu
                  | cuda => if cuda_is_available then cuda else cpu
                  end |}.

(** The numerical work of an epoch is done by torch and scikit-learn:
    [_train_step] runs the optimizer over the loader and gives the updated
    model and the mean loss, [_evaluate_step] fits the classifier and gives
    its accuracy. *)
Record Backend : Type := {
  _train_step : Node2vec.t -> R -> Node2vec.t * R;
  _evaluate_step : Node2vec.t -> EvalSet -> R
}.

(** The lines that [train] prints. *)
Inductive line : Type :=
| TrainLossValAcc (epoch : Z) (loss acc : R)
| TrainLoss (epoch : Z) (loss : R).

Record state : Type := {
  current : Node2vec.t;
  lr : R;
  printed : list line
}.

(** The body of the loop [for i in range(epochs)]. *)
Definition epoch_body (B : Backend) (self : t) (epochs : Z)
    (st : state) (i : Z) : state :=
  let '(m, loss) := _train_step B (current st) (lr st) in
  let out :=
    if 0 <? eval_steps self then
      if epochs mod eval_steps self =? 0 then
        match eval_set self with
        | Some es => [TrainLossValAcc (i + 1) loss (_evaluate_step B m es)]
        | None => [TrainLoss (i + 1) loss]
        end
      else []
    else [] in
  (* scheduler.step() of ExponentialLR(gamma=0.995) *)
  {| current := m; lr := (lr st * (995 / 1000))%R;
     printed := printed st ++ out |}.

(** [Node2vecModel.train] *)
Definition train (B : Backend) (self : t) (epochs batch_size : Z)
    (learning_rate : R) : state :=
  fold_left (epoch_body B self epochs)
            (map Z.of_nat (seq 0 (Z.to_nat epochs)))
            {| current := model self; lr := learning_rate; printed := [] |}.

(** The epochs (numbered from 1, as printed) in which the held-out probe
    ran. *)
Definition probe_epochs (st : state) : list Z :=
  flat_map (fun l => match l with
                     | TrainLossValAcc epoch _ _ => [epoch]
                     | TrainLoss _ _ => []
                     end) (printed st).

(** Whether the probe runs is decided once for the whole run: the test
    reads [epochs], not the loop index. *)
Definition probes (self : t) (epochs : Z) : bool :=
  (0 <? eval_steps self) && (epochs mod eval_steps self =? 0)
  && match eval_set self with Some _ => true | None => false end.

End Node2vecModel.

(** ** run_routing: the dot-product heuristic *)

Module Routing.

(** [{v: i for i, v in enumerate(nodes)}], read at key [x]: the index of
    the last occurrence, from position [i] on. *)
Fixpoint node_to_idx_from (i : nat) (nodes : list Z) (x : Z) : option nat :=
  match nodes with
  | [] => None
  | v :: nodes' =>
      match node_to_idx_from (S i) nodes' x with
      | Some j => Some j
      | None => if v =? x then Some i else None
      end
  end.

Definition node_to_idx (nodes : list Z) (x : Z) : result nat :=
  match node_to_idx_from 0 nodes x with
  | Some i => Ok i
  | None => Raise KeyError
  end.

Definition row (embedding : list (list R)) (i : nat) : result (list R) :=
  match nth_error embedding i with
  | Some w => Ok w
  | None => Raise IndexError
  end.

Definition div (a b : R) : result R :=
  if Req_dec_T b 0 then Raise ZeroDivisionError else Ok (a / b)%R.

(** The part of [dot_heuristic] after the similarity [d] is known, in exact
    arithmetic. *)
Definition decode (init_c d : R) : result R :=
  if Req_dec_T d 0 then Ok 0%R
  else div (init_c * (1 - d)) d.

(** [np.sigmoid]: the module [numpy] has no attribute of that name, and
    reading it is an [AttributeError]. *)
Definition np_sigmoid : outcome (R -> R) := Throw AttributeError.

(** [dot_heuristic(x, y)] for the graph nodes [nodes], the embedding
    matrix and [config["node2vec"]["init_c"]].  The function called is read
    before its argument is computed. *)
Definition dot_heuristic (nodes : list Z) (embedding : list (list R))
    (init_c : R) (x y : Z) : outcome R :=
  np_sigmoid <-- np_sigmoid ;;
  ix <-- lift (node_to_idx nodes x) ;;
  wx <-- lift (row embedding ix) ;;
  iy <-- lift (node_to_idx nodes y) ;;
  wy <-- lift (row embedding iy) ;;
  lift (decode init_c (np_sigmoid (dot wx wy))).

End Routing.

(** The label [c / (c + d)] of the loss and the part of [dot_heuristic] that
    inverts it, in binary64, the arithmetic of the floats of Python and
    NumPy (the default floats of torch are shorter still). *)

Module Routing64.
Import PrimFloat.

Definition dist_measure (c d : float) : float := (c / (c + d))%float.

Definition decode (init_c d : float) : float :=
  if (d =? 0)%float then 0%float else (init_c * (1 - d) / d)%float.

End Routing64.

(** * Notions used to state the properties *)

(** ** The sampler *)

Module SampleSpec.
Import Tensor Node2vec.

(** The configuration under which [sample] is used: the window fits the
    walk (what [__init__] asserts) and has at least one pair, the counts
    are not negative, and the graph has a node. *)
Record well_configured (O : Oracle) (self : Node2vec.t) : Prop := {
  pre_oracle : oracle_ok O (g self);
  pre_window : 2 <= window_size self <= walk_length self;
  pre_walks : 0 <= num_walks self;
  pre_negatives : 0 <= num_negatives self;
  pre_nodes : 0 < N self
}.

(** [g.edata['length'][e]] for an index in range. *)
Definition edge_length (g : DGLGraph) (e : Z) : R :=
  nth (Z.to_nat (if e <? 0 then e + Z.of_nat (length (edata_length g))
                 else e))
      (edata_length g) 0%R.

Section Closed.
Variables (O : Oracle) (self : Node2vec.t) (batch : list Z).

(** [batch.repeat(num_walks)] *)
Definition seeds : list Z :=
  concat (repeat batch (Z.to_nat (num_walks self))).

Definition walk_result : list (list Z) * list (list Z) :=
  node2vec_random_walk O (g self) seeds (p self) (q self)
                       (walk_length self) (prob self).

(** The node sequence of each walk, and the length of each edge walked. *)
Definition walks : list (list Z) := fst walk_result.

Definition step_lengths : list (list R) :=
  map (map (edge_length (g self))) (snd walk_result).

(** [batch.repeat(num_negatives)] and the rows [start :: random ids]. *)
Definition neg_seeds : list Z :=
  concat (repeat seeds (Z.to_nat (num_negatives self))).

Definition neg_rows : list (list Z) :=
  map (fun xr => fst xr :: snd xr)
      (combine neg_seeds
               (randint_draws O (N self) (length neg_seeds)
                              (Z.to_nat (walk_length self)))).

End Closed.

(** The walk distance from the start of a window to its [i]-th following
    node: the sum of the first [i + 1] edge lengths of the window. *)
Definition walk_distance (steps : list R) (i : nat) : R :=
  fold_right Rplus 0%R (firstn (S i) steps).

Definition cumulative (steps : list R) : list R :=
  map (walk_distance steps) (seq 0 (length steps)).

(** [torch.arange(N)], the node ids that the loader batches. *)
Definition arange (n : Z) : list Z := map Z.of_nat (seq 0 (Z.to_nat n)).

End SampleSpec.

(** ** The loss, pair by pair *)

Module LossSpec.
Import Node2vec.

(** The row of the table for an id in range. *)
Definition emb (self : t) (i : Z) : list R :=
  nth (Z.to_nat i) (embedding self) [].

Definition in_table (self : t) (i : Z) : Prop :=
  0 <= i < Z.of_nat (length (embedding self)).

(** A trace whose rows have a start node and whose ids are rows of the
    table. *)
Definition valid_trace (self : t) (trace : list (list Z)) : Prop :=
  Forall (fun row => row <> [] /\ Forall (in_table self) row) trace.

Definition row_scores (self : t) (row : list Z) : list R :=
  map (fun v => dot (emb self (hd 0 row)) (emb self v)) (tl row).

(** The pairs (start, rest[i]) of a trace, row after row. *)
Definition pairs (trace : list (list Z)) : list (Z * Z) :=
  flat_map (fun row => map (pair (hd 0 row)) (tl row)) trace.

(** The similarity of a pair: the sigmoid of the dot product of the two
    embeddings. *)
Definition similarity (self : t) (uv : Z * Z) : R :=
  sigmoid (dot (emb self (fst uv)) (emb self (snd uv))).

Definition mean (l : list R) : R :=
  (fold_right Rplus 0 l / INR (length l))%R.

(** Mean squared error between similarity and label, over all pairs. *)
Definition positive_term (self : t) (pos_trace : list (list Z))
    (pos_dists : list (list R)) : R :=
  mean (map (fun pd => (similarity self (fst pd)
                        - c self / (c self + snd pd)) ^ 2)%R
            (combine (pairs pos_trace) (concat pos_dists))).

(** The mean over all negative pairs of [- log(1 - similarity + e)]. *)
Definition negative_term (self : t) (neg_trace : list (list Z)) : R :=
  mean (map (fun uv => (- ln (1 - similarity self uv + e))%R)
            (pairs neg_trace)).

(** The negative term with the sigmoid applied to the similarity once more:
    the mean of [- log(1 - sigmoid(similarity) + e)]. *)
Definition negative_term_sigmoid_of_similarity (self : t)
    (neg_trace : list (list Z)) : R :=
  mean (map (fun uv => (- ln (1 - sigmoid (similarity self uv) + e))%R)
            (pairs neg_trace)).

Definition same_shape (trace : list (list Z)) (dists : list (list R))
  : Prop :=
  Forall2 (fun row d => length (tl row) = length d) trace dists.

End LossSpec.

(** ** A concrete run: the directed ring on four nodes

    Edge [i] goes from node [i] to node [(i + 1) mod 4] and has length
    [i + 1].  Every node has one outgoing edge, so the walk from a seed is
    the ring itself whatever [p] and [q] are. *)

Module Ring.
Import Node2vec.

Definition graph : DGLGraph :=
  {| num_nodes := 4; edata_length := [1; 2; 3; 4]%R |}.

Definition ring_walk (g : DGLGraph) (seeds : list Z) (p q : R) (L : Z)
    (prob : option String.string) : list (list Z) * list (list Z) :=
  (map (fun s => s :: map (fun k => (s + Z.of_nat k) mod num_nodes g)
                          (seq 1 (Z.to_nat L))) seeds,
   map (fun s => map (fun k => (s + Z.of_nat k) mod num_nodes g)
                     (seq 0 (Z.to_nat L))) seeds).

Definition oracle : Oracle :=
  {| node2vec_random_walk := ring_walk;
     randint_draws := fun high rows cols =>
       map (fun i => map (fun j => Z.of_nat (i + j) mod high) (seq 0 cols))
           (seq 0 rows) |}.

(** [Node2vec(graph, embedding_dim=2, walk_length=3, p=1, q=1,
    num_walks=1, window_size=3, num_negatives=2, init_c=10)] with the
    embedding table initialised to zero. *)
Definition model : Node2vec.t :=
  {| g := graph; embedding_dim := 2; walk_length := 3; p := 1; q := 1;
     num_walks := 1; window_size := 3; num_negatives := 2; N := 4;
     prob := None;
     embedding := repeat [0; 0]%R 5;
     c := 10 |}.

End Ring.

(** * The rest of the engine *)

(** ** class Node2vec: forward, loader *)

Module Engine.
Import Node2vec.

(** [Node2vec.forward]: [emb[nodes]] indexes the weight tensor, so a
    negative id counts from the end of the table. *)
Definition forward (self : t) (nodes : option (list Z))
  : result (list (list R)) :=
  let emb := embedding self in
  match nodes with
  | None => Ok emb
  | Some nodes => Tensor.index_select emb nodes
  end.

(** The batches that a [DataLoader] cuts out of its data, in order; the last
    one may be short. *)
Definition batches {A} (batch_size : nat) (data : list A) : list (list A) :=
  map (fun k => firstn batch_size (skipn (k * batch_size) data))
      (seq 0 ((length data + batch_size - 1) / batch_size)).

(** What a [DataLoader] keeps of its arguments. *)
Record DataLoader : Type := {
  dataset : list Z;
  loader_batch_size : nat
}.

(** [Node2vec.loader]: [DataLoader(torch.arange(self.N), batch_size,
    shuffle=True, collate_fn=self.sample)].  The constructor refuses a batch
    size that is not positive, and with [shuffle=True] a data set without
    an element. *)
Definition loader (self : t) (batch_size : Z) : outcome DataLoader :=
  if (N self <=? 0) || (batch_size <=? 0) then Throw ValueError
  else Return {| dataset := SampleSpec.arange (N self);
                 loader_batch_size := Z.to_nat batch_size |}.

(** One pass over the loader: the batches of node ids handed to [sample],
    [shuffle] being the permutation drawn for the pass. *)
Definition pass (shuffle : list Z -> list Z) (dl : DataLoader)
  : list (list Z) :=
  batches (loader_batch_size dl) (shuffle (dataset dl)).

(** The model after an optimizer step leaves everything but the values of
    the embedding table as it was. *)
Definition with_embedding (self : t) (weight : list (list R)) : t :=
  {| g := g self; embedding_dim := embedding_dim self;
     walk_length := walk_length self; p := p self; q := q self;
     num_walks := num_walks self; window_size := window_size self;
     num_negatives := num_negatives self; N := N self; prob := prob self;
     embedding := weight; c := c self |}.

(** The walks of the graph never stop at a dead end: every node of every
    trace from seeds that are node ids is a node id, none is the padding
    value. *)
Definition no_dead_end (O : Oracle) (self : t) : Prop :=
  forall seeds,
    Forall (fun v => 0 <= v < N self) seeds ->
    Forall (Forall (fun v => 0 <= v < N self))
           (fst (node2vec_random_walk O (g self) seeds (p self) (q self)
                                      (walk_length self) (prob self))).

(** A model as [__init__] builds it, on a graph without dead ends. *)
Record ready (O : Oracle) (self : t) : Prop := {
  ready_configured : SampleSpec.well_configured O self;
  ready_table : Z.of_nat (length (embedding self)) = N self + 1;
  ready_walks : no_dead_end O self
}.

End Engine.

(** ** class Node2vecModel: _train_step, train; run_node2vec *)

Module Trainer.
Import Node2vec.

(** What [loss.backward(); optimizer.step()] does to the model, given the
    batch the loss was computed on. *)
Definition Optimizer : Type :=
  Node2vec.t -> list (list Z) -> list (list R) -> list (list Z) -> Node2vec.t.

(** The loop of [_train_step] over the batches of the loader. *)
Fixpoint train_batches (O : Oracle) (optimizer : Optimizer)
    (model : Node2vec.t) (total_loss : R) (loader : list (list Z))
  : result (Node2vec.t * R) :=
  match loader with
  | [] => Ok (model, total_loss)
  | batch :: loader' =>
      s <- sample O model batch ;;
      let '(pos_traces, pos_dists, neg_traces) := s in
      loss <- snd (Node2vec.loss model pos_traces pos_dists neg_traces) ;;
      train_batches O optimizer
                    (optimizer model pos_traces pos_dists neg_traces)
                    (total_loss + loss)%R loader'
  end.

(** [Node2vecModel._train_step]: the model after the pass and the mean of the
    batch losses, [total_loss / len(loader)]. *)
Definition _train_step (O : Oracle) (optimizer : Optimizer)
    (model : Node2vec.t) (loader : list (list Z))
  : result (Node2vec.t * R) :=
  r <- train_batches O optimizer model 0%R loader ;;
  if Nat.eqb (length loader) 0 then Raise ZeroDivisionError
  else Ok (fst r, (snd r / INR (length loader))%R).

(** What a run takes from torch, scikit-learn and the file system. *)
Record Env : Type := {
  (** the permutation that the loader draws for the pass of epoch [i] *)
  shuffle : Z -> list Z -> list Z;
  (** whether [SparseAdam] (for [true]) or [Adam] accepts the learning
      rate *)
  valid_lr : bool -> R -> bool;
  (** [loss.backward(); optimizer.step()] of that optimizer at the current
      learning rate *)
  step : bool -> R -> Optimizer;
  (** [LogisticRegression(...).fit(x_train, y_train).score(x_val, y_val)] *)
  fit_score : list (list R) -> list Z -> list (list R) -> list Z
              -> outcome R;
  (** whether [write_file] can make the folder of a path and write the
      file; it cannot for a path without a folder *)
  writable : String.string -> bool
}.

(** [Node2vec.evaluate] *)
Definition evaluate (E : Env) (self : Node2vec.t)
    (x_train y_train x_val y_val : list Z) : outcome R :=
  x_train <-- lift (Engine.forward self (Some x_train)) ;;
  x_val <-- lift (Engine.forward self (Some x_val)) ;;
  fit_score E x_train y_train x_val y_val.

(** [Node2vecModel._evaluate_step] *)
Definition _evaluate_step (E : Env) (model : Node2vec.t)
    (eval_set : Node2vecModel.EvalSet) : outcome R :=
  let '(nodes_train, y_train) := fst eval_set in
  let '(nodes_val, y_val) := snd eval_set in
  evaluate E model nodes_train y_train nodes_val y_val.

(** The body of the loop [for i in range(epochs)] of [train], with the pass
    over the loader and the evaluation spelled out. *)
Definition epoch_body (O : Oracle) (E : Env) (self : Node2vecModel.t)
    (loader : Engine.DataLoader) (epochs : Z) (st : Node2vecModel.state)
    (i : Z) : outcome Node2vecModel.state :=
  r <-- lift (_train_step O
                (step E (Node2vecModel.use_sparse self)
                      (Node2vecModel.lr st))
                (Node2vecModel.current st)
                (Engine.pass (shuffle E i) loader)) ;;
  let '(m, loss) := r in
  out <-- (if 0 <? Node2vecModel.eval_steps self then
             if epochs mod Node2vecModel.eval_steps self =? 0 then
               match Node2vecModel.eval_set self with
               | Some es =>
                   acc <-- _evaluate_step E m es ;;
                   Return [Node2vecModel.TrainLossValAcc (i + 1) loss acc]
               | None => Return [Node2vecModel.TrainLoss (i + 1) loss]
               end
             else Return []
           else Return []) ;;
  (* scheduler.step() of ExponentialLR(gamma=0.995) *)
  Return {| Node2vecModel.current := m;
            Node2vecModel.lr := (Node2vecModel.lr st * (995 / 1000))%R;
            Node2vecModel.printed := Node2vecModel.printed st ++ out |}.

Fixpoint epochs_loop (O : Oracle) (E : Env) (self : Node2vecModel.t)
    (loader : Engine.DataLoader) (epochs : Z) (st : Node2vecModel.state)
    (l : list Z) : outcome Node2vecModel.state :=
  match l with
  | [] => Return st
  | i :: l' =>
      st' <-- epoch_body O E self loader epochs st i ;;
      epochs_loop O E self loader epochs st' l'
  end.

(** [Node2vecModel.train]: the loader and the optimizer are built before the
    first epoch. *)
Definition train (O : Oracle) (E : Env) (self : Node2vecModel.t)
    (epochs batch_size : Z) (learning_rate : R)
  : outcome Node2vecModel.state :=
  loader <-- Engine.loader (Node2vecModel.model self) batch_size ;;
  if valid_lr E (Node2vecModel.use_sparse self) learning_rate then
    epochs_loop O E self loader epochs
                {| Node2vecModel.current := Node2vecModel.model self;
                   Node2vecModel.lr := learning_rate;
                   Node2vecModel.printed := [] |}
                (map Z.of_nat (seq 0 (Z.to_nat epochs)))
  else Throw ValueError.

(** What the libraries are expected to do: the loader draws a permutation,
    an optimizer step changes the values of the embedding table and nothing
    else, and the classifier can be fitted and scored. *)
Record env_ok (E : Env) : Prop := {
  shuffle_permutes : forall i l, Permutation l (shuffle E i l);
  step_updates_table : forall sparse rate m pos dists neg,
    exists w, step E sparse rate m pos dists neg = Engine.with_embedding m w
              /\ length w = length (embedding m);
  fit_score_returns : forall x_train y_train x_val y_val,
    exists acc, fit_score E x_train y_train x_val y_val = Return acc
}.

(** The eval set names rows of the table of a graph with [n] nodes. *)
Definition eval_rows (n : Z) (eval_set : option Node2vecModel.EvalSet)
  : Prop :=
  forall es, eval_set = Some es ->
    Forall (fun v => 0 <= v <= n) (fst (fst es)) /\
    Forall (fun v => 0 <= v <= n) (fst (snd es)).

(** The arguments of [run_node2vec], as the named tuple built from [args]. *)
Record Node2VecParams : Type := {
  embedding_dim : Z;
  walk_length : Z;
  window_size : Z;
  p : R;
  q : R;
  num_walks : Z;
  num_negatives : Z;
  init_c : R;
  device : Node2vecModel.device_name;
  epochs : Z;
  batch_size : Z;
  lr : R
}.

(** [data_helper.write_file]: the file written, if a path is given. *)
Definition write_file {A} (E : Env) (output_path : option String.string)
    (obj : A) : outcome (option (String.string * A)) :=
  match output_path with
  | Some path =>
      if writable E path then Return (Some (path, obj)) else Throw OSError
  | None => Return None
  end.

Record run : Type := {
  (** the state of the trainer after [train] *)
  trained : Node2vecModel.state;
  (** the file written by [write_file] *)
  written : option (String.string * list (list R));
  (** the value returned *)
  returned : list (list R)
}.

(** [run_node2vec] *)
Definition run_node2vec (init_weight : nat -> nat -> R)
    (cuda_is_available : bool) (O : Oracle) (E : Env)
    (graph : DGLGraph) (eval_set : option Node2vecModel.EvalSet)
    (args : option Node2VecParams) (output_path : option String.string)
  : outcome run :=
  match args with
  | None => Throw ValueError
  | Some args =>
      trainer <-- lift (Node2vecModel.init init_weight cuda_is_available
                          graph (embedding_dim args) (walk_length args)
                          (p args) (q args) (num_walks args)
                          (window_size args) (num_negatives args) true None
                          eval_set 1 (device args) (init_c args)) ;;
      st <-- train O E trainer (epochs args) (batch_size args) (lr args) ;;
      embedding <-- lift (Engine.forward (Node2vecModel.current st) None) ;;
      file <-- write_file E output_path embedding ;;
      Return {| trained := st; written := file; returned := embedding |}
  end.

End Trainer.

(** ** run_routing: the other heuristics, and plot_route *)

Module Heuristics.

(** [nx_graph.nodes[a]]: the coordinates ['x'] and ['y'] of a node; a node
    that the graph does not have is a [KeyError]. *)
Fixpoint node_data (nodes : list (Z * (R * R))) (a : Z) : result (R * R) :=
  match nodes with
  | [] => Raise KeyError
  | (n, xy) :: nodes' => if n =? a then Ok xy else node_data nodes' a
  end.

(** [dist_heuristic(a, b)] *)
Definition dist_heuristic (nodes : list (Z * (R * R))) (a b : Z)
  : result R :=
  let R0 := 6731000%R in
  let p := (PI / 180)%R in
  na <- node_data nodes a ;;
  nb <- node_data nodes b ;;
  let lat_a := snd na in
  let long_a := fst na in
  let lat_b := snd nb in
  let long_b := fst nb in
  let d := (1 / 2 - cos ((lat_b - lat_a) * p) / 2
            + cos (lat_a * p) * cos (lat_b * p)
              * (1 - cos ((long_b - long_a) * p)) / 2)%R in
  Ok (2 * R0 * asin (sqrt d))%R.

(** The sum of two rows, entry by entry, and a row divided by a scalar. *)
Definition add_rows (u v : list R) : list R :=
  map (fun uv => (fst uv + snd uv)%R) (combine u v).

Definition div_row (u : list R) (k : R) : list R :=
  map (fun x => (x / k)%R) u.

(** [model_heuristic(x, y)]; [predict] is [Trainer.predict(model, .)], from
    a batch of inputs to the batch of predictions. *)
Definition model_heuristic (predict : list (list R) -> list R)
    (embedding : list (list R)) (x y : Z) : result R :=
  wx <- Tensor.index embedding x ;;
  wy <- Tensor.index embedding y ;;
  let input := [div_row (add_rows wx wy) 2] in
  match predict input with
  | [] => Raise IndexError
  | first :: _ => Ok first
  end.

End Heuristics.

Module Plot.

Definition updates : list (Z * Z * Z) :=
  [(0, 1, 0); (-1, 0, 0); (0, 0, 1); (0, -1, 0); (1, 0, 0); (0, 0, -1)].

Definition color : Type := (R * R * R)%type.

(** The loop that adds up the lengths of the edges of the route;
    [edge u v] is [G.edges[u, v, 0]['length']]. *)
Fixpoint path_length (edge : Z -> Z -> result R) (route : list Z)
    (sum : R) : result R :=
  match route with
  | u :: (v :: _) as rest =>
      l <- edge u v ;; path_length edge rest (sum + l)%R
  | _ => Ok sum
  end.

(** [l[i] = v] on a list. *)
Fixpoint set_item {A} (l : list A) (i : nat) (v : A) : result (list A) :=
  match l, i with
  | [], _ => Raise IndexError
  | _ :: l', O => Ok (v :: l')
  | x :: l', S i' => l'' <- set_item l' i' v ;; Ok (x :: l'')
  end.

Record paint : Type := {
  r : Z;
  g : Z;
  b : Z;
  node_colors : list color
}.

(** The body of the colouring loop for the [i]-th visited node [n]; the
    quotient [i / m] is a true division, so it fails for [m = 0], and for
    the indices at hand [int((i / m) % 6)] is the floor quotient modulo 6. *)
Definition paint_step (nodes : list Z) (m : Z) (st : paint) (i n : Z)
  : result paint :=
  if m =? 0 then Raise ZeroDivisionError
  else
    let j := (i / m) mod 6 in
    let u := nth (Z.to_nat j) updates (0, 0, 0) in
    let r' := r st + fst (fst u) in
    let g' := g st + snd (fst u) in
    let b' := b st + snd u in
    idx <- Routing.node_to_idx nodes n ;;
    colors <- set_item (node_colors st) idx
                       (IZR r' / IZR m, IZR g' / IZR m, IZR b' / IZR m)%R ;;
    Ok {| r := r'; g := g'; b := b'; node_colors := colors |}.

Fixpoint paint_loop (nodes : list Z) (m : Z) (st : paint) (i : Z)
    (visited : list Z) : result paint :=
  match visited with
  | [] => Ok st
  | n :: visited' =>
      st' <- paint_step nodes m st i n ;;
      paint_loop nodes m st' (i + 1) visited'
  end.

(** [plot_route(gr, f_name, node_to_idx, u, v)], up to the calls that draw:
    the path length it prints and the colours it gives the nodes.
    [astar] is [gr.astar(u, v, weight="length")] with its route and its
    visited nodes, [iteration_order] the order in which the set of visited
    nodes is enumerated. *)
Definition plot_route (edge : Z -> Z -> result R) (number_of_nodes : nat)
    (astar : Z -> Z -> list Z * list Z)
    (iteration_order : list Z -> list Z)
    (nodes : list Z) (u v : Z) : result (R * list color) :=
  let '(route, visited) := astar u v in
  path <- path_length edge route 0%R ;;
  let visited := iteration_order (nodup Z.eq_dec visited) in
  let node_colors := repeat (1, 1, 1)%R number_of_nodes in
  let m := Z.of_nat (length visited) / 6 in
  st <- paint_loop nodes m
          {| r := m; g := 0; b := 0; node_colors := node_colors |}
          0 visited ;;
  Ok (path, Plot.node_colors st).

(** The point of the colour wheel reached after [i] steps of size [1 / m]:
    red, yellow, green, cyan, blue, magenta and back to red. *)
Definition hue (m i : Z) : Z * Z * Z :=
  let t := i mod m in
  match (i / m) mod 6 with
  | 0 => (m, t, 0)
  | 1 => (m - t, m, 0)
  | 2 => (0, m, t)
  | 3 => (0, m - t, m)
  | 4 => (t, 0, m)
  | _ => (m, 0, m - t)
  end.

(** A colour moved by one update. *)
Definition shift (c u : Z * Z * Z) : Z * Z * Z :=
  (fst (fst c) + fst (fst u), snd (fst c) + snd (fst u), snd c + snd u).

Definition unit_color (c : color) : Prop :=
  (0 <= fst (fst c) <= 1 /\ 0 <= snd (fst c) <= 1 /\ 0 <= snd c <= 1)%R.

End Plot.

(** * data_helper.py *)

Module DataHelper.
Import String.StringSyntax.

(** The operator that [create_dataset] implements, and one that it only
    accepts. *)
Open Scope string_scope.
Definition average : String.string := "average".
Definition hadamard : String.string := "hadamard".
(** A graph source and a measure for which [get_coord_embedding] returns
    points of the sphere. *)
Definition osmnx : String.string := "osmnx".
Definition norm : String.string := "norm".
Close Scope string_scope.

(** The keys of [Counter(y)], in the order of their first occurrence. *)
Fixpoint counter_keys (y : list Z) : list Z :=
  match y with
  | [] => []
  | k :: y' => k :: filter (fun k' => negb (k' =? k)) (counter_keys y')
  end.

(** [Counter(y)[k]] *)
Definition count (y : list Z) (k : Z) : Z :=
  Z.of_nat (count_occ Z.eq_dec y k).

(** [a[mask]] with a boolean mask: the mask has to be as long as the
    array. *)
Definition select {A} (mask : list bool) (a : list A) : result (list A) :=
  if Nat.eqb (length mask) (length a)
  then Ok (map snd (filter fst (combine mask a)))
  else Raise IndexError.

(** [remove_data_with_a_few_observations(x, y, min_observations)]: the
    number of rows removed, which it prints, and the pair it returns. *)
Definition remove_data_with_a_few_observations {A} (x : list A)
    (y : list Z) (min_observations : Z) : result (Z * (list A * list Z)) :=
  let original_len := Z.of_nat (length y) in
  let y_keep := filter (fun k => min_observations <=? count y k)
                       (counter_keys y) in
  let mask := map (fun v => existsb (fun k => v =? k) y_keep) y in
  y' <- select mask y ;;
  x' <- select mask x ;;
  Ok (original_len - Z.of_nat (length y'), (x', y')).

(** The mask of [np.isin(y, y_keep)], entry by entry. *)
Definition keep (y : list Z) (min_observations : Z) (v : Z) : bool :=
  min_observations <=? count y v.

(** A distance of the map: a number, or [np.inf]. *)
Inductive distance : Type :=
| Finite (d : R)
| Inf.

Definition is_inf (d : distance) : bool :=
  match d with
  | Finite _ => false
  | Inf => true
  end.

(** [d[k]] for a dictionary with integer keys *)
Fixpoint get {V} (d : list (Z * V)) (k : Z) : result V :=
  match d with
  | [] => Raise KeyError
  | (k', v) :: d' => if k' =? k then Ok v else get d' k
  end.

(** [tuple(sorted([node, landmark]))] *)
Definition pair_key (node landmark : Z) : Z * Z :=
  (Z.min node landmark, Z.max node landmark).

Definition mem (k : Z * Z) (s : list (Z * Z)) : bool :=
  existsb (fun k' => (fst k' =? fst k) && (snd k' =? snd k)) s.

Record collected : Type := {
  data_list : list (list R);
  label_list : list R;
  node_pairs : list (Z * Z)
}.

(** The body of the inner loop of [create_dataset], for one entry
    [(node, distance)] of the distances of [landmark]. *)
Definition visit (embedding : list (list R)) (node2idx : list (Z * nat))
    (binary_operator : String.string) (landmark : Z) (st : collected)
    (entry : Z * distance) : outcome collected :=
  let '(node, distance) := entry in
  let key := pair_key node landmark in
  if (node =? landmark) || is_inf distance || mem key (node_pairs st)
  then Return st
  else
    if String.eqb binary_operator "average" then
      i <-- lift (get node2idx node) ;;
      wn <-- lift (Routing.row embedding i) ;;
      j <-- lift (get node2idx landmark) ;;
      wl <-- lift (Routing.row embedding j) ;;
      let data := Heuristics.div_row (Heuristics.add_rows wn wl) 2 in
      let label := match distance with Finite d => d | Inf => 0%R end in
      Return {| data_list := data_list st ++ [data];
                label_list := label_list st ++ [label];
                node_pairs := key :: node_pairs st |}
    else Throw ValueError.

Fixpoint visit_all (embedding : list (list R)) (node2idx : list (Z * nat))
    (binary_operator : String.string) (landmark : Z) (st : collected)
    (distance_list : list (Z * distance)) : outcome collected :=
  match distance_list with
  | [] => Return st
  | entry :: rest =>
      st' <-- visit embedding node2idx binary_operator landmark st entry ;;
      visit_all embedding node2idx binary_operator landmark st' rest
  end.

(** The outer loop, over the landmarks of the distance map. *)
Fixpoint collect (embedding : list (list R)) (node2idx : list (Z * nat))
    (binary_operator : String.string) (st : collected)
    (distance_map : list (Z * list (Z * distance))) : outcome collected :=
  match distance_map with
  | [] => Return st
  | (landmark, distance_list) :: rest =>
      st' <-- visit_all embedding node2idx binary_operator landmark st
                        distance_list ;;
      collect embedding node2idx binary_operator st' rest
  end.

Definition valid_operator (binary_operator : String.string) : bool :=
  String.eqb binary_operator "average"
  || String.eqb binary_operator "concatenation"
  || String.eqb binary_operator "subtraction"
  || String.eqb binary_operator "hadamard".

(** [create_dataset(distance_map, embedding, node2idx, binary_operator)];
    [to_int16] is the conversion of a label to [np.int16]. *)
Definition create_dataset (to_int16 : R -> Z)
    (distance_map : list (Z * list (Z * distance)))
    (embedding : list (list R)) (node2idx : list (Z * nat))
    (binary_operator : String.string)
  : outcome (list (list R) * list Z) :=
  if negb (valid_operator binary_operator) then Throw ValueError
  else
    st <-- collect embedding node2idx binary_operator
                   {| data_list := []; label_list := []; node_pairs := [] |}
                   distance_map ;;
    Return (data_list st, map to_int16 (label_list st)).

(** An entry of the distances of [landmark] that gives a data point when no
    pair has been seen yet: another node, at a finite distance. *)
Definition admissible (landmark : Z) (entry : Z * distance) : bool :=
  negb (fst entry =? landmark) && negb (is_inf (snd entry)).

Definition has_admissible (distance_map : list (Z * list (Z * distance)))
  : bool :=
  existsb (fun ld => existsb (admissible (fst ld)) (snd ld)) distance_map.

(** A key that comes from the map: the sorted pair of a landmark and of
    another node at a finite distance from it. *)
Definition from_map (distance_map : list (Z * list (Z * distance)))
    (k : Z * Z) : Prop :=
  exists landmark distance_list node d,
    In (landmark, distance_list) distance_map /\
    In (node, Finite d) distance_list /\
    node <> landmark /\ k = pair_key node landmark.

(** What the loops keep true of the lists they build. *)
Definition collected_ok (Q : Z * Z -> Prop) (st : collected) : Prop :=
  length (data_list st) = length (node_pairs st) /\
  length (label_list st) = length (node_pairs st) /\
  NoDup (node_pairs st) /\
  Forall (fun k => fst k < snd k /\ Q k) (node_pairs st).

(** The entries of the configuration that [get_coord_embedding] reads:
    [config["graph"]["source"]] and [config["aneda"]["measure"]]. *)
Record config : Type := {
  source : String.string;
  measure : String.string
}.

(** The row that [get_coord_embedding] writes for one node. *)
Definition coord_row (cfg : config) (nodes : list (Z * (R * R))) (node : Z)
  : result (list R) :=
  let p := (PI / 180)%R in
  xy <- Heuristics.node_data nodes node ;;
  if String.eqb (source cfg) "gis-f2e" then Ok [fst xy; snd xy]
  else
    let lat := (snd xy * p)%R in
    let long := (fst xy * p)%R in
    if String.eqb (measure cfg) "lat-long" then Ok [lat; long]
    else Ok [cos lat * cos long; cos lat * sin long; sin lat]%R.

(** [get_coord_embedding(config, nx_graph, node_list)] *)
Definition get_coord_embedding (cfg : config) (nodes : list (Z * (R * R)))
    (node_list : list Z) : result (list (list R)) :=
  mapM (coord_row cfg nodes) node_list.

(** The width of the array that [get_coord_embedding] allocates. *)
Definition coord_dim (cfg : config) : nat :=
  if String.eqb (source cfg) "gis-f2e"
     || String.eqb (measure cfg) "lat-long"
  then 2%nat else 3%nat.

End DataHelper.

(** * landmarks.py *)

Module Landmarks.

(** [sorted(g.degree, key=lambda x: x[1], reverse=True)]: the pairs
    (node, degree) by decreasing degree, pairs of one degree in the order
    they had. *)
Fixpoint insert (x : Z * Z) (s : list (Z * Z)) : list (Z * Z) :=
  match s with
  | [] => [x]
  | y :: s' => if snd x <? snd y then y :: insert x s' else x :: y :: s'
  end.

Definition sorted (degree : list (Z * Z)) : list (Z * Z) :=
  fold_right insert [] degree.

(** An index of a slice, brought into the bounds of a list of length
    [len]. *)
Definition clamp (len i : Z) : Z :=
  if i <? 0 then Z.max 0 (i + len) else Z.min i len.

(** [l[start:stop]] *)
Definition slice {A} (l : list A) (start stop : option Z) : list A :=
  let len := Z.of_nat (length l) in
  let a := match start with None => 0 | Some i => clamp len i end in
  let b := match stop with None => len | Some i => clamp len i end in
  firstn (Z.to_nat (b - a)) (skipn (Z.to_nat a) l).

(** [int(x)] of a float: the fraction is dropped. *)
Definition int (x : R) : Z :=
  if Rle_dec 0 x then Int_part x else - Int_part (- x).

(** [get_landmark_custom(g, portion)] *)
Definition get_landmark_custom (degree : list (Z * Z)) (portion : R)
  : list Z :=
  let s := sorted degree in
  map fst (slice s None (Some (int (INR (length s) * portion)))).

Import PrimFloat.

(** [len(s) * x], the product of an integer and a float *)
Definition scale {A} (s : list A) (x : float) : float :=
  (Binary64.of_Z (Z.of_nat (length s)) * x)%float.

(** [get_landmark_custom2(g, portion)], with the two counts as Python
    takes them, in binary64. *)
Definition get_landmark_custom2 (degree : list (Z * Z)) (portion : float)
  : outcome (list Z) :=
  let s := sorted degree in
  high <-- Binary64.int (scale s (portion / 2)) ;;
  let landmark_nodes_high := map fst (slice s None (Some high)) in
  low <-- Binary64.int (scale s (portion / 2)) ;;
  let landmark_nodes_low := map fst (slice s (Some (- low)) None) in
  Return (landmark_nodes_high ++ landmark_nodes_low).

(** [get_landmark_custom4(g, portion)], with the cut as Python takes it, in
    binary64. *)
Definition get_landmark_custom4 (degree : list (Z * Z)) (portion : float)
  : outcome (list Z) :=
  let cut_position := ((1 - portion) / 2)%float in
  let s := sorted degree in
  start <-- Binary64.int (scale s cut_position) ;;
  stop <-- Binary64.int (scale s cut_position) ;;
  Return (map fst (slice s (Some start) (Some (- stop)))).

(** [get_landmark_nodes(num_landmarks, graph, random_seed)]; [choice] is
    [np.random.choice(nodes, num_landmarks, replace=False)]. *)
Definition get_landmark_nodes (choice : list Z -> Z -> list Z)
    (num_landmarks : Z) (nodes : list Z) : list Z :=
  if num_landmarks >=? Z.of_nat (length nodes) then nodes
  else choice nodes num_landmarks.

End Landmarks.

(** * train_neural_net.py *)

Module NeuralNet.
Import String.StringSyntax.

Open Scope string_scope.
Definition cpu : String.string := "cpu".
Definition cuda : String.string := "cuda".
Close Scope string_scope.

(** [np.mean] of a list of losses; the mean of no loss is [nan], here
    [None]. *)
Definition np_mean (l : list R) : option R :=
  match l with
  | [] => None
  | _ => Some (fold_right Rplus 0 l / INR (length l))%R
  end.

Section Net.

(** Inputs, outputs, models and metric scores; [predict m x] is [model(x)]
    for a model that accepts the batches, [train_on m x y] the model after
    [loss.backward(); optimizer.step()]; [reachable device] tells whether
    [tensor.to(device)] succeeds, which it does not for a name that is no
    device or for a device that the machine does not have. *)
Variables (X Y M Metrics : Type).
Variable predict : M -> X -> Y.
Variable loss_fn : Y -> Y -> R.
Variable train_on : M -> X -> Y -> M.
Variable reachable : String.string -> bool.

(** [batch.to(device)] *)
Definition to_device {A : Type} (device : String.string) (batch : A)
  : outcome A :=
  if reachable device then Return batch else Throw (Builtin RuntimeError).

(** The closure that [_make_train_step] returns. *)
Definition train_step (model : M) (x : X) (y : Y) : M * R :=
  let yhat := predict model x in
  let loss := loss_fn y yhat in
  (train_on model x y, loss).

(** The loop of [evaluate_model] over the validation batches. *)
Fixpoint eval_batches (model : M) (device : String.string)
    (evaluate_function : option (list Y -> list Y -> Metrics))
    (yhat_list ytrue_list : list Y) (val_losses : list R)
    (val_loader : list (X * Y)) : outcome (list Y * list Y * list R) :=
  match val_loader with
  | [] => Return (yhat_list, ytrue_list, val_losses)
  | (x_val, y_val) :: rest =>
      x_val <-- to_device device x_val ;;
      y_val <-- to_device device y_val ;;
      let yhat := predict model x_val in
      let val_loss := loss_fn y_val yhat in
      let val_losses := val_losses ++ [val_loss] in
      match evaluate_function with
      | Some _ =>
          if negb (String.eqb device "cpu")
          then (* yhat.cpu.numpy(): the method [cpu] is not called *)
            Throw AttributeError
          else eval_batches model device evaluate_function
                            (yhat_list ++ [yhat]) (ytrue_list ++ [y_val])
                            val_losses rest
      | None => eval_batches model device evaluate_function
                             yhat_list ytrue_list val_losses rest
      end
  end.

(** [evaluate_model(model, loss_fn, val_loader, device, evaluate_function)]:
    [np.vstack] refuses an empty list, and [metric_scores] is assigned only
    when there is an [evaluate_function]. *)
Definition evaluate_model (model : M) (val_loader : list (X * Y))
    (device : String.string)
    (evaluate_function : option (list Y -> list Y -> Metrics))
  : outcome (option R * Metrics) :=
  lists <-- eval_batches model device evaluate_function [] [] []
                         val_loader ;;
  let '(yhat_list, ytrue_list, val_losses) := lists in
  let validation_loss := np_mean val_losses in
  match evaluate_function with
  | Some f =>
      match ytrue_list with
      | [] => Throw ValueError
      | _ => Return (validation_loss, f ytrue_list yhat_list)
      end
  | None => Throw UnboundLocalError
  end.

(** One pass over the training batches. *)
Fixpoint train_batches (model : M) (device : String.string)
    (batch_losses : list R) (train_loader : list (X * Y))
  : outcome (M * list R) :=
  match train_loader with
  | [] => Return (model, batch_losses)
  | (x_batch, y_batch) :: rest =>
      x_batch <-- to_device device x_batch ;;
      y_batch <-- to_device device y_batch ;;
      let '(model', loss) := train_step model x_batch y_batch in
      train_batches model' device (batch_losses ++ [loss]) rest
  end.

Record training : Type := {
  net : M;
  (** [val_metrics], once an epoch has assigned it *)
  val_metrics : option Metrics;
  (** the lines printed: epoch, training loss, validation loss, metrics *)
  printed : list (Z * option R * option R * Metrics);
  (** the calls of [lr_scheduler.step()] *)
  scheduler_steps : nat
}.

(** The body of the loop over the epochs of [_train_model]. *)
Definition epoch_body (evaluate_metrics : list Y -> list Y -> Metrics)
    (device : String.string) (lr_scheduler verbose : bool)
    (train_loader val_loader : list (X * Y)) (n_epochs : Z)
    (st : training) (epoch : Z) : outcome training :=
  trained <-- train_batches (net st) device [] train_loader ;;
  let '(model, batch_losses) := trained in
  let training_loss := np_mean batch_losses in
  ev <-- evaluate_model model val_loader device (Some evaluate_metrics) ;;
  let '(validation_loss, metrics) := ev in
  Return {| net := model;
            val_metrics := Some metrics;
            printed := printed st
                       ++ (if verbose
                           then [(epoch + 1, training_loss, validation_loss,
                                  metrics)]
                           else []);
            scheduler_steps := if lr_scheduler then S (scheduler_steps st)
                               else scheduler_steps st |}.

Fixpoint epochs_loop (evaluate_metrics : list Y -> list Y -> Metrics)
    (device : String.string) (lr_scheduler verbose : bool)
    (train_loader val_loader : list (X * Y)) (n_epochs : Z)
    (st : training) (epochs : list Z) : outcome training :=
  match epochs with
  | [] => Return st
  | epoch :: rest =>
      st' <-- epoch_body evaluate_metrics device lr_scheduler verbose
                         train_loader val_loader n_epochs st epoch ;;
      epochs_loop evaluate_metrics device lr_scheduler verbose
                  train_loader val_loader n_epochs st' rest
  end.

(** [_train_model]: the state at the end, and the [val_metrics] returned;
    returning a variable that no epoch assigned is an
    [UnboundLocalError]. *)
Definition _train_model (evaluate_metrics : list Y -> list Y -> Metrics)
    (model : M) (device : String.string) (lr_scheduler : bool)
    (n_epochs : Z) (train_loader val_loader : list (X * Y))
    (verbose : bool) : outcome (training * Metrics) :=
  st <-- epochs_loop evaluate_metrics device lr_scheduler verbose
                     train_loader val_loader n_epochs
                     {| net := model; val_metrics := None; printed := [];
                        scheduler_steps := 0 |}
                     (map Z.of_nat (seq 0 (Z.to_nat n_epochs))) ;;
  match val_metrics st with
  | Some metrics => Return (st, metrics)
  | None => Throw UnboundLocalError
  end.

End Net.

End NeuralNet.

(** ** The ring run, continued *)

Module RingRun.

(** A backend that leaves the model as it is and reports a loss of 0 and an
    accuracy of 1. *)
Definition backend : Node2vecModel.Backend :=
  {| Node2vecModel._train_step := fun m _ => (m, 0%R);
     Node2vecModel._evaluate_step := fun _ _ => 1%R |}.

Definition eval_set : Node2vecModel.EvalSet :=
  (([0; 1], [0; 1]), ([2; 3], [0; 1])).

(** Libraries that shuffle by reversing, accept a positive learning rate,
    leave the table as it is, score 1, and write where a path says. *)
Definition env : Trainer.Env :=
  {| Trainer.shuffle := fun _ l => rev l;
     Trainer.valid_lr := fun _ rate => if Rlt_dec 0 rate then true else false;
     Trainer.step := fun _ _ m _ _ _ => m;
     Trainer.fit_score := fun _ _ _ _ => Return 1%R;
     Trainer.writable := fun _ => true |}.

Definition params : Trainer.Node2VecParams :=
  {| Trainer.embedding_dim := 2; Trainer.walk_length := 3;
     Trainer.window_size := 3; Trainer.p := 1; Trainer.q := 1;
     Trainer.num_walks := 1; Trainer.num_negatives := 2;
     Trainer.init_c := 10; Trainer.device := Node2vecModel.cpu;
     Trainer.epochs := 3; Trainer.batch_size := 2; Trainer.lr := 1 / 100 |}.

End RingRun.

(** ** A net of one weight *)

Module ScalarNet.

(** [model(x)] multiplies by the weight, the loss is the squared error, a
    training step leaves the weight, and the machine has a "cuda" device. *)
Definition predict (m x : R) : R := (m * x)%R.
Definition loss_fn (y yhat : R) : R := ((y - yhat) * (y - yhat))%R.
Definition train_on (m x y : R) : R := m.
Definition reachable (device : String.string) : bool :=
  String.eqb device NeuralNet.cpu || String.eqb device NeuralNet.cuda.
Definition evaluate_metrics (ytrue yhat : list R) : nat := length ytrue.
Definition loader : list (R * R) := [(1, 2); (2, 4)]%R.

End ScalarNet.

(** * Properties *)

(** ** The error monad *)

Lemma mapM_Ok {A B} (f : A -> result B) (h : A -> B) (xs : list A) :
  Forall (fun x => f x = Ok (h x)) xs -> mapM f xs = Ok (map h xs).
Proof.
  induction 1 as [|x xs Hx _ IH]; simpl.
  - reflexivity.
  - now rewrite Hx, IH.
Qed.

Lemma mapM_inv {A B} (f : A -> result B) (xs : list A) (ys : list B) :
  mapM f xs = Ok ys -> Forall2 (fun x y => f x = Ok y) xs ys.
Proof.
  revert ys; induction xs as [|x xs IH]; simpl; intros ys H.
  - injection H as <-. constructor.
  - destruct (f x) as [y|] eqn:Hx; simpl in H; [|discriminate].
    destruct (mapM f xs) as [ys'|] eqn:Hxs; simpl in H; [|discriminate].
    injection H as <-. constructor; auto.
Qed.

(** ** Tensors *)

Module TensorFacts.
Import Tensor.

Lemma tile_Ok {A} (k : Z) (t : list A) :
  0 <= k -> tile k t = Ok (concat (repeat t (Z.to_nat k))).
Proof.
  intros Hk. unfold tile.
  destruct (Z.ltb_spec k 0); [lia | reflexivity].
Qed.

Lemma length_concat_repeat {A} (t : list A) (n : nat) :
  length (concat (repeat t n)) = (n * length t)%nat.
Proof.
  induction n as [|n IH]; simpl; [reflexivity|].
  now rewrite length_app, IH.
Qed.

Lemma in_concat_repeat {A} (t : list A) (n : nat) (x : A) :
  In x (concat (repeat t n)) -> In x t.
Proof.
  induction n as [|n IH]; simpl; [tauto|].
  rewrite in_app_iff. tauto.
Qed.

Lemma chunks_concat {A} (cols : nat) (rows : list (list A)) :
  Forall (fun r => length r = cols) rows ->
  chunks (length rows) cols (concat rows) = rows.
Proof.
  induction 1 as [|r rows Hr _ IH]; simpl; [reflexivity|].
  rewrite firstn_app, skipn_app, Hr, Nat.sub_diag.
  rewrite firstn_all2, skipn_all2 by lia.
  simpl. rewrite app_nil_r. now rewrite IH.
Qed.

Lemma length_concat_uniform {A} (cols : nat) (rows : list (list A)) :
  Forall (fun r => length r = cols) rows ->
  length (concat rows) = (length rows * cols)%nat.
Proof.
  induction 1 as [|r rows Hr _ IH]; simpl; [reflexivity|].
  rewrite length_app, IH, Hr. reflexivity.
Qed.

(** Viewing the flattened rows with their own width gives the rows back. *)
Lemma view2_concat {A} (cols : Z) (rows : list (list A)) :
  0 < cols ->
  Forall (fun r => Z.of_nat (length r) = cols) rows ->
  view2 cols (concat rows) = Ok rows.
Proof.
  intros Hc Hrows.
  assert (Hrows' : Forall (fun r => length r = Z.to_nat cols) rows).
  { eapply Forall_impl; [|exact Hrows]. simpl; intros; lia. }
  unfold view2.
  destruct (Z.leb_spec cols 0); [lia|].
  rewrite (length_concat_uniform _ _ Hrows').
  rewrite Nat2Z.inj_mul, Z2Nat.id by lia.
  rewrite Z.mod_mul by lia. simpl.
  rewrite Z.div_mul by lia.
  rewrite Nat2Z.id. now rewrite chunks_concat.
Qed.

Lemma length_unfold1 {A} (size : nat) (row : list A) :
  length (unfold1 size row) = (length row + 1 - size)%nat.
Proof. unfold unfold1. now rewrite length_map, length_seq. Qed.

(** Every window is a contiguous slice of the row, in the row's order, and
    the [i]-th window starts at position [i]. *)
Lemma nth_unfold1 {A} (size : nat) (row : list A) (i : nat) :
  (i < length row + 1 - size)%nat ->
  nth i (unfold1 size row) [] = firstn size (skipn i row).
Proof.
  intros Hi. unfold unfold1.
  rewrite (nth_indep _ [] (firstn size (skipn 0 row)))
    by (rewrite length_map, length_seq; exact Hi).
  rewrite (map_nth (fun j => firstn size (skipn j row)) _ 0%nat i).
  now rewrite seq_nth by exact Hi.
Qed.

Lemma in_unfold1 {A} (size : nat) (row w : list A) :
  In w (unfold1 size row) <->
  exists i, (i < length row + 1 - size)%nat /\
            w = firstn size (skipn i row).
Proof.
  unfold unfold1. rewrite in_map_iff. split.
  - intros [i [<- Hi]]. apply in_seq in Hi. exists i. split; [lia|reflexivity].
  - intros [i [Hi ->]]. exists i. split; [reflexivity|]. apply in_seq. lia.
Qed.

Lemma unfold1_width {A} (size : nat) (row : list A) :
  Forall (fun w => length w = size) (unfold1 size row).
Proof.
  apply Forall_forall. intros w Hw.
  apply in_unfold1 in Hw. destruct Hw as [i [Hi ->]].
  rewrite length_firstn, length_skipn. lia.
Qed.

Lemma unfold_Ok {A} (size : Z) (t : list (list A)) :
  0 <= size ->
  Forall (fun row => size <= Z.of_nat (length row)) t ->
  unfold size t = Ok (map (unfold1 (Z.to_nat size)) t).
Proof.
  intros Hs Ht. unfold unfold.
  destruct (Z.ltb_spec size 0); [lia|]. simpl.
  replace (forallb _ t) with true; [reflexivity|].
  symmetry. apply forallb_forall. intros row Hrow.
  rewrite Forall_forall in Ht. apply Z.leb_le. auto.
Qed.

Lemma windows_width {A} (size : nat) (t : list (list A)) :
  Forall (fun w => length w = size) (windows size t).
Proof.
  unfold windows. apply Forall_concat, Forall_map.
  apply Forall_forall. intros row _. apply unfold1_width.
Qed.

Lemma length_windows {A} (size len : nat) (t : list (list A)) :
  Forall (fun row => length row = len) t ->
  length (windows size t) = (length t * (len + 1 - size))%nat.
Proof.
  intros Ht. unfold windows.
  rewrite <- (length_map (unfold1 size) t).
  apply length_concat_uniform.
  induction Ht as [|row t Hrow _ IH]; simpl; constructor; auto.
  now rewrite length_unfold1, Hrow.
Qed.

(** [unfold] and then [view(-1, size)] is [windows]. *)
Lemma view2_windows {A} (size : Z) (t : list (list A)) :
  0 < size ->
  view2 size (flatten3 (map (unfold1 (Z.to_nat size)) t))
  = Ok (windows (Z.to_nat size) t).
Proof.
  intros Hs. unfold flatten3. apply view2_concat; [exact Hs|].
  eapply Forall_impl; [|apply (windows_width (Z.to_nat size) t)].
  simpl. intros w Hw. lia.
Qed.

Lemma index_Ok {A} (t : list A) (i : Z) (d : A) :
  - Z.of_nat (length t) <= i < Z.of_nat (length t) ->
  index t i
  = Ok (nth (Z.to_nat (if i <? 0 then i + Z.of_nat (length t) else i)) t d).
Proof.
  intros Hi. unfold index.
  destruct (Z.leb_spec (- Z.of_nat (length t)) i); [|lia].
  destruct (Z.ltb_spec i (Z.of_nat (length t))); [|lia]. simpl.
  set (k := Z.to_nat _).
  assert (Hk : (k < length t)%nat).
  { subst k. destruct (Z.ltb_spec i 0); lia. }
  destruct (nth_error t k) as [x|] eqn:Hx.
  - now rewrite (nth_error_nth _ _ d Hx).
  - apply nth_error_None in Hx. lia.
Qed.

Lemma zip_rows_column {A} (xs : list A) (b : list (list A)) :
  length xs = length b ->
  zip_rows (column xs) b = map (fun xr => fst xr :: snd xr) (combine xs b).
Proof.
  revert b; induction xs as [|x xs IH]; intros [|r b]; simpl;
    try discriminate; auto.
  intros H. f_equal. apply IH. lia.
Qed.

End TensorFacts.

(** ** The sampler in closed form *)

Module SampleFacts.
Import Tensor TensorFacts Node2vec SampleSpec.

Section Closed.
Variables (O : Oracle) (self : Node2vec.t) (batch : list Z).

Hypothesis Hwc : well_configured O self.

Local Ltac row_bound H :=
  eapply Forall_impl; [|exact H]; simpl; intros; lia.

Lemma walks_shape :
  length (walks O self batch) = length (seeds self batch) /\
  Forall (fun t => Z.of_nat (length t) = walk_length self + 1)
         (walks O self batch) /\
  map (fun t => hd (-1) t) (walks O self batch) = seeds self batch.
Proof.
  destruct Hwc as [Ho Hw _ _ _].
  pose proof (walk_shape _ _ Ho (seeds self batch) (p self) (q self)
                         (walk_length self) (prob self)) as H.
  unfold walks, walk_result.
  destruct (node2vec_random_walk _ _ _ _ _ _ _) as [tr ed]; simpl.
  destruct H as (H1 & _ & H3 & _ & H5 & _); [lia|]. auto.
Qed.

Lemma step_lengths_shape :
  length (step_lengths O self batch) = length (seeds self batch) /\
  Forall (fun d => Z.of_nat (length d) = walk_length self)
         (step_lengths O self batch).
Proof.
  destruct Hwc as [Ho Hw _ _ _].
  pose proof (walk_shape _ _ Ho (seeds self batch) (p self) (q self)
                         (walk_length self) (prob self)) as H.
  unfold step_lengths, walk_result.
  destruct (node2vec_random_walk _ _ _ _ _ _ _) as [tr ed]; simpl.
  destruct H as (_ & H2 & _ & H4 & _ & _); [lia|].
  rewrite length_map. split; [exact H2|].
  apply Forall_map. eapply Forall_impl; [|exact H4].
  simpl. intros e He. now rewrite length_map.
Qed.

Lemma neg_rows_shape :
  length (neg_rows O self batch) = length (neg_seeds self batch) /\
  Forall (fun r => Z.of_nat (length r) = walk_length self + 1)
         (neg_rows O self batch).
Proof.
  destruct Hwc as [Ho Hw _ _ _].
  destruct (randint_shape _ _ Ho (N self) (length (neg_seeds self batch))
                          (Z.to_nat (walk_length self))) as [Hr Hc].
  unfold neg_rows. rewrite length_map, length_combine, Hr, Nat.min_id.
  split; [reflexivity|].
  apply Forall_map, Forall_forall. intros [x r] Hin. simpl.
  apply in_combine_r in Hin. rewrite Forall_forall in Hc.
  rewrite (Hc r Hin). lia.
Qed.

(** [sample] returns, and returns the windows of the walks, of the per-step
    edge lengths and of the negative rows. *)
Lemma sample_Ok :
  sample O self batch
  = Ok (windows (Z.to_nat (window_size self)) (walks O self batch),
        windows (Z.to_nat (window_size self - 1)) (step_lengths O self batch),
        windows (Z.to_nat (window_size self)) (neg_rows O self batch)).
Proof.
  pose proof walks_shape as (Hw1 & Hw2 & _).
  pose proof step_lengths_shape as (Hd1 & Hd2).
  pose proof neg_rows_shape as (Hn1 & Hn2).
  destruct Hwc as [Ho Hw Hnw Hnn HN].
  unfold sample. rewrite tile_Ok by exact Hnw. simpl.
  fold (seeds self batch).
  pose proof (walk_shape _ _ Ho (seeds self batch) (p self) (q self)
                         (walk_length self) (prob self)) as Hshape.
  unfold walks, step_lengths, walk_result in *.
  destruct (node2vec_random_walk _ _ _ _ _ _ _) as [tr ed]; simpl in *.
  destruct Hshape as (_ & _ & _ & He & _ & Hrange); [lia|].
  (* the edge lengths *)
  unfold index_select, flatten2.
  rewrite (mapM_Ok _ (edge_length (g self))).
  2:{ apply Forall_concat. eapply Forall_impl; [|exact Hrange].
      intros row Hrow. eapply Forall_impl; [|exact Hrow].
      intros e0 He0. apply index_Ok. exact He0. }
  simpl. rewrite concat_map.
  rewrite view2_concat by (auto; lia). simpl.
  (* the windows of the traces and of the distances *)
  rewrite unfold_Ok
    by (solve [lia | row_bound Hw2]).
  cbn [bind]. rewrite view2_windows by lia. cbn [bind].
  rewrite unfold_Ok
    by (solve [lia | row_bound Hd2]).
  cbn [bind]. rewrite view2_windows by lia. cbn [bind].
  (* the negative rows *)
  rewrite tile_Ok by exact Hnn. fold (neg_seeds self batch).
  unfold randint.
  destruct (Z.leb_spec (N self) 0); [lia|].
  destruct (Z.ltb_spec (walk_length self) 0); [lia|]. simpl.
  destruct (randint_shape _ _ Ho (N self) (length (neg_seeds self batch))
                          (Z.to_nat (walk_length self))) as [Hr _].
  unfold cat_cols, column. rewrite length_map, Hr, Nat.eqb_refl.
  fold (column (neg_seeds self batch)).
  rewrite zip_rows_column by (now rewrite Hr).
  fold (neg_rows O self batch). cbn [bind].
  rewrite unfold_Ok
    by (solve [lia | row_bound Hn2]).
  cbn [bind]. rewrite view2_windows by lia. cbn [bind].
  reflexivity.
Qed.

End Closed.

End SampleFacts.

(** ** The ring run *)

Module RingFacts.
Import Tensor TensorFacts Node2vec SampleSpec SampleFacts Ring.

Lemma init_model :
  init (fun _ _ => 0%R) graph 2 3 1 1 1 3 2 true None 10 = Ok model.
Proof. reflexivity. Qed.

Lemma oracle_is_ok : oracle_ok oracle graph.
Proof.
  constructor.
  - intros seeds p q L prob HL. simpl. unfold ring_walk.
    rewrite !length_map. repeat split.
    + apply Forall_map, Forall_forall. intros s _. simpl.
      rewrite length_map, length_seq. lia.
    + apply Forall_map, Forall_forall. intros s _.
      rewrite length_map, length_seq. lia.
    + rewrite map_map. simpl. apply map_id.
    + apply Forall_map, Forall_forall. intros s _.
      apply Forall_map, Forall_forall. intros k _. simpl.
      pose proof (Z.mod_pos_bound (s + Z.of_nat k) 4). lia.
  - intros high rows cols. simpl. rewrite length_map, length_seq.
    split; [reflexivity|].
    apply Forall_map, Forall_forall. intros i _.
    now rewrite length_map, length_seq.
  - intros high rows cols Hh. simpl.
    apply Forall_map, Forall_forall. intros i _.
    apply Forall_map, Forall_forall. intros j _.
    apply Z.mod_pos_bound. exact Hh.
Qed.

Lemma model_well_configured : well_configured oracle model.
Proof.
  constructor; simpl; try lia. apply oracle_is_ok.
Qed.

Lemma sample_ring :
  sample oracle model [0]
  = Ok ([[0; 1; 2]; [1; 2; 3]],
        [[1; 2]; [2; 3]]%R,
        [[0; 0; 1]; [0; 1; 2]; [0; 1; 2]; [1; 2; 3]]).
Proof. reflexivity. Qed.

End RingFacts.

(** ** Claims about the sampler *)

Module SampleClaims.
Import Tensor TensorFacts Node2vec SampleSpec SampleFacts.

Lemma in_slice {A} (size i : nat) (row : list A) (x : A) :
  In x (firstn size (skipn i row)) -> In x row.
Proof.
  intros H.
  rewrite <- (firstn_skipn i row). apply in_or_app. right.
  rewrite <- (firstn_skipn size (skipn i row)). apply in_or_app. now left.
Qed.

Lemma in_windows {A} (size : nat) (t : list (list A)) (w : list A) :
  In w (windows size t) ->
  exists row i, In row t /\ (i < length row + 1 - size)%nat /\
                w = firstn size (skipn i row).
Proof.
  unfold windows. rewrite in_concat.
  intros (ws & Hws & Hw). apply in_map_iff in Hws.
  destruct Hws as (row & <- & Hrow).
  apply in_unfold1 in Hw. destruct Hw as (i & Hi & ->).
  exists row, i. auto.
Qed.

(** A slice that fits is a contiguous part of the row. *)
Lemma slice_contiguous {A} (size i : nat) (row : list A) :
  (i + size <= length row)%nat ->
  exists pre post,
    row = pre ++ firstn size (skipn i row) ++ post /\
    length pre = i /\ length (firstn size (skipn i row)) = size.
Proof.
  intros H. exists (firstn i row), (skipn size (skipn i row)).
  rewrite firstn_skipn, firstn_skipn. repeat split.
  - rewrite length_firstn. lia.
  - rewrite length_firstn, length_skipn. lia.
Qed.

Lemma combine_cons_rows {A} (P : list A -> Prop) (d : A)
    (xs : list A) (rs : list (list A)) :
  length xs = length rs -> Forall P rs ->
  Forall2 (fun x row => hd d row = x /\ P (tl row)) xs
          (map (fun xr => fst xr :: snd xr) (combine xs rs)).
Proof.
  revert rs; induction xs as [|x xs IH]; intros [|r rs]; simpl;
    try discriminate; intros Hl Hrs.
  - constructor.
  - inversion Hrs; subst. constructor; auto.
Qed.

Lemma Forall2_in_right {A B} {P : A -> B -> Prop} {xs ys y} :
  Forall2 P xs ys -> In y ys -> exists x, In x xs /\ P x y.
Proof.
  induction 1 as [|x y' xs ys Hxy _ IH]; simpl; [tauto|].
  intros [-> | Hin].
  - exists x. auto.
  - destruct (IH Hin) as (x' & Hx' & HP). exists x'. auto.
Qed.

(** The rows that the negative windows are cut from: a start id of the
    tiled batch, then [walk_length] draws of [randint(N, ...)]. *)
Lemma neg_rows_structure O self batch :
  well_configured O self ->
  Forall2 (fun start row =>
             hd (-1) row = start /\
             (Z.of_nat (length (tl row)) = walk_length self /\
              Forall (fun v => 0 <= v < N self) (tl row)))
          (neg_seeds self batch) (neg_rows O self batch).
Proof.
  intros [Ho Hw _ _ HN]. unfold neg_rows.
  destruct (randint_shape _ _ Ho (N self) (length (neg_seeds self batch))
                          (Z.to_nat (walk_length self))) as [Hr Hc].
  pose proof (randint_range _ _ Ho (N self)
                (length (neg_seeds self batch))
                (Z.to_nat (walk_length self)) HN) as Hrange.
  apply (combine_cons_rows
           (fun r => Z.of_nat (length r) = walk_length self /\
                     Forall (fun v => 0 <= v < N self) r));
    [now rewrite Hr|].
  apply Forall_forall. intros r Hin.
  rewrite Forall_forall in Hc, Hrange.
  split; [rewrite (Hc r Hin); lia | auto].
Qed.

(** C1, as stated, fails: every row of the distances that [sample] returns
    has [window_size - 1] entries, but they are the lengths of the single
    edges inside the window, not the distances walked from its start.  On
    the ring, the walk 0, 1, 2, 3 with edge lengths 1, 2, 3 gives the
    window (0, 1, 2) the distances (1, 2), while node 2 is at walk distance
    3 from node 0; so the label of the pair (0, 2) in the loss is
    [c / (c + 2)] and not [c / (c + 3)]. *)
Lemma sample_distances_are_per_step :
  exists pos dists neg,
    sample Ring.oracle Ring.model [0] = Ok (pos, dists, neg) /\
    Forall (fun d => Z.of_nat (length d) = window_size Ring.model - 1)
           dists /\
    nth 0 pos [] = [0; 1; 2] /\
    nth 0 dists [] = [1; 2]%R /\
    cumulative (nth 0 dists []) = [1; 3]%R /\
    dist_measure (c Ring.model) (nth 1 (nth 0 dists []) 0%R)
    <> dist_measure (c Ring.model) (walk_distance (nth 0 dists []) 1).
Proof.
  eexists _, _, _. split; [exact RingFacts.sample_ring|]. simpl.
  repeat split.
  - repeat constructor.
  - unfold cumulative, walk_distance. simpl. repeat f_equal; lra.
  - unfold dist_measure, walk_distance. simpl. intros H.
    apply (f_equal (fun x => (x * (10 + 2) * (10 + (1 + (2 + 0))))%R)) in H.
    field_simplify in H. lra.
Qed.

(** C5, as stated, fails: with [num_negatives = 2] the sampler returns
    four negative windows for two positive ones. *)
Lemma sample_parity_fails :
  exists pos dists neg,
    sample Ring.oracle Ring.model [0] = Ok (pos, dists, neg) /\
    length neg <> length pos.
Proof.
  eexists _, _, _. split; [exact RingFacts.sample_ring|]. simpl. lia.
Qed.

(** C5, amended. The negative traces are the windows of size [window_size]
    rolled, as for the positive traces, over rows made of a start id and
    [walk_length] ids drawn by [randint(N, ...)]; there are [num_negatives]
    times as many negative windows as positive ones. *)
Theorem sample_negative_windows O self batch :
  well_configured O self ->
  exists pos dists neg,
    sample O self batch = Ok (pos, dists, neg) /\
    pos = windows (Z.to_nat (window_size self)) (walks O self batch) /\
    neg = windows (Z.to_nat (window_size self)) (neg_rows O self batch) /\
    Forall2 (fun start row =>
               hd (-1) row = start /\
               (Z.of_nat (length (tl row)) = walk_length self /\
                Forall (fun v => 0 <= v < N self) (tl row)))
            (concat (repeat (seeds self batch)
                            (Z.to_nat (num_negatives self))))
            (neg_rows O self batch) /\
    Z.of_nat (length neg) = num_negatives self * Z.of_nat (length pos).
Proof.
  intros Hwc. eexists _, _, _.
  split; [apply sample_Ok; exact Hwc|].
  split; [reflexivity|]. split; [reflexivity|].
  split; [apply neg_rows_structure; exact Hwc|].
  destruct (walks_shape O self batch Hwc) as (Hw1 & Hw2 & _).
  destruct (neg_rows_shape O self batch Hwc) as (Hn1 & Hn2).
  destruct Hwc as [_ Hw _ Hnn _].
  rewrite (length_windows _ (Z.to_nat (walk_length self + 1))
                          (walks O self batch))
    by (eapply Forall_impl; [|exact Hw2]; simpl; intros; lia).
  rewrite (length_windows _ (Z.to_nat (walk_length self + 1))
                          (neg_rows O self batch))
    by (eapply Forall_impl; [|exact Hn2]; simpl; intros; lia).
  rewrite Hn1, Hw1. unfold neg_seeds. rewrite length_concat_repeat.
  rewrite !Nat2Z.inj_mul, Z2Nat.id by lia. ring.
Qed.

Lemma sample_negative_windows_witness :
  exists pos dists neg,
    sample Ring.oracle Ring.model [0] = Ok (pos, dists, neg) /\
    Z.of_nat (length neg) = 2 * Z.of_nat (length pos).
Proof.
  destruct (sample_negative_windows Ring.oracle Ring.model [0]
              RingFacts.model_well_configured)
    as (pos & dists & neg & H1 & _ & _ & _ & H5).
  exists pos, dists, neg. split; [exact H1 | exact H5].
Defined.

(** C7. The rolling window over a node sequence of length [L], with
    [W <= L], gives [L - W + 1] windows, and the [i]-th of them is the
    contiguous part of the sequence that starts at position [i]; the
    positive traces that [sample] returns are these windows, walk after
    walk (the node sequence of a walk has the seed and [walk_length] more
    nodes). *)
Theorem sample_windowing O self batch :
  well_configured O self ->
  let W := Z.to_nat (window_size self) in
  exists pos dists neg,
    sample O self batch = Ok (pos, dists, neg) /\
    pos = concat (map (unfold1 W) (walks O self batch)) /\
    Forall (fun walk => Z.of_nat (length walk) = walk_length self + 1)
           (walks O self batch) /\
    forall (walk : list Z) (L : nat),
      length walk = L -> (W <= L)%nat ->
      length (unfold1 W walk) = (L - W + 1)%nat /\
      forall i, (i < L - W + 1)%nat ->
        exists pre post,
          walk = pre ++ nth i (unfold1 W walk) [] ++ post /\
          length pre = i /\
          length (nth i (unfold1 W walk) []) = W.
Proof.
  intros Hwc W. eexists _, _, _.
  split; [apply sample_Ok; exact Hwc|].
  split; [reflexivity|].
  split; [apply (walks_shape O self batch Hwc)|].
  intros walk L HL HW. split.
  - rewrite length_unfold1. lia.
  - intros i Hi. rewrite nth_unfold1 by lia.
    apply slice_contiguous. lia.
Qed.

Lemma sample_windowing_witness :
  exists pos dists neg,
    sample Ring.oracle Ring.model [0] = Ok (pos, dists, neg) /\
    pos = concat (map (unfold1 3) (walks Ring.oracle Ring.model [0])) /\
    length (unfold1 3 [0; 1; 2; 3]) = (4 - 3 + 1)%nat.
Proof.
  destruct (sample_windowing Ring.oracle Ring.model [0]
              RingFacts.model_well_configured)
    as (pos & dists & neg & H1 & H2 & _ & H4).
  exists pos, dists, neg. split; [exact H1|]. split; [exact H2|].
  apply (H4 [0; 1; 2; 3] 4%nat); simpl; [reflexivity | lia].
Defined.

Lemma arange_range (n : Z) : Forall (fun v => 0 <= v < n) (arange n).
Proof.
  apply Forall_map, Forall_forall. intros k Hk. apply in_seq in Hk. lia.
Qed.

(** C10. When the batch is made of node ids (the loader batches
    [arange(N)]), every id of every negative trace that [sample] returns
    lies in [0, N): the padding id [N] does not occur, and the rows of the
    embedding table read for the negative term are rows of nodes. *)
Theorem sample_negative_ids O self batch :
  well_configured O self ->
  Forall (fun v => 0 <= v < N self) batch ->
  exists pos dists neg,
    sample O self batch = Ok (pos, dists, neg) /\
    Forall (Forall (fun v => 0 <= v < N self /\ v <> N self)) neg.
Proof.
  intros Hwc Hbatch. eexists _, _, _.
  split; [apply sample_Ok; exact Hwc|].
  pose proof (neg_rows_structure O self batch Hwc) as Hrows.
  assert (Hin : forall row, In row (neg_rows O self batch) ->
                Forall (fun v => 0 <= v < N self) row).
  { intros row Hrow.
    destruct (Forall2_in_right Hrows Hrow)
      as (start & Hstart & Hhd & _ & Htl).
    assert (Hs : 0 <= start < N self).
    { unfold neg_seeds, seeds in Hstart.
      apply in_concat_repeat, in_concat_repeat in Hstart.
      rewrite Forall_forall in Hbatch. auto. }
    destruct row as [|v row]; simpl in *; constructor; [lia | exact Htl]. }
  apply Forall_forall. intros w Hw.
  apply in_windows in Hw. destruct Hw as (row & i & Hrow & _ & ->).
  apply Forall_forall. intros v Hv. apply in_slice in Hv.
  specialize (Hin row Hrow). rewrite Forall_forall in Hin.
  specialize (Hin v Hv). lia.
Qed.

Lemma sample_negative_ids_witness :
  exists pos dists neg,
    sample Ring.oracle Ring.model [0] = Ok (pos, dists, neg) /\
    Forall (Forall (fun v => 0 <= v < 4 /\ v <> 4)) neg.
Proof.
  apply (sample_negative_ids Ring.oracle Ring.model [0]
           RingFacts.model_well_configured).
  repeat constructor; simpl; lia.
Defined.

End SampleClaims.

(** ** The loss in closed form *)

Module LossFacts.
Import Node2vec LossSpec.

Lemma sigmoid_range (x : R) : (0 < sigmoid x < 1)%R.
Proof.
  unfold sigmoid. pose proof (exp_pos (- x)) as He.
  split.
  - apply Rdiv_lt_0_compat; lra.
  - apply (Rmult_lt_reg_r (1 + exp (- x))); [lra|].
    field_simplify; lra.
Qed.

Lemma sigmoid_0 : sigmoid 0 = (1 / 2)%R.
Proof. unfold sigmoid. rewrite Ropp_0, exp_0. lra. Qed.

Lemma sigmoid_gt_half (x : R) : (0 < x)%R -> (1 / 2 < sigmoid x)%R.
Proof.
  intros Hx. unfold sigmoid.
  pose proof (exp_pos (- x)) as Hp.
  assert (Hlt : (exp (- x) < 1)%R).
  { rewrite <- exp_0. apply exp_increasing. lra. }
  apply (Rmult_lt_reg_r (1 + exp (- x))); [lra|].
  field_simplify; lra.
Qed.

Lemma embedding_row_Ok self i :
  in_table self i -> embedding_row self i = Ok (emb self i).
Proof.
  intros [H0 H1]. unfold embedding_row, emb.
  destruct (Z.leb_spec 0 i); [|lia].
  destruct (Z.ltb_spec i (Z.of_nat (length (embedding self)))); [|lia].
  simpl. destruct (nth_error _ _) as [w|] eqn:Hw.
  - now rewrite (nth_error_nth _ _ [] Hw).
  - apply nth_error_None in Hw. lia.
Qed.

Lemma embedding_row_inv self i w :
  embedding_row self i = Ok w -> in_table self i.
Proof.
  unfold embedding_row, in_table.
  destruct (Z.leb_spec 0 i); simpl; [|discriminate].
  destruct (Z.ltb_spec i (Z.of_nat (length (embedding self))));
    [|discriminate].
  intros _. lia.
Qed.

Lemma embedding_row_error self i err :
  embedding_row self i = Raise err -> err = IndexError.
Proof.
  unfold embedding_row.
  destruct (_ && _); [destruct (nth_error _ _)|]; congruence.
Qed.

Lemma mapM_error {A B} (f : A -> result B) (xs : list A) err0 err :
  (forall x e', f x = Raise e' -> e' = err0) ->
  mapM f xs = Raise err -> err = err0.
Proof.
  intros Hf. induction xs as [|x xs IH]; simpl; [discriminate|].
  destruct (f x) as [y|e'] eqn:Hx; simpl.
  - destruct (mapM f xs) as [ys|e'']; simpl; [discriminate|].
    intros H. apply IH. exact H.
  - intros H. injection H as <-. eauto.
Qed.

Lemma pair_products_map self (trace : list (list Z)) :
  pair_products (map (emb self) (map (hd 0) trace))
                (map (map (emb self)) (rest_columns trace))
  = map (row_scores self) trace.
Proof.
  induction trace as [|row trace IH]; simpl; [reflexivity|].
  rewrite IH. unfold row_scores. now rewrite map_map.
Qed.

Lemma scores_Ok self trace :
  valid_trace self trace ->
  scores self trace = Ok (map (row_scores self) trace).
Proof.
  intros Hv. unfold scores, first_column.
  rewrite (mapM_Ok _ (hd 0)).
  2:{ eapply Forall_impl; [|exact Hv]. intros [|v row] [Hne _];
      [congruence | reflexivity]. }
  cbn [bind].
  rewrite (mapM_Ok _ (emb self)).
  2:{ apply Forall_map. eapply Forall_impl; [|exact Hv].
      intros [|v row] [Hne Hrow]; [congruence|]. simpl.
      apply embedding_row_Ok. now inversion Hrow. }
  cbn [bind].
  rewrite (mapM_Ok _ (map (emb self))).
  2:{ apply Forall_map. eapply Forall_impl; [|exact Hv].
      intros [|v row] [Hne Hrow]; [congruence|]. simpl.
      apply mapM_Ok. inversion Hrow; subst.
      eapply Forall_impl; [|eassumption].
      intros; now apply embedding_row_Ok. }
  cbn [bind]. now rewrite pair_products_map.
Qed.

(** [scores] raises nothing but [IndexError], and when it returns every id
    of the trace is a row of the table. *)
Lemma scores_error self trace err :
  scores self trace = Raise err -> err = IndexError.
Proof.
  unfold scores.
  destruct (first_column trace) as [start|e1] eqn:H1; cbn [bind].
  - destruct (mapM (embedding_row self) start) as [ws|e2] eqn:H2;
      cbn [bind].
    + destruct (mapM _ (rest_columns trace)) as [wr|e3] eqn:H3;
        cbn [bind]; [discriminate|].
      intros H; injection H as <-.
      eapply mapM_error; [|exact H3].
      intros row e' Hrow.
      eapply mapM_error; [|exact Hrow]. apply embedding_row_error.
    + intros H; injection H as <-.
      eapply mapM_error; [|exact H2]. apply embedding_row_error.
  - intros H; injection H as <-.
    eapply mapM_error; [|exact H1].
    intros [|v row] e'; congruence.
Qed.

Lemma mapM_Ok_Forall {A B} (f : A -> result B) (P : A -> Prop) xs ys :
  (forall x y, f x = Ok y -> P x) ->
  mapM f xs = Ok ys -> Forall P xs.
Proof.
  intros Hf H. apply mapM_inv in H.
  induction H; constructor; eauto.
Qed.

Lemma scores_Ok_valid self trace out :
  scores self trace = Ok out -> valid_trace self trace.
Proof.
  unfold scores.
  destruct (first_column trace) as [start|] eqn:H1; cbn [bind];
    [|discriminate].
  destruct (mapM (embedding_row self) start) as [ws|] eqn:H2; cbn [bind];
    [|discriminate].
  destruct (mapM _ (rest_columns trace)) as [wr|] eqn:H3; cbn [bind];
    [|discriminate].
  intros _.
  apply mapM_inv in H1.
  apply (mapM_Ok_Forall _ (in_table self)) in H2;
    [|intros; eapply embedding_row_inv; eassumption].
  apply (mapM_Ok_Forall _ (Forall (in_table self))) in H3;
    [|intros x y Hxy; eapply mapM_Ok_Forall; [|exact Hxy];
      intros; eapply embedding_row_inv; eassumption].
  unfold rest_columns in H3. clear wr ws.
  revert H2 H3. induction H1 as [|row s trace start Hrow _ IH];
    simpl; intros H2 H3; [constructor|].
  inversion H2; subst. inversion H3; subst.
  constructor; [|apply IH; assumption].
  destruct row as [|v row]; [discriminate|].
  injection Hrow as ->. simpl in *. split; [discriminate|].
  constructor; assumption.
Qed.

Lemma zip_with_Ok {A} (f : A -> A -> result A) (h : A -> A -> A) a b :
  Forall2 (fun x y => f x y = Ok (h x y)) a b ->
  zip_with f a b = Ok (map (fun xy => h (fst xy) (snd xy)) (combine a b)).
Proof.
  induction 1 as [|x y a b Hxy _ IH]; simpl; [reflexivity|].
  now rewrite Hxy, IH.
Qed.

Lemma combine_app {A B} (a a' : list A) (b b' : list B) :
  length a = length b ->
  combine (a ++ a') (b ++ b') = combine a b ++ combine a' b'.
Proof.
  revert b; induction a as [|x a IH]; intros [|y b]; simpl;
    try discriminate; auto.
  intros H. f_equal. apply IH. lia.
Qed.

Lemma elementwise_Ok (f : R -> R -> R) (a b : list (list R)) :
  Forall2 (fun x y => length x = length y) a b ->
  elementwise f a b
  = Ok (map (fun ab => map (fun xd => f (fst xd) (snd xd))
                           (combine (fst ab) (snd ab)))
            (combine a b)).
Proof.
  intros H. unfold elementwise.
  apply (zip_with_Ok _ (fun x y => map (fun xd => f (fst xd) (snd xd))
                                       (combine x y))).
  induction H as [|x y a b Hxy _ IH]; constructor; [|exact IH].
  apply (zip_with_Ok _ f). clear IH.
  revert y Hxy. induction x as [|u x IHx]; intros [|v y] Hl;
    try discriminate; constructor; auto.
Qed.

Lemma concat_row_scores self trace :
  concat (map (row_scores self) trace)
  = map (fun uv => dot (emb self (fst uv)) (emb self (snd uv)))
        (pairs trace).
Proof.
  unfold pairs. rewrite flat_map_concat_map, concat_map, map_map.
  f_equal. apply map_ext. intros row. unfold row_scores.
  now rewrite map_map.
Qed.

Lemma mean_opp (l : list R) : mean (map Ropp l) = (- mean l)%R.
Proof.
  unfold mean. rewrite length_map.
  replace (fold_right Rplus 0%R (map Ropp l))
    with (- fold_right Rplus 0 l)%R.
  - unfold Rdiv. ring.
  - induction l as [|x l IH]; simpl; [ring|]. rewrite <- IH. ring.
Qed.

Lemma squared_errors_flat self (pos : list (list Z)) dists :
  same_shape pos dists ->
  concat (map (fun ab => map (fun xd => (sigmoid (fst xd)
                                         - dist_measure (c self) (snd xd))
                                        ^ 2)%R
                             (combine (fst ab) (snd ab)))
              (combine (map (row_scores self) pos) dists))
  = map (fun pd => (similarity self (fst pd)
                    - c self / (c self + snd pd)) ^ 2)%R
        (combine (pairs pos) (concat dists)).
Proof.
  induction 1 as [|row d pos dists Hrow _ IH]; [reflexivity|].
  change (pairs (row :: pos))
    with (map (pair (hd 0 row)) (tl row) ++ pairs pos).
  cbn [map combine concat fst snd].
  rewrite combine_app by (now rewrite length_map).
  rewrite map_app, <- IH. f_equal.
  unfold row_scores. clear IH.
  revert d Hrow. generalize (hd 0 row) as u.
  induction (tl row) as [|v rest IHr]; intros u [|x d] Hl;
    cbn [map combine]; try discriminate; [reflexivity|].
  f_equal. apply IHr. simpl in Hl. lia.
Qed.

(** [loss] returns, and its value is the sum of the two terms. *)
Lemma loss_closed_form self pos dists neg :
  valid_trace self pos -> valid_trace self neg -> same_shape pos dists ->
  snd (loss self pos dists neg)
  = Ok (positive_term self pos dists + negative_term self neg)%R.
Proof.
  intros Hp Hn Hs. unfold loss. cbn [snd].
  rewrite (scores_Ok self pos Hp), (scores_Ok self neg Hn). cbn [bind].
  rewrite elementwise_Ok.
  2:{ clear Hp. induction Hs as [|row d pos' dists' Hrow _ IH];
        cbn [map]; constructor; [|exact IH].
      unfold row_scores. now rewrite length_map. }
  cbn [bind]. f_equal. f_equal.
  - unfold mean2, sum2, numel, positive_term, mean.
    now rewrite (squared_errors_flat self pos dists Hs).
  - unfold mean2, sum2, numel, negative_term.
    rewrite <- concat_map, concat_row_scores, map_map.
    fold (mean (map (fun x => ln (1 - sigmoid (dot (emb self (fst x))
                                                   (emb self (snd x))) + e))
                    (pairs neg))).
    rewrite <- mean_opp, map_map. reflexivity.
Qed.

End LossFacts.

(** ** Claims about the loss *)

Module LossClaims.
Import Node2vec LossSpec LossFacts.

Lemma e_pos : (0 < e)%R.
Proof. unfold e. apply Rdiv_lt_0_compat; [lra | apply pow_lt; lra]. Qed.

Lemma in_sentinel_rows pos_trace row :
  In row (sentinel_rows pos_trace) <-> In row pos_trace /\ In (-1) row.
Proof.
  unfold sentinel_rows. rewrite filter_In, existsb_exists.
  split; intros [Hin Hs]; split; auto.
  - destruct Hs as (v & Hv & Heq). apply Z.eqb_eq in Heq. now subst.
  - exists (-1). split; [exact Hs | reflexivity].
Qed.

(** A row with the sentinel makes the lookups of the positive term fail. *)
Lemma loss_raises_on_sentinel self pos dists neg row :
  In row pos -> In (-1) row ->
  snd (loss self pos dists neg) = Raise IndexError.
Proof.
  intros Hrow Hs. unfold loss. cbn [snd].
  destruct (scores self pos) as [out|err] eqn:Hsc; cbn [bind].
  - apply scores_Ok_valid in Hsc. unfold valid_trace in Hsc.
    rewrite Forall_forall in Hsc. destruct (Hsc row Hrow) as [_ Hids].
    rewrite Forall_forall in Hids. destruct (Hids (-1) Hs). lia.
  - now rewrite (scores_error _ _ _ Hsc).
Qed.

(** The ring model reads the zero vector for every id of its table. *)
Lemma ring_similarity u v :
  0 <= u < 5 -> 0 <= v < 5 ->
  similarity Ring.model (u, v) = (1 / 2)%R.
Proof.
  intros Hu Hv. unfold similarity, emb. cbn [fst snd].
  assert (Hrow : forall i, 0 <= i < 5 ->
            nth (Z.to_nat i) (embedding Ring.model) [] = [0; 0]%R).
  { intros i Hi. assert (Hn : (Z.to_nat i < 5)%nat) by lia.
    destruct (Z.to_nat i) as [|[|[|[|[|n]]]]]; try reflexivity. lia. }
  rewrite (Hrow u Hu), (Hrow v Hv). unfold dot. cbn.
  replace (0 * 0 + (0 * 0 + 0))%R with 0%R by ring. apply sigmoid_0.
Qed.

Lemma ring_valid_trace trace :
  Forall (fun row => row <> [] /\ Forall (fun v => 0 <= v < 5) row) trace ->
  valid_trace Ring.model trace.
Proof.
  intros H. eapply Forall_impl; [|exact H].
  intros row [Hne Hids]. split; [exact Hne|].
  eapply Forall_impl; [|exact Hids]. intros v Hv.
  unfold in_table. simpl in *. lia.
Qed.

Local Ltac ring_trace :=
  apply ring_valid_trace; repeat constructor; try discriminate; lia.

(** C2. A row of a dead-end walk is identified but not excluded: on the
    positive trace with the rows (0, 1, 2) and (1, 2, -1), [loss] prints
    the row (1, 2, -1) and then raises, while on the trace with the row
    (0, 1, 2) alone it has a value. *)
Theorem loss_sentinel_not_excluded :
  fst (loss Ring.model [[0; 1; 2]; [1; 2; -1]] [[1; 2]; [2; 3]]%R
            [[0; 0; 1]]) = [[1; 2; -1]] /\
  snd (loss Ring.model [[0; 1; 2]; [1; 2; -1]] [[1; 2]; [2; 3]]%R
            [[0; 0; 1]]) = Raise IndexError /\
  snd (loss Ring.model [[0; 1; 2]; [1; 2; -1]] [[1; 2]; [2; 3]]%R
            [[0; 0; 1]])
  <> snd (loss Ring.model [[0; 1; 2]] [[1; 2]]%R [[0; 0; 1]]).
Proof.
  split; [reflexivity|].
  rewrite (loss_raises_on_sentinel _ _ _ _ [1; 2; -1]);
    [|simpl; tauto|simpl; tauto].
  split; [reflexivity|].
  rewrite loss_closed_form;
    [discriminate | ring_trace | ring_trace | repeat constructor].
Qed.

(** The rows that [loss] prints are the rows with the sentinel id -1, and
    one such row is enough for the embedding lookup, and with it [loss], to
    raise an [IndexError]. *)
Lemma loss_sentinel_rows self pos dists neg row :
  In row pos -> In (-1) row ->
  In row (fst (loss self pos dists neg)) /\
  (forall r, In r (fst (loss self pos dists neg)) ->
             In r pos /\ In (-1) r) /\
  snd (loss self pos dists neg) = Raise IndexError.
Proof.
  intros Hrow Hs. split; [|split].
  - apply in_sentinel_rows. auto.
  - intros r Hr. apply in_sentinel_rows. exact Hr.
  - eapply loss_raises_on_sentinel; eassumption.
Qed.

(** C4, as stated, fails: the negative term is not the mean of
    [- log(1 - sigmoid(similarity) + e)] with the similarity already a
    sigmoid; on the ring model, where every similarity is 1/2, the two
    differ. *)
Lemma loss_negative_term_not_double_sigmoid :
  snd (loss Ring.model [[0; 1; 2]] [[1; 2]]%R [[0; 0; 1]])
  <> Ok (positive_term Ring.model [[0; 1; 2]]%Z [[1; 2]]
         + negative_term_sigmoid_of_similarity Ring.model [[0; 0; 1]]%Z)%R.
Proof.
  rewrite loss_closed_form;
    [| ring_trace | ring_trace | repeat constructor].
  intros H. injection H as H. apply Rplus_eq_reg_l in H.
  unfold negative_term, negative_term_sigmoid_of_similarity, pairs, mean
    in H.
  cbn [flat_map map hd tl app fold_right length] in H.
  rewrite !ring_similarity in H by lia.
  pose proof e_pos as He.
  pose proof (sigmoid_gt_half (1 / 2)) as Hs.
  pose proof (sigmoid_range (1 / 2)) as Hr.
  assert (Hln : (ln (1 - sigmoid (1 / 2) + e) < ln (1 - 1 / 2 + e))%R)
    by (apply ln_increasing; lra).
  simpl INR in H. lra.
Qed.

(** C4, amended. The similarity of a pair is the sigmoid of the dot product
    of the embeddings of [start] and [rest[i]]; the negative term is the
    mean over all negative pairs of [- log(1 - similarity + e)] with
    [e = 1e-15], the sigmoid being applied once; and the value returned is
    the positive term plus the negative term, unweighted. *)
Theorem loss_formula self pos dists neg :
  valid_trace self pos -> valid_trace self neg -> same_shape pos dists ->
  exists pos_loss neg_loss,
    snd (loss self pos dists neg) = Ok (pos_loss + neg_loss)%R /\
    pos_loss
    = mean (map (fun pd => (similarity self (fst pd)
                            - c self / (c self + snd pd)) ^ 2)%R
                (combine (pairs pos) (concat dists))) /\
    neg_loss
    = mean (map (fun uv => (- ln (1 - similarity self uv + 1 / 10 ^ 15))%R)
                (pairs neg)) /\
    forall u v,
      similarity self (u, v)
      = sigmoid (dot (nth (Z.to_nat u) (embedding self) [])
                     (nth (Z.to_nat v) (embedding self) [])).
Proof.
  intros Hp Hn Hs.
  exists (positive_term self pos dists), (negative_term self neg).
  split; [apply loss_closed_form; assumption|].
  repeat split.
Qed.

Lemma loss_formula_witness :
  exists pos_loss neg_loss,
    snd (loss Ring.model [[0; 1; 2]] [[1; 2]]%R [[0; 0; 1]])
    = Ok (pos_loss + neg_loss)%R /\
    neg_loss
    = mean (map (fun uv => (- ln (1 - similarity Ring.model uv
                                  + 1 / 10 ^ 15))%R)
                [(0, 0); (0, 1)]).
Proof.
  destruct (loss_formula Ring.model [[0; 1; 2]] [[1; 2]]%R [[0; 0; 1]])
    as (pos_loss & neg_loss & H1 & _ & H3 & _).
  - apply ring_valid_trace; repeat constructor; try discriminate; lia.
  - apply ring_valid_trace; repeat constructor; try discriminate; lia.
  - repeat constructor.
  - exists pos_loss, neg_loss. split; [exact H1 | exact H3].
Defined.

End LossClaims.

(** ** Claims about the trainer *)

Module TrainClaims.
Import Node2vecModel.

Lemma probe_epochs_body B self epochs st i :
  probe_epochs (epoch_body B self epochs st i)
  = probe_epochs st ++ (if probes self epochs then [i + 1] else []).
Proof.
  unfold epoch_body, probes, probe_epochs.
  destruct (_train_step B (current st) (lr st)) as [m loss].
  cbn [printed]. rewrite flat_map_app. f_equal.
  destruct (0 <? eval_steps self); [|reflexivity].
  destruct (epochs mod eval_steps self =? 0); [|reflexivity].
  destruct (eval_set self); reflexivity.
Qed.

Lemma probe_epochs_loop B self epochs (l : list Z) st :
  probe_epochs (fold_left (epoch_body B self epochs) l st)
  = probe_epochs st
    ++ (if probes self epochs then map (fun i => i + 1) l else []).
Proof.
  revert st; induction l as [|i l IH]; intros st; cbn [fold_left map].
  - destruct (probes self epochs); now rewrite app_nil_r.
  - rewrite IH, probe_epochs_body, <- app_assoc.
    destruct (probes self epochs); reflexivity.
Qed.

(** The probe runs in every epoch or in none. *)
Lemma probe_epochs_train B self epochs batch_size learning_rate :
  probe_epochs (train B self epochs batch_size learning_rate)
  = if probes self epochs
    then map (fun i => i + 1) (map Z.of_nat (seq 0 (Z.to_nat epochs)))
    else [].
Proof. unfold train. now rewrite probe_epochs_loop. Qed.

(** C3. With [eval_steps = 2] and an eval set, a run of 4 epochs probes in
    every epoch, 1 to 4, where the interval asks for epochs 2 and 4 only;
    and a run of 3 epochs never probes, where the interval asks for
    epoch 2. *)
Theorem train_probe_ignores_epoch_index B m gr sparse es dev batch_size rate :
  let self := {| model := m; g := gr; use_sparse := sparse; eval_steps := 2;
                 eval_set := Some es; device := dev |} in
  probe_epochs (train B self 4 batch_size rate) = [1; 2; 3; 4] /\
  probe_epochs (train B self 3 batch_size rate) = [].
Proof.
  intros self. rewrite !probe_epochs_train. split; reflexivity.
Qed.

End TrainClaims.

(** ** Claims about the decoder and the heuristic *)

Module RoutingClaims.
Import Routing.




Lemma node_to_idx_from_bound i nodes x j :
  node_to_idx_from i nodes x = Some j -> (i <= j < i + length nodes)%nat.
Proof.
  revert i; induction nodes as [|v nodes IH]; intros i; simpl;
    [discriminate|].
  destruct (node_to_idx_from (S i) nodes x) as [k|] eqn:Hk.
  - intros H; injection H as <-. apply IH in Hk. lia.
  - destruct (v =? x); [|discriminate].
    intros H; injection H as <-. lia.
Qed.

Lemma node_to_idx_from_In i nodes x :
  In x nodes -> exists j, node_to_idx_from i nodes x = Some j.
Proof.
  revert i; induction nodes as [|v nodes IH]; intros i; simpl; [tauto|].
  intros Hin.
  destruct (node_to_idx_from (S i) nodes x) as [k|] eqn:Hk; [eauto|].
  destruct Hin as [-> | Hin].
  - rewrite Z.eqb_refl. eauto.
  - destruct (IH (S i) Hin) as [j Hj]. congruence.
Qed.

(** A node of the graph has an index, and the embedding has its row. *)
Lemma row_of_node nodes embedding x :
  In x nodes -> (length nodes <= length embedding)%nat ->
  exists i w, node_to_idx nodes x = Ok i /\ row embedding i = Ok w.
Proof.
  intros Hin Hlen. unfold node_to_idx, row.
  destruct (node_to_idx_from_In 0 nodes x Hin) as [i Hi]. rewrite Hi.
  apply node_to_idx_from_bound in Hi.
  destruct (nth_error embedding i) as [w|] eqn:Hw.
  - exists i, w. now rewrite Hw.
  - apply nth_error_None in Hw. lia.
Qed.

(** The decoded value for a similarity of [0, 1]. *)
Lemma decode_range c s :
  (0 <= c)%R -> (0 <= s <= 1)%R ->
  exists v, decode c s = Ok v /\ (0 <= v)%R /\
            (s = 0%R -> v = 0%R) /\
            (s <> 0%R -> v = (c * (1 - s) / s)%R).
Proof.
  intros Hc Hs. unfold decode, div.
  destruct (Req_dec_T s 0) as [-> | Hne].
  - exists 0%R. repeat split; [lra | tauto].
  - exists (c * (1 - s) / s)%R. repeat split; [|tauto].
    apply Rmult_le_pos; [apply Rmult_le_pos; lra|].
    left. apply Rinv_0_lt_compat. lra.
Qed.

(** C8. [dot_heuristic] returns no value: whatever the nodes, the
    embedding and the constant are, reading [np.sigmoid] raises an
    [AttributeError], before any embedding is looked up and before the
    guard. *)
Theorem dot_heuristic_raises nodes embedding (init_c : R) x y :
  dot_heuristic nodes embedding init_c x y = Throw AttributeError.
Proof. unfold dot_heuristic, np_sigmoid. reflexivity. Qed.

End RoutingClaims.

Module Routing64Claims.
Import PrimFloat.


End Routing64Claims.

(** ** Claims about the constructor *)

Module InitClaims.
Import Node2vec.

(** C9, as stated, fails: a zero embedding dimension is accepted. *)
Lemma init_accepts_zero_dimension :
  exists self,
    init (fun _ _ => 0%R) Ring.graph 0 3 1 1 1 3 2 true None 10 = Ok self /\
    embedding_dim self = 0 /\
    embedding self = [[]; []; []; []; []].
Proof. eexists. repeat split. Qed.

(** What the constructor accepts: it checks nothing but the assertion, and
    the table is allocated for any sizes that are not negative. *)
Lemma init_accepts w g dim L p q walks W negs sparse name c0 :
  W <= L -> 0 <= dim -> 0 <= num_nodes g + 1 ->
  exists self, init w g dim L p q walks W negs sparse name c0 = Ok self.
Proof.
  intros HW Hdim HN. unfold init, nn_Embedding.
  destruct (Z.geb_spec L W); [|lia]. cbn [negb].
  destruct (Z.ltb_spec (num_nodes g + 1) 0); [lia|].
  destruct (Z.ltb_spec dim 0); [lia|]. cbn [orb bind]. eauto.
Qed.

(** C9, amended. Constructing the engine with [walk_length < window_size]
    fails at construction with an [AssertionError]. *)
Theorem init_rejects_short_walk w g dim L p q walks W negs sparse name c0 :
  L < W ->
  init w g dim L p q walks W negs sparse name c0 = Raise AssertionError.
Proof.
  intros H. unfold init.
  destruct (Z.geb_spec L W); [lia | reflexivity].
Qed.

Lemma init_rejects_short_walk_witness :
  init (fun _ _ => 0%R) Ring.graph 2 3 1 1 1 5 2 true None 10
  = Raise AssertionError.
Proof.
  apply init_rejects_short_walk. lia.
Defined.

End InitClaims.

(** ** The constructor, the sampler and the loader together *)

Module EngineFacts.
Import Tensor TensorFacts Node2vec SampleSpec SampleFacts LossSpec LossFacts.
Import Engine.

(** X1. A model that [__init__] returns has a table with one row per node
    and one more, every row of the embedding dimension, and its window fits
    its walk. *)
Theorem init_invariant w gr dim L p0 q0 walks W negs sparse name c0 self :
  init w gr dim L p0 q0 walks W negs sparse name c0 = Ok self ->
  N self = num_nodes gr /\
  Z.of_nat (length (embedding self)) = num_nodes gr + 1 /\
  Forall (fun row => Z.of_nat (length row) = dim) (embedding self) /\
  window_size self <= walk_length self /\
  0 <= dim /\ 0 <= num_nodes gr + 1.
Proof.
  unfold init, nn_Embedding.
  destruct (Z.geb_spec L W) as [HW|HW]; cbn [negb]; [|discriminate].
  destruct (Z.ltb_spec (num_nodes gr + 1) 0) as [HN|HN]; cbn [orb bind];
    [discriminate|].
  destruct (Z.ltb_spec dim 0) as [Hd|Hd]; cbn [bind]; [discriminate|].
  intros H. injection H as <-. cbn.
  rewrite length_map, length_seq. repeat split; try lia.
  apply Forall_map, Forall_forall. intros i _.
  rewrite length_map, length_seq. lia.
Qed.

Lemma init_invariant_witness :
  N Ring.model = 4 /\ Z.of_nat (length (embedding Ring.model)) = 4 + 1.
Proof.
  destruct (init_invariant (fun _ _ => 0%R) Ring.graph 2 3 1 1 1 3 2 true
              None 10 Ring.model RingFacts.init_model)
    as (H1 & H2 & _).
  split; [exact H1 | exact H2].
Defined.

Lemma Forall2_concat {A B} (P : A -> B -> Prop) xs ys :
  Forall2 (Forall2 P) xs ys -> Forall2 P (concat xs) (concat ys).
Proof.
  induction 1 as [|x y xs ys Hxy _ IH]; simpl; [constructor|].
  apply Forall2_app; assumption.
Qed.

Lemma Forall2_same_length {A B} (P : A -> Prop) (Q : B -> Prop) xs ys :
  length xs = length ys -> Forall P xs -> Forall Q ys ->
  Forall2 (fun x y => P x /\ Q y) xs ys.
Proof.
  revert ys; induction xs as [|x xs IH]; intros [|y ys] Hl Hx Hy;
    try discriminate; constructor.
  - inversion Hx; inversion Hy; auto.
  - inversion Hx; inversion Hy; subst. apply IH; auto.
Qed.

Lemma Forall2_map_both {A B C D} (P : C -> D -> Prop)
    (f : A -> C) (h : B -> D) xs ys :
  Forall2 (fun x y => P (f x) (h y)) xs ys -> Forall2 P (map f xs) (map h ys).
Proof. induction 1; simpl; constructor; auto. Qed.

(** The windows of the walks and of their edge lengths pair up: as many
    rows, and a distance for every node after the first. *)
Lemma windows_same_shape O self batch :
  well_configured O self ->
  same_shape (windows (Z.to_nat (window_size self)) (walks O self batch))
             (windows (Z.to_nat (window_size self - 1))
                      (step_lengths O self batch)).
Proof.
  intros Hwc.
  destruct (walks_shape O self batch Hwc) as (Hw1 & Hw2 & _).
  destruct (step_lengths_shape O self batch Hwc) as (Hd1 & Hd2).
  destruct Hwc as [_ HW _ _ _].
  unfold same_shape, windows. apply Forall2_concat, Forall2_map_both.
  eapply Forall2_impl;
    [|apply (Forall2_same_length _ _ _ _ (eq_trans Hw1 (eq_sym Hd1)) Hw2 Hd2)].
  intros walk d [Hwalk Hd]. cbv beta in Hwalk, Hd.
  eapply Forall2_impl;
    [|apply (Forall2_same_length
               (fun w => length w = Z.to_nat (window_size self))
               (fun x => length x = Z.to_nat (window_size self - 1)));
      [rewrite !length_unfold1; lia
      |apply unfold1_width|apply unfold1_width]].
  intros w x [Hlw Hlx]. cbv beta in Hlw, Hlx.
  destruct w as [|v w]; simpl in *; lia.
Qed.

(** X2. [sample] returns positive traces and distances of matching shape:
    the same number of rows, [window_size] ids and [window_size - 1]
    distances per row; and there are
    [num_walks * len(batch) * (walk_length - window_size + 2)] rows. *)
Theorem sample_shapes O self batch :
  well_configured O self ->
  exists pos dists neg,
    sample O self batch = Ok (pos, dists, neg) /\
    length pos = length dists /\
    Forall (fun row => Z.of_nat (length row) = window_size self) pos /\
    Forall (fun d => Z.of_nat (length d) = window_size self - 1) dists /\
    Z.of_nat (length pos)
    = num_walks self * Z.of_nat (length batch)
      * (walk_length self - window_size self + 2).
Proof.
  intros Hwc. eexists _, _, _.
  split; [apply sample_Ok; exact Hwc|].
  pose proof (windows_same_shape O self batch Hwc) as Hs.
  destruct (walks_shape O self batch Hwc) as (Hw1 & Hw2 & _).
  destruct Hwc as [_ HW Hnw _ _].
  split; [exact (Forall2_length Hs)|].
  split; [|split].
  - eapply Forall_impl; [|apply windows_width]. simpl; intros; lia.
  - eapply Forall_impl; [|apply windows_width]. simpl; intros; lia.
  - rewrite (length_windows _ (Z.to_nat (walk_length self + 1))
                            (walks O self batch))
      by (eapply Forall_impl; [|exact Hw2]; simpl; intros; lia).
    rewrite Hw1. unfold seeds. rewrite length_concat_repeat.
    rewrite !Nat2Z.inj_mul, Z2Nat.id by lia.
    rewrite Nat2Z.inj_sub by lia. rewrite Nat2Z.inj_add.
    rewrite !Z2Nat.id by lia. simpl Z.of_nat. ring.
Qed.

Lemma sample_shapes_witness :
  exists pos dists neg,
    sample Ring.oracle Ring.model [0] = Ok (pos, dists, neg) /\
    length pos = length dists /\
    Z.of_nat (length pos) = 1 * 1 * (3 - 3 + 2).
Proof.
  destruct (sample_shapes Ring.oracle Ring.model [0]
              RingFacts.model_well_configured)
    as (pos & dists & neg & H1 & H2 & _ & _ & H5).
  exists pos, dists, neg. repeat split; assumption.
Defined.

(** *** The loader *)

Lemma chunks_cover {A} (n m : nat) (l : list A) :
  (length l <= m * n)%nat ->
  concat (map (fun k => firstn n (skipn (k * n) l)) (seq 0 m)) = l.
Proof.
  revert l; induction m as [|m IH]; intros l Hl.
  - destruct l; [reflexivity | simpl in Hl; lia].
  - cbn [seq map concat]. rewrite <- seq_shift, map_map.
    rewrite (map_ext _ (fun k => firstn n (skipn (k * n) (skipn n l)))).
    + rewrite IH by (rewrite length_skipn; lia).
      apply firstn_skipn.
    + intros k. rewrite skipn_skipn.
      replace (k * n + n)%nat with (S k * n)%nat by lia. reflexivity.
Qed.

Lemma ceil_div_bounds (len n : nat) :
  (0 < n)%nat ->
  (len <= (len + n - 1) / n * n)%nat /\
  (forall k, (k < (len + n - 1) / n)%nat -> (k * n < len)%nat).
Proof.
  intros Hn.
  pose proof (Nat.div_mod_eq (len + n - 1) n) as Hdm.
  pose proof (Nat.mod_upper_bound (len + n - 1) n) as Hmod.
  split; [nia|]. intros k Hk. nia.
Qed.

Lemma batches_concat {A} (n : nat) (l : list A) :
  (0 < n)%nat -> concat (batches n l) = l.
Proof.
  intros Hn. unfold batches. apply chunks_cover.
  apply ceil_div_bounds. exact Hn.
Qed.

Lemma batches_sizes {A} (n : nat) (l : list A) :
  (0 < n)%nat ->
  Forall (fun b => (0 < length b <= n)%nat) (batches n l).
Proof.
  intros Hn. unfold batches. apply Forall_map, Forall_forall.
  intros k Hk. apply in_seq in Hk.
  destruct (ceil_div_bounds (length l) n Hn) as [_ Hlt].
  specialize (Hlt k ltac:(lia)).
  rewrite length_firstn, length_skipn. lia.
Qed.

Lemma loader_refuses self batch_size :
  N self <= 0 \/ batch_size <= 0 ->
  loader self batch_size = Throw ValueError.
Proof.
  intros H. unfold loader.
  destruct (Z.leb_spec (N self) 0); [reflexivity|].
  destruct (Z.leb_spec batch_size 0); [reflexivity | lia].
Qed.

Lemma loader_returns self batch_size :
  0 < N self -> 0 < batch_size ->
  loader self batch_size
  = Return {| dataset := arange (N self);
              loader_batch_size := Z.to_nat batch_size |}.
Proof.
  intros HN Hb. unfold loader.
  destruct (Z.leb_spec (N self) 0); [lia|].
  destruct (Z.leb_spec batch_size 0); [lia | reflexivity].
Qed.

Lemma pass_in_range shuffle0 n (size : nat) :
  (0 < size)%nat ->
  Permutation (arange n) (shuffle0 (arange n)) ->
  Forall (Forall (fun v => 0 <= v < n))
         (pass shuffle0 {| dataset := arange n;
                           loader_batch_size := size |}).
Proof.
  intros Hsize Hperm. unfold pass. cbn [dataset loader_batch_size].
  apply Forall_forall. intros b Hin.
  apply Forall_forall. intros v Hv.
  assert (Hcat : In v (concat (batches size (shuffle0 (arange n)))))
    by (apply in_concat; eauto).
  rewrite batches_concat in Hcat by exact Hsize.
  apply (Permutation_in _ (Permutation_sym Hperm)) in Hcat.
  pose proof (SampleClaims.arange_range n) as Hr.
  rewrite Forall_forall in Hr. auto.
Qed.

(** X3. For a graph with a node and a positive batch size the loader is
    built, and a pass over it cuts the shuffled node ids into consecutive
    batches: every node id is in exactly one batch and occurs once there,
    no batch is empty or larger than [batch_size], and every id handed to
    [sample] is a node id of [0, N). *)
Theorem loader_partitions shuffle self batch_size :
  0 < N self ->
  0 < batch_size ->
  Permutation (arange (N self)) (shuffle (arange (N self))) ->
  exists dl,
    loader self batch_size = Return dl /\
    concat (pass shuffle dl) = shuffle (arange (N self)) /\
    Permutation (arange (N self)) (concat (pass shuffle dl)) /\
    Forall (fun b => (0 < length b)%nat /\ Z.of_nat (length b) <= batch_size)
           (pass shuffle dl) /\
    Forall (Forall (fun v => 0 <= v < N self)) (pass shuffle dl).
Proof.
  intros HN Hb Hperm. eexists.
  split; [apply loader_returns; assumption|].
  assert (Hn : (0 < Z.to_nat batch_size)%nat) by lia.
  pose proof (batches_concat (Z.to_nat batch_size)
                (shuffle (arange (N self))) Hn) as Hc.
  unfold pass at 1 2 3. cbn [dataset loader_batch_size].
  split; [exact Hc|]. split; [now rewrite Hc|]. split.
  - eapply Forall_impl; [|apply batches_sizes; exact Hn].
    simpl. intros b Hlen. lia.
  - apply pass_in_range; assumption.
Qed.

Lemma loader_partitions_witness :
  exists dl,
    loader Ring.model 3 = Return dl /\
    concat (pass (@rev Z) dl) = [3; 2; 1; 0] /\
    Forall (Forall (fun v => 0 <= v < 4)) (pass (@rev Z) dl).
Proof.
  destruct (loader_partitions (@rev Z) Ring.model 3)
    as (dl & H1 & H2 & _ & _ & H5).
  - simpl. lia.
  - lia.
  - apply Permutation_rev.
  - exists dl. repeat split; assumption.
Defined.

(** *** From the sampler to the loss *)

Lemma windows_Forall {A} (P : A -> Prop) (size : nat) (t : list (list A)) :
  Forall (Forall P) t -> Forall (Forall P) (windows size t).
Proof.
  intros Ht. apply Forall_forall. intros w Hw.
  apply SampleClaims.in_windows in Hw.
  destruct Hw as (row & i & Hrow & _ & ->).
  apply Forall_forall. intros v Hv. apply SampleClaims.in_slice in Hv.
  rewrite Forall_forall in Ht. specialize (Ht row Hrow).
  rewrite Forall_forall in Ht. auto.
Qed.

Lemma neg_rows_in_range O self batch :
  well_configured O self ->
  Forall (fun v => 0 <= v < N self) batch ->
  Forall (Forall (fun v => 0 <= v < N self)) (neg_rows O self batch).
Proof.
  intros Hwc Hbatch.
  pose proof (SampleClaims.neg_rows_structure O self batch Hwc) as Hrows.
  apply Forall_forall. intros row Hrow.
  destruct (SampleClaims.Forall2_in_right Hrows Hrow)
    as (start & Hstart & Hhd & _ & Htl).
  assert (Hs : 0 <= start < N self).
  { unfold neg_seeds, seeds in Hstart.
    apply in_concat_repeat, in_concat_repeat in Hstart.
    rewrite Forall_forall in Hbatch. auto. }
  destruct row as [|v row]; simpl in *; constructor; [lia | exact Htl].
Qed.

Lemma in_range_valid self (size : nat) trace :
  (0 < size)%nat ->
  Z.of_nat (length (embedding self)) = N self + 1 ->
  Forall (fun row => length row = size) trace ->
  Forall (Forall (fun v => 0 <= v < N self)) trace ->
  valid_trace self trace.
Proof.
  intros Hsize Htable Hlen Hids. unfold valid_trace.
  apply Forall_forall. intros row Hrow.
  rewrite Forall_forall in Hlen, Hids. split.
  - specialize (Hlen row Hrow). destruct row; [simpl in Hlen; lia|].
    discriminate.
  - eapply Forall_impl; [|exact (Hids row Hrow)].
    intros v Hv. unfold in_table. simpl in Hv. lia.
Qed.

Lemma no_sentinel_rows (pos : list (list Z)) :
  Forall (Forall (fun v => 0 <= v)) pos -> sentinel_rows pos = [].
Proof.
  induction 1 as [|row pos Hrow _ IH]; [reflexivity|].
  unfold sentinel_rows in *. cbn [filter].
  replace (existsb (fun v => v =? -1) row) with false; [exact IH|].
  symmetry. apply not_true_is_false. intros Hex.
  apply existsb_exists in Hex. destruct Hex as (v & Hv & Heq).
  apply Z.eqb_eq in Heq. rewrite Forall_forall in Hrow.
  specialize (Hrow v Hv). simpl in Hrow. lia.
Qed.

(** What [loss] makes of what [sample] returns, for a ready model. *)
Lemma loss_of_sample O self batch :
  ready O self ->
  Forall (fun v => 0 <= v < N self) batch ->
  exists pos dists neg,
    sample O self batch = Ok (pos, dists, neg) /\
    loss self pos dists neg
    = ([], Ok (positive_term self pos dists + negative_term self neg)%R).
Proof.
  intros [Hwc Htable Hwalks] Hbatch. eexists _, _, _.
  split; [apply sample_Ok; exact Hwc|].
  assert (HW : (0 < Z.to_nat (window_size self))%nat)
    by (destruct Hwc as [_ HW _ _ _]; lia).
  assert (Hpos : Forall (Forall (fun v => 0 <= v < N self))
                        (windows (Z.to_nat (window_size self))
                                 (walks O self batch))).
  { apply windows_Forall, Hwalks.
    apply Forall_forall. intros v Hv. unfold seeds in Hv.
    apply in_concat_repeat in Hv. rewrite Forall_forall in Hbatch. auto. }
  rewrite (surjective_pairing (loss _ _ _ _)). f_equal.
  - unfold loss. cbn [fst]. apply no_sentinel_rows.
    eapply Forall_impl; [|exact Hpos]. intros row Hrow.
    eapply Forall_impl; [|exact Hrow]. simpl; intros; lia.
  - apply loss_closed_form.
    + eapply in_range_valid; [exact HW | exact Htable | apply windows_width
                             | exact Hpos].
    + eapply in_range_valid; [exact HW | exact Htable | apply windows_width|].
      apply windows_Forall, neg_rows_in_range; assumption.
    + apply windows_same_shape. exact Hwc.
Qed.

Lemma ring_ready : ready Ring.oracle Ring.model.
Proof.
  constructor.
  - apply RingFacts.model_well_configured.
  - reflexivity.
  - intros sd Hsd. simpl. unfold Ring.ring_walk. simpl.
    apply Forall_map. eapply Forall_impl; [|exact Hsd].
    intros s0 Hs0. simpl in Hs0.
    constructor; [exact Hs0|].
    repeat constructor; apply Z.mod_pos_bound; lia.
Qed.

(** X4. For a model as the constructor builds it, on a graph where walks
    meet no dead end, and a batch of node ids: [sample] returns, and [loss]
    on what it returns prints no row and returns a value, the positive term
    plus the negative term. *)
Theorem sample_then_loss O self batch :
  ready O self ->
  Forall (fun v => 0 <= v < N self) batch ->
  exists pos dists neg value,
    sample O self batch = Ok (pos, dists, neg) /\
    loss self pos dists neg = ([], Ok value) /\
    value = (positive_term self pos dists + negative_term self neg)%R.
Proof.
  intros Hready Hbatch.
  destruct (loss_of_sample O self batch Hready Hbatch)
    as (pos & dists & neg & Hs & Hl).
  exists pos, dists, neg. eexists. repeat split; eassumption.
Qed.

Lemma sample_then_loss_witness :
  exists pos dists neg value,
    sample Ring.oracle Ring.model [0] = Ok (pos, dists, neg) /\
    loss Ring.model pos dists neg = ([], Ok value).
Proof.
  destruct (sample_then_loss Ring.oracle Ring.model [0] ring_ready)
    as (pos & dists & neg & value & H1 & H2 & _).
  - repeat constructor; simpl; lia.
  - exists pos, dists, neg, value. split; assumption.
Defined.


(** *** Bounds on the loss *)

Lemma sum_ge_lower (l : list R) (a : R) :
  Forall (fun x => a <= x)%R l ->
  (INR (length l) * a <= fold_right Rplus 0 l)%R.
Proof.
  induction 1 as [|x l Hx _ IH]; [simpl; lra|].
  cbn [fold_right length]. rewrite S_INR. lra.
Qed.

Lemma sum_lt_upper (l : list R) (b : R) :
  Forall (fun x => x < b)%R l -> l <> [] ->
  (fold_right Rplus 0 l < INR (length l) * b)%R.
Proof.
  induction 1 as [|x l Hx Hl IH]; [congruence|]. intros _.
  cbn [fold_right length]. rewrite S_INR.
  destruct l as [|y l]; [simpl; lra|].
  specialize (IH ltac:(discriminate)). lra.
Qed.

Lemma mean_ge_lower (l : list R) (a : R) :
  Forall (fun x => a <= x)%R l -> l <> [] -> (a <= mean l)%R.
Proof.
  intros Hl Hne. unfold mean.
  assert (Hn : (0 < INR (length l))%R)
    by (apply lt_0_INR; destruct l; [congruence | simpl; lia]).
  pose proof (sum_ge_lower l a Hl) as Hs.
  apply (Rmult_le_reg_r (INR (length l))); [exact Hn|].
  unfold Rdiv. rewrite Rmult_assoc, Rinv_l by lra. lra.
Qed.

Lemma mean_lt_upper (l : list R) (b : R) :
  Forall (fun x => x < b)%R l -> l <> [] -> (mean l < b)%R.
Proof.
  intros Hl Hne. unfold mean.
  assert (Hn : (0 < INR (length l))%R)
    by (apply lt_0_INR; destruct l; [congruence | simpl; lia]).
  pose proof (sum_lt_upper l b Hl Hne) as Hs.
  apply (Rmult_lt_reg_r (INR (length l))); [exact Hn|].
  unfold Rdiv. rewrite Rmult_assoc, Rinv_l by lra. lra.
Qed.

Lemma mean_gt_lower (l : list R) (a : R) :
  Forall (fun x => a < x)%R l -> l <> [] -> (a < mean l)%R.
Proof.
  intros Hl Hne.
  assert (H : (- mean l < - a)%R); [|lra].
  rewrite <- mean_opp. apply mean_lt_upper.
  - apply Forall_map. eapply Forall_impl; [|exact Hl]. simpl; intros; lra.
  - destruct l; [congruence | discriminate].
Qed.

Lemma same_shape_lengths pos dists :
  same_shape pos dists -> length (pairs pos) = length (concat dists).
Proof.
  induction 1 as [|row d pos dists Hrow _ IH]; [reflexivity|].
  change (pairs (row :: pos))
    with (map (pair (hd 0 row)) (tl row) ++ pairs pos).
  cbn [concat]. rewrite !length_app, length_map. congruence.
Qed.

Lemma dist_measure_range (c0 d : R) :
  (0 < c0)%R -> (0 <= d)%R -> (0 < c0 / (c0 + d) <= 1)%R.
Proof.
  intros Hc Hd. split.
  - apply Rdiv_lt_0_compat; lra.
  - apply (Rmult_le_reg_r (c0 + d)); [lra|].
    unfold Rdiv. rewrite Rmult_assoc, Rinv_l by lra. lra.
Qed.

(** X5. When the constant [c] is positive and no distance is negative, the
    value of the loss on at least one positive and one negative pair lies
    between [- log(1 + e)] and [1 - log(e)]: every squared error is in
    [0, 1), and [e] keeps the argument of every logarithm above [e]. *)
Theorem loss_bounds self pos dists neg :
  valid_trace self pos -> valid_trace self neg -> same_shape pos dists ->
  (0 < c self)%R ->
  Forall (Forall (fun d => 0 <= d)%R) dists ->
  pairs pos <> [] -> pairs neg <> [] ->
  exists v,
    snd (loss self pos dists neg) = Ok v /\
    (- ln (1 + e) < v < 1 - ln e)%R.
Proof.
  intros Hp Hn Hs Hc Hd Hpp Hnp.
  rewrite (loss_closed_form self pos dists neg Hp Hn Hs).
  eexists. split; [reflexivity|].
  pose proof LossClaims.e_pos as He.
  assert (Hne : combine (pairs pos) (concat dists) <> []).
  { pose proof (same_shape_lengths pos dists Hs) as Hl.
    destruct (pairs pos) as [|uv ps]; [congruence|].
    destruct (concat dists) as [|d ds]; [discriminate Hl | discriminate]. }
  assert (Hsq : Forall (fun x => 0 <= x < 1)%R
                  (map (fun pd => (similarity self (fst pd)
                                   - c self / (c self + snd pd)) ^ 2)%R
                       (combine (pairs pos) (concat dists)))).
  { apply Forall_map, Forall_forall. intros [uv d] Hin. cbn [fst snd].
    apply in_combine_r in Hin. apply in_concat in Hin.
    destruct Hin as (row & Hrow & Hdrow).
    rewrite Forall_forall in Hd. specialize (Hd row Hrow).
    rewrite Forall_forall in Hd. specialize (Hd d Hdrow). cbv beta in Hd.
    pose proof (dist_measure_range (c self) d Hc Hd) as Ht.
    pose proof (sigmoid_range
                  (dot (emb self (fst uv)) (emb self (snd uv)))) as Hsg.
    unfold similarity.
    set (s0 := sigmoid _) in *. set (t0 := (c self / (c self + d))%R) in *.
    assert (Hx : (0 < (1 - (s0 - t0)) * (1 + (s0 - t0)))%R)
      by (apply Rmult_lt_0_compat; lra).
    pose proof (pow2_ge_0 (s0 - t0)) as Hx2.
    replace ((s0 - t0) ^ 2)%R with ((s0 - t0) * (s0 - t0))%R in * by ring.
    lra. }
  assert (Hlg : Forall (fun x => - ln (1 + e) < x < - ln e)%R
                  (map (fun uv => (- ln (1 - similarity self uv + e))%R)
                       (pairs neg))).
  { apply Forall_map, Forall_forall. intros uv _.
    pose proof (sigmoid_range
                  (dot (emb self (fst uv)) (emb self (snd uv)))) as Hsg.
    unfold similarity.
    set (s0 := sigmoid _) in *.
    assert (ln e < ln (1 - s0 + e))%R by (apply ln_increasing; lra).
    assert (ln (1 - s0 + e) < ln (1 + e))%R by (apply ln_increasing; lra).
    lra. }
  assert (HP : (0 <= positive_term self pos dists < 1)%R).
  { unfold positive_term. split.
    - apply mean_ge_lower.
      + eapply Forall_impl; [|exact Hsq]. simpl; intros; lra.
      + destruct (combine _ _); [congruence | discriminate].
    - apply mean_lt_upper.
      + eapply Forall_impl; [|exact Hsq]. simpl; intros; lra.
      + destruct (combine _ _); [congruence | discriminate]. }
  assert (HN : (- ln (1 + e) < negative_term self neg < - ln e)%R).
  { unfold negative_term. split.
    - apply mean_gt_lower.
      + eapply Forall_impl; [|exact Hlg]. simpl; intros; lra.
      + destruct (pairs neg); [congruence | discriminate].
    - apply mean_lt_upper.
      + eapply Forall_impl; [|exact Hlg]. simpl; intros; lra.
      + destruct (pairs neg); [congruence | discriminate]. }
  lra.
Qed.

Lemma loss_bounds_witness :
  exists v,
    snd (loss Ring.model [[0; 1; 2]] [[1; 2]]%R [[0; 0; 1]]) = Ok v /\
    (- ln (1 + e) < v < 1 - ln e)%R.
Proof.
  apply loss_bounds.
  - apply LossClaims.ring_valid_trace.
    repeat constructor; try discriminate; lia.
  - apply LossClaims.ring_valid_trace.
    repeat constructor; try discriminate; lia.
  - repeat constructor.
  - simpl. lra.
  - repeat constructor; lra.
  - discriminate.
  - discriminate.
Defined.

(** *** forward *)

(** X6. For ids of the table, [forward] returns the rows that the embedding
    lookup of the loss reads, in the order asked; and without ids it returns
    the whole table. *)
Theorem forward_reads_table self ids :
  Forall (in_table self) ids ->
  forward self (Some ids) = mapM (embedding_row self) ids /\
  forward self (Some ids) = Ok (map (emb self) ids) /\
  forward self None = Ok (embedding self).
Proof.
  intros Hids.
  assert (Hf : forward self (Some ids) = Ok (map (emb self) ids)).
  { unfold forward, index_select. apply mapM_Ok.
    eapply Forall_impl; [|exact Hids]. intros i [H0 H1].
    rewrite (index_Ok (embedding self) i []) by lia.
    unfold emb. destruct (Z.ltb_spec i 0); [lia | reflexivity]. }
  split; [|split; [exact Hf | reflexivity]].
  rewrite Hf. symmetry. apply mapM_Ok.
  eapply Forall_impl; [|exact Hids]. intros i Hi.
  now apply embedding_row_Ok.
Qed.

Lemma forward_reads_table_witness :
  forward Ring.model (Some [4; 0]) = Ok [[0; 0]; [0; 0]]%R.
Proof.
  destruct (forward_reads_table Ring.model [4; 0]) as (_ & H & _).
  - repeat constructor; unfold in_table; simpl; lia.
  - exact H.
Defined.

End EngineFacts.

(** ** The distances of a window, and the labels made of them *)

Module DistanceClaims.
Import Tensor TensorFacts Node2vec SampleSpec SampleFacts LossSpec LossFacts.
Import Engine EngineFacts.

(** Entry [j] of the [i]-th window of the edge lengths is the length of
    step [i + j] of the walk, the edge walked into node [j + 1] of the
    [i]-th window of the nodes. *)
Lemma window_entries (walk : list Z) (steps : list R) (W i j : nat) :
  (j < W - 1)%nat ->
  (i < length walk + 1 - W)%nat ->
  (i < length steps + 1 - (W - 1))%nat ->
  nth (S j) (nth i (unfold1 W walk) []) (-1) = nth (i + j + 1) walk (-1) /\
  nth j (nth i (unfold1 (W - 1) steps) []) 0%R = nth (i + j) steps 0%R.
Proof.
  intros Hj Hi Hi'. rewrite !nth_unfold1 by assumption.
  rewrite !nth_firstn, !nth_skipn.
  destruct (Nat.ltb_spec (S j) W); [|lia].
  destruct (Nat.ltb_spec j (W - 1)); [|lia].
  split; [f_equal; lia | reflexivity].
Qed.

(** C1, amended. For a model as the constructor builds it, on a graph where
    walks meet no dead end: every row of distances that [sample] returns has
    [window_size - 1] entries; the rows are the windows of the lengths of
    the steps of the walks, as the positive traces are the windows of their
    nodes, window by window; so the entry paired with [rest[j]] is the
    length of the one edge walked into [rest[j]], not a sum from the start
    of the window; and in [loss] the target of the pair [(start, rest[j])]
    is [c / (c + that entry)]. *)
Theorem sample_distances_per_window O self batch :
  ready O self ->
  Forall (fun v => 0 <= v < N self) batch ->
  let W := Z.to_nat (window_size self) in
  exists pos dists neg,
    sample O self batch = Ok (pos, dists, neg) /\
    Forall (fun d => length d = (W - 1)%nat) dists /\
    pos = concat (map (unfold1 W) (walks O self batch)) /\
    dists = concat (map (unfold1 (W - 1)) (step_lengths O self batch)) /\
    Forall2 (fun walk steps =>
               length walk = S (length steps) /\
               length (unfold1 W walk) = length (unfold1 (W - 1) steps) /\
               forall i j,
                 (i < length (unfold1 W walk))%nat -> (j < W - 1)%nat ->
                 nth (S j) (nth i (unfold1 W walk) []) (-1)
                 = nth (i + j + 1) walk (-1) /\
                 nth j (nth i (unfold1 (W - 1) steps) []) 0%R
                 = nth (i + j) steps 0%R)
            (walks O self batch) (step_lengths O self batch) /\
    snd (loss self pos dists neg)
    = Ok (mean (map (fun pd => (similarity self (fst pd)
                                - c self / (c self + snd pd)) ^ 2)%R
                    (combine (pairs pos) (concat dists)))
          + negative_term self neg)%R.
Proof.
  intros Hready Hbatch W.
  destruct (loss_of_sample O self batch Hready Hbatch)
    as (pos & dists & neg & Hs & Hl).
  pose proof (ready_configured O self Hready) as Hwc.
  pose proof (sample_Ok O self batch Hwc) as Hok.
  rewrite Hok in Hs. injection Hs as <- <- <-.
  destruct (walks_shape O self batch Hwc) as (Hw1 & Hw2 & _).
  destruct (step_lengths_shape O self batch Hwc) as (Hd1 & Hd2).
  assert (HW : 2 <= window_size self <= walk_length self)
    by (destruct Hwc; assumption).
  assert (HW1 : Z.to_nat (window_size self - 1) = (W - 1)%nat)
    by (unfold W; lia).
  eexists _, _, _. split; [exact Hok|].
  split; [rewrite HW1; apply windows_width|].
  split; [reflexivity|].
  split; [now rewrite HW1|].
  split.
  - eapply Forall2_impl;
      [|apply (Forall2_same_length _ _ _ _ (eq_trans Hw1 (eq_sym Hd1))
                                   Hw2 Hd2)].
    intros walk steps [Hlw Hls]. cbv beta in Hlw, Hls.
    split; [lia|]. rewrite !length_unfold1. split; [lia|].
    intros i j Hi Hj. apply window_entries; lia.
  - rewrite Hl. reflexivity.
Qed.

Lemma sample_distances_per_window_witness :
  exists pos dists neg,
    sample Ring.oracle Ring.model [0] = Ok (pos, dists, neg) /\
    Forall (fun d => length d = 2%nat) dists /\
    dists = concat (map (unfold1 2) (step_lengths Ring.oracle Ring.model
                                                  [0])).
Proof.
  destruct (sample_distances_per_window Ring.oracle Ring.model [0]
              ring_ready)
    as (pos & dists & neg & H1 & H2 & _ & H4 & _).
  - repeat constructor; simpl; lia.
  - exists pos, dists, neg. split; [exact H1|]. split; [exact H2 | exact H4].
Defined.

End DistanceClaims.

(** ** The training loop and run_node2vec *)

Module TrainerFacts.
Import Node2vec SampleSpec LossSpec Engine EngineFacts.

Lemma lr_loop B self epochs (l : list Z) st :
  Node2vecModel.lr
    (fold_left (Node2vecModel.epoch_body B self epochs) l st)
  = (Node2vecModel.lr st * (995 / 1000) ^ length l)%R.
Proof.
  revert st; induction l as [|i l IH]; intros st; cbn [fold_left length].
  - simpl. lra.
  - rewrite IH. unfold Node2vecModel.epoch_body.
    destruct (Node2vecModel._train_step B _ _) as [m loss0].
    cbn [Node2vecModel.lr]. simpl pow. lra.
Qed.

(** X7. [train] applies one decay step per epoch, whatever is evaluated or
    printed: after the run the learning rate is the initial one times
    0.995 to the power of the number of epochs. *)
Theorem train_decays_lr B self epochs batch_size learning_rate :
  Node2vecModel.lr
    (Node2vecModel.train B self epochs batch_size learning_rate)
  = (learning_rate * (995 / 1000) ^ Z.to_nat epochs)%R.
Proof.
  unfold Node2vecModel.train. rewrite lr_loop.
  cbn [Node2vecModel.lr]. now rewrite length_map, length_seq.
Qed.

Lemma printed_loop_silent B self epochs (l : list Z) st :
  Node2vecModel.eval_steps self <= 0 ->
  Node2vecModel.printed
    (fold_left (Node2vecModel.epoch_body B self epochs) l st)
  = Node2vecModel.printed st.
Proof.
  intros Hsteps. revert st; induction l as [|i l IH]; intros st;
    cbn [fold_left]; [reflexivity|].
  rewrite IH. unfold Node2vecModel.epoch_body.
  destruct (Node2vecModel._train_step B _ _) as [m loss0].
  destruct (Z.ltb_spec 0 (Node2vecModel.eval_steps self)); [lia|].
  cbn [Node2vecModel.printed]. apply app_nil_r.
Qed.

(** X8. With [eval_steps <= 0] the model is not evaluated: [train] prints no
    line and the probe runs in no epoch, with or without an eval set. *)
Theorem train_without_evaluation B self epochs batch_size learning_rate :
  Node2vecModel.eval_steps self <= 0 ->
  Node2vecModel.printed
    (Node2vecModel.train B self epochs batch_size learning_rate) = [] /\
  Node2vecModel.probe_epochs
    (Node2vecModel.train B self epochs batch_size learning_rate) = [].
Proof.
  intros Hsteps.
  assert (H : Node2vecModel.printed
                (Node2vecModel.train B self epochs batch_size learning_rate)
              = []).
  { unfold Node2vecModel.train. now rewrite printed_loop_silent. }
  split; [exact H|]. unfold Node2vecModel.probe_epochs. now rewrite H.
Qed.

Lemma train_without_evaluation_witness :
  Node2vecModel.printed
    (Node2vecModel.train RingRun.backend
       {| Node2vecModel.model := Ring.model; Node2vecModel.g := Ring.graph;
          Node2vecModel.use_sparse := true; Node2vecModel.eval_steps := -1;
          Node2vecModel.eval_set := Some RingRun.eval_set;
          Node2vecModel.device := Node2vecModel.cpu |} 5 2 (1 / 100))
  = [].
Proof.
  apply train_without_evaluation. simpl. lia.
Defined.

Lemma ready_with_embedding O self w :
  ready O self -> length w = length (embedding self) ->
  ready O (with_embedding self w).
Proof.
  intros [[Ho HW Hnw Hnn HN] Htable Hwalks] Hlen.
  constructor; [constructor; assumption| |exact Hwalks].
  simpl. rewrite Hlen. exact Htable.
Qed.

Lemma train_batches_returns O optimizer loader :
  (forall m pos dists neg, exists w,
      optimizer m pos dists neg = with_embedding m w /\
      length w = length (embedding m)) ->
  forall model total,
    ready O model ->
    Forall (Forall (fun v => 0 <= v < N model)) loader ->
    exists model' total',
      Trainer.train_batches O optimizer model total loader
      = Ok (model', total') /\
      ready O model' /\ N model' = N model.
Proof.
  intros Hopt. induction loader as [|batch loader IH];
    intros model total Hready Hloader.
  - exists model, total.
    split; [reflexivity | split; [exact Hready | reflexivity]].
  - inversion Hloader as [|? ? Hbatch Hrest]; subst.
    destruct (loss_of_sample O model batch Hready Hbatch)
      as (pos & dists & neg & Hs & Hl).
    cbn [Trainer.train_batches]. rewrite Hs. cbn [bind].
    rewrite Hl. cbn [snd bind].
    destruct (Hopt model pos dists neg) as (w & Hw & Hlen).
    rewrite Hw.
    destruct (IH (with_embedding model w)
                 (total + (positive_term model pos dists
                           + negative_term model neg))%R
                 (ready_with_embedding O model w Hready Hlen) Hrest)
      as (model' & total' & Hrun & Hready' & HN).
    exists model', total'.
    split; [exact Hrun | split; [exact Hready' | exact HN]].
Qed.

(** X9. A pass of [_train_step] over batches of node ids never raises, when
    the model is as the constructor builds it, the graph has no dead end,
    the loader has a batch, and the optimizer changes nothing but the values
    of the embedding table: it returns a model that is again ready for the
    next pass, and a mean loss. *)
Theorem train_step_returns O optimizer model loader :
  ready O model ->
  (forall m pos dists neg, exists w,
      optimizer m pos dists neg = with_embedding m w /\
      length w = length (embedding m)) ->
  loader <> [] ->
  Forall (Forall (fun v => 0 <= v < N model)) loader ->
  exists model' mean_loss,
    Trainer._train_step O optimizer model loader = Ok (model', mean_loss) /\
    ready O model' /\ N model' = N model.
Proof.
  intros Hready Hopt Hne Hloader.
  destruct (train_batches_returns O optimizer loader Hopt model 0%R
              Hready Hloader) as (model' & total' & Hrun & Hready' & HN).
  unfold Trainer._train_step. rewrite Hrun. cbn [bind fst snd].
  destruct loader as [|b l]; [congruence|]. cbn [length Nat.eqb].
  eexists _, _.
  split; [reflexivity | split; [exact Hready' | exact HN]].
Qed.

Lemma train_step_returns_witness :
  exists model' mean_loss,
    Trainer._train_step Ring.oracle (fun m _ _ _ => m) Ring.model
                        [[0; 1]; [2; 3]]
    = Ok (model', mean_loss).
Proof.
  destruct (train_step_returns Ring.oracle (fun m _ _ _ => m) Ring.model
              [[0; 1]; [2; 3]])
    as (model' & mean_loss & H & _).
  - apply ring_ready.
  - intros m pos dists neg. exists (embedding m).
    split; [destruct m; reflexivity | reflexivity].
  - discriminate.
  - repeat constructor; simpl; lia.
  - exists model', mean_loss. exact H.
Defined.

(** *** train and run_node2vec, with the loader and the evaluation *)

Lemma pass_nonempty shuffle0 n (size : nat) :
  0 < n -> (0 < size)%nat ->
  Permutation (arange n) (shuffle0 (arange n)) ->
  pass shuffle0 {| dataset := arange n; loader_batch_size := size |} <> [].
Proof.
  intros Hn Hsize Hperm Hnil.
  pose proof (batches_concat size (shuffle0 (arange n)) Hsize) as Hc.
  unfold pass in Hnil. cbn [dataset loader_batch_size] in Hnil.
  rewrite Hnil in Hc. apply Permutation_length in Hperm.
  rewrite <- Hc in Hperm. unfold arange in Hperm.
  rewrite length_map, length_seq in Hperm. simpl in Hperm. lia.
Qed.

Lemma train_step_ready O optimizer model loader :
  (forall m pos dists neg, exists w,
      optimizer m pos dists neg = with_embedding m w /\
      length w = length (embedding m)) ->
  ready O model ->
  loader <> [] ->
  Forall (Forall (fun v => 0 <= v < N model)) loader ->
  exists model' mean_loss,
    Trainer._train_step O optimizer model loader = Ok (model', mean_loss) /\
    ready O model' /\ N model' = N model.
Proof.
  intros Hopt Hready Hne Hloader.
  destruct (train_batches_returns O optimizer loader Hopt model 0%R
              Hready Hloader) as (model' & total' & Hrun & Hready' & HN).
  unfold Trainer._train_step. rewrite Hrun. cbn [bind fst snd].
  destruct loader as [|b l]; [congruence|]. cbn [length Nat.eqb].
  eexists _, _.
  split; [reflexivity | split; [exact Hready' | exact HN]].
Qed.

Lemma forward_rows self ids :
  Forall (in_table self) ids ->
  exists rows, forward self (Some ids) = Ok rows.
Proof.
  intros H. unfold forward, Tensor.index_select. eexists.
  apply (mapM_Ok _ (fun i =>
           nth (Z.to_nat (if i <? 0
                          then i + Z.of_nat (length (embedding self))
                          else i))
               (embedding self) [])).
  eapply Forall_impl; [|exact H]. intros i Hi.
  apply TensorFacts.index_Ok. unfold in_table in Hi. lia.
Qed.

Lemma evaluate_step_returns E m es :
  Trainer.env_ok E ->
  Forall (in_table m) (fst (fst es)) ->
  Forall (in_table m) (fst (snd es)) ->
  exists acc, Trainer._evaluate_step E m es = Return acc.
Proof.
  intros HE H1 H2. destruct es as [[xt yt] [xv yv]]. cbn [fst snd] in *.
  unfold Trainer._evaluate_step, Trainer.evaluate. cbn [fst snd].
  destruct (forward_rows m xt H1) as [rt Ht].
  destruct (forward_rows m xv H2) as [rv Hv].
  rewrite Ht. cbn [lift and_then]. rewrite Hv. cbn [lift and_then].
  apply (Trainer.fit_score_returns E HE).
Qed.

Lemma eval_rows_in_table m n ids :
  Z.of_nat (length (embedding m)) = n + 1 ->
  Forall (fun v => 0 <= v <= n) ids ->
  Forall (in_table m) ids.
Proof.
  intros Hlen H. eapply Forall_impl; [|exact H].
  intros v Hv. unfold in_table. simpl in Hv. lia.
Qed.

Lemma epoch_body_returns O E self dl epochs st i n :
  Trainer.env_ok E ->
  0 < n -> (0 < loader_batch_size dl)%nat -> dataset dl = arange n ->
  ready O (Node2vecModel.current st) ->
  N (Node2vecModel.current st) = n ->
  Trainer.eval_rows n (Node2vecModel.eval_set self) ->
  exists st',
    Trainer.epoch_body O E self dl epochs st i = Return st' /\
    ready O (Node2vecModel.current st') /\
    N (Node2vecModel.current st') = n /\
    Node2vecModel.lr st' = (Node2vecModel.lr st * (995 / 1000))%R /\
    Node2vecModel.probe_epochs st'
    = Node2vecModel.probe_epochs st
      ++ (if Node2vecModel.probes self epochs then [i + 1] else []).
Proof.
  intros HE Hn Hsize Hdata Hready HN Heval.
  destruct dl as [data size]. cbn [dataset loader_batch_size] in *.
  subst data.
  pose proof (Trainer.shuffle_permutes E HE i (arange n)) as Hperm.
  destruct (train_step_ready O
              (Trainer.step E (Node2vecModel.use_sparse self)
                            (Node2vecModel.lr st))
              (Node2vecModel.current st)
              (pass (Trainer.shuffle E i)
                    {| dataset := arange n; loader_batch_size := size |}))
    as (m & loss0 & Hstep & Hready' & HN').
  - apply (Trainer.step_updates_table E HE).
  - exact Hready.
  - apply pass_nonempty; assumption.
  - rewrite HN. apply pass_in_range; assumption.
  - unfold Trainer.epoch_body. rewrite Hstep. cbn [lift and_then].
    unfold Node2vecModel.probes, Node2vecModel.probe_epochs.
    assert (Htab : Z.of_nat (length (embedding m)) = n + 1).
    { rewrite (ready_table O m Hready'). lia. }
    destruct (0 <? Node2vecModel.eval_steps self); cbn [andb].
    + destruct (epochs mod Node2vecModel.eval_steps self =? 0); cbn [andb].
      * destruct (Node2vecModel.eval_set self) as [es|] eqn:Hes.
        -- destruct (Heval es eq_refl) as [H1 H2].
           destruct (evaluate_step_returns E m es HE
                       (eval_rows_in_table m n _ Htab H1)
                       (eval_rows_in_table m n _ Htab H2)) as [acc Hacc].
           rewrite Hacc. cbn [and_then]. eexists.
           split; [reflexivity|].
           cbn [Node2vecModel.current Node2vecModel.lr
                Node2vecModel.printed].
           rewrite flat_map_app. cbn [flat_map app].
           split; [exact Hready'|]. split; [congruence|]. split; reflexivity.
        -- cbn [and_then]. eexists. split; [reflexivity|].
           cbn [Node2vecModel.current Node2vecModel.lr
                Node2vecModel.printed].
           rewrite flat_map_app. cbn [flat_map app].
           split; [exact Hready'|]. split; [congruence|]. split; reflexivity.
      * cbn [and_then]. eexists. split; [reflexivity|].
        cbn [Node2vecModel.current Node2vecModel.lr Node2vecModel.printed].
        rewrite !app_nil_r.
        split; [exact Hready'|]. split; [congruence|]. split; reflexivity.
    + cbn [and_then]. eexists. split; [reflexivity|].
      cbn [Node2vecModel.current Node2vecModel.lr Node2vecModel.printed].
      rewrite !app_nil_r.
      split; [exact Hready'|]. split; [congruence|]. split; reflexivity.
Qed.

Lemma train_epochs_return O E self dl epochs n (l : list Z) :
  Trainer.env_ok E ->
  0 < n -> (0 < loader_batch_size dl)%nat -> dataset dl = arange n ->
  Trainer.eval_rows n (Node2vecModel.eval_set self) ->
  forall st,
    ready O (Node2vecModel.current st) ->
    N (Node2vecModel.current st) = n ->
    exists st',
      Trainer.epochs_loop O E self dl epochs st l = Return st' /\
      ready O (Node2vecModel.current st') /\
      N (Node2vecModel.current st') = n /\
      Node2vecModel.lr st'
      = (Node2vecModel.lr st * (995 / 1000) ^ length l)%R /\
      Node2vecModel.probe_epochs st'
      = Node2vecModel.probe_epochs st
        ++ (if Node2vecModel.probes self epochs
            then map (fun i => i + 1) l else []).
Proof.
  intros HE Hn Hsize Hdata Heval.
  induction l as [|i l IH]; intros st Hready HN.
  - exists st. cbn [Trainer.epochs_loop length map pow].
    split; [reflexivity|]. split; [exact Hready|]. split; [exact HN|].
    split; [lra|]. destruct (Node2vecModel.probes self epochs);
      now rewrite app_nil_r.
  - destruct (epoch_body_returns O E self dl epochs st i n HE Hn Hsize
                Hdata Hready HN Heval)
      as (st1 & Hrun1 & Hready1 & HN1 & Hlr1 & Hp1).
    destruct (IH st1 Hready1 HN1)
      as (st' & Hrun & Hready' & HN' & Hlr & Hp).
    exists st'. cbn [Trainer.epochs_loop]. rewrite Hrun1. cbn [and_then].
    split; [exact Hrun|]. split; [exact Hready'|]. split; [exact HN'|].
    split.
    + rewrite Hlr, Hlr1. cbn [length pow]. lra.
    + rewrite Hp, Hp1, <- app_assoc.
      destruct (Node2vecModel.probes self epochs); reflexivity.
Qed.

(** [train] returns for a trainer that is ready, a positive batch size and
    a learning rate that the optimizer accepts. *)
Lemma train_returns O E self epochs batch_size learning_rate :
  Trainer.env_ok E ->
  ready O (Node2vecModel.model self) ->
  0 < batch_size ->
  Trainer.valid_lr E (Node2vecModel.use_sparse self) learning_rate = true ->
  Trainer.eval_rows (N (Node2vecModel.model self)) (Node2vecModel.eval_set self) ->
  exists st,
    Trainer.train O E self epochs batch_size learning_rate = Return st /\
    ready O (Node2vecModel.current st) /\
    N (Node2vecModel.current st) = N (Node2vecModel.model self) /\
    Node2vecModel.lr st
    = (learning_rate * (995 / 1000) ^ Z.to_nat epochs)%R /\
    Node2vecModel.probe_epochs st
    = if Node2vecModel.probes self epochs
      then map (fun i => i + 1) (map Z.of_nat (seq 0 (Z.to_nat epochs)))
      else [].
Proof.
  intros HE Hready Hb Hlr Heval.
  pose proof (pre_nodes O _ (ready_configured O _ Hready)) as HN.
  unfold Trainer.train.
  rewrite (loader_returns _ _ HN Hb). cbn [and_then]. rewrite Hlr.
  destruct (train_epochs_return O E self
              {| dataset := arange (N (Node2vecModel.model self));
                 loader_batch_size := Z.to_nat batch_size |}
              epochs (N (Node2vecModel.model self))
              (map Z.of_nat (seq 0 (Z.to_nat epochs))) HE HN)
    with (st := {| Node2vecModel.current := Node2vecModel.model self;
                   Node2vecModel.lr := learning_rate;
                   Node2vecModel.printed := [] |})
    as (st' & Hrun & Hready' & HN' & Hlr' & Hp);
    try (cbn [loader_batch_size dataset Node2vecModel.current];
         solve [lia | reflexivity | assumption]).
  exists st'. split; [exact Hrun|]. split; [exact Hready'|].
  split; [exact HN'|]. split.
  - rewrite Hlr'. cbn [Node2vecModel.lr].
    now rewrite length_map, length_seq.
  - rewrite Hp. reflexivity.
Qed.

(** X28. [train] raises a [ValueError] before the first epoch, whatever the
    number of epochs, for a graph without a node, for a batch size that is
    not positive, and for a learning rate that the optimizer refuses: the
    loader and the optimizer are built first. *)
Theorem train_refuses O E self epochs batch_size learning_rate :
  N (Node2vecModel.model self) <= 0 \/ batch_size <= 0 \/
  Trainer.valid_lr E (Node2vecModel.use_sparse self) learning_rate = false ->
  Trainer.train O E self epochs batch_size learning_rate = Throw ValueError.
Proof.
  intros H. unfold Trainer.train, loader.
  destruct (Z.leb_spec (N (Node2vecModel.model self)) 0); [reflexivity|].
  destruct (Z.leb_spec batch_size 0); [reflexivity|].
  cbn [orb and_then].
  destruct H as [H | [H | H]]; [lia | lia |]. now rewrite H.
Qed.

Lemma train_refuses_witness :
  Trainer.train Ring.oracle RingRun.env
    {| Node2vecModel.model := Ring.model; Node2vecModel.g := Ring.graph;
       Node2vecModel.use_sparse := true; Node2vecModel.eval_steps := 1;
       Node2vecModel.eval_set := None;
       Node2vecModel.device := Node2vecModel.cpu |} 0 0 (1 / 100)
  = Throw ValueError.
Proof.
  apply train_refuses. right. left. lia.
Defined.

Lemma init_fields w cuda gr dim L p0 q0 walks W negs sparse name es steps dev
    c0 trainer :
  Node2vecModel.init w cuda gr dim L p0 q0 walks W negs sparse name es steps
                     dev c0 = Ok trainer ->
  Node2vecModel.use_sparse trainer = sparse /\
  Node2vecModel.eval_steps trainer = steps /\
  Node2vecModel.eval_set trainer = es /\
  N (Node2vecModel.model trainer) = num_nodes gr.
Proof.
  unfold Node2vecModel.init.
  destruct (init w gr dim L p0 q0 walks W negs sparse name c0)
    as [m|e0] eqn:Hm; cbn [bind]; [|discriminate].
  intros H. injection H as <-.
  cbn [Node2vecModel.use_sparse Node2vecModel.eval_steps
       Node2vecModel.eval_set Node2vecModel.model].
  repeat split.
  unfold init in Hm. destruct (negb (L >=? W)); [discriminate|].
  destruct (nn_Embedding w (num_nodes gr + 1) dim); cbn [bind] in Hm;
    [|discriminate].
  injection Hm as <-. reflexivity.
Qed.

(** X10. [run_node2vec] builds its trainer with [eval_steps = 1].  When the
    trainer built is ready (the graph has a node and no dead end), the batch
    size is positive, the optimizer accepts the learning rate, the eval set
    names rows of the table and the path can be written, the run returns;
    the probe ran after every epoch, 1 to [epochs], when an eval set is
    given, and in no epoch otherwise; the learning rate decayed once per
    epoch; and what is returned is the table of the trained model, of one
    row per node and one more, the same that is written. *)
Theorem run_node2vec_probes w cuda O E graph eval_set args output_path
    trainer :
  Node2vecModel.init w cuda graph (Trainer.embedding_dim args)
    (Trainer.walk_length args) (Trainer.p args) (Trainer.q args)
    (Trainer.num_walks args) (Trainer.window_size args)
    (Trainer.num_negatives args) true None eval_set 1
    (Trainer.device args) (Trainer.init_c args) = Ok trainer ->
  ready O (Node2vecModel.model trainer) ->
  Trainer.env_ok E ->
  0 < Trainer.batch_size args ->
  Trainer.valid_lr E true (Trainer.lr args) = true ->
  Trainer.eval_rows (num_nodes graph) eval_set ->
  (forall path, output_path = Some path ->
                Trainer.writable E path = true) ->
  exists r,
    Trainer.run_node2vec w cuda O E graph eval_set (Some args) output_path
    = Return r /\
    Node2vecModel.probe_epochs (Trainer.trained r)
    = match eval_set with
      | Some _ => map (fun i => i + 1)
                      (map Z.of_nat (seq 0 (Z.to_nat (Trainer.epochs args))))
      | None => []
      end /\
    Node2vecModel.lr (Trainer.trained r)
    = (Trainer.lr args * (995 / 1000) ^ Z.to_nat (Trainer.epochs args))%R /\
    Trainer.returned r
    = embedding (Node2vecModel.current (Trainer.trained r)) /\
    Z.of_nat (length (Trainer.returned r)) = num_nodes graph + 1 /\
    Trainer.written r
    = option_map (fun path => (path, Trainer.returned r)) output_path.
Proof.
  intros Hinit Hready HE Hb Hlr Heval Hpath.
  destruct (init_fields _ _ _ _ _ _ _ _ _ _ _ _ _ _ _ _ _ Hinit)
    as (Hsparse & Hsteps & Hes & HN).
  destruct (train_returns O E trainer (Trainer.epochs args)
              (Trainer.batch_size args) (Trainer.lr args) HE Hready Hb)
    as (st & Hrun & Hready' & HN' & Hlr' & Hp).
  - now rewrite Hsparse.
  - now rewrite HN, Hes.
  - unfold Trainer.run_node2vec. rewrite Hinit. cbn [lift and_then].
    rewrite Hrun. cbn [and_then forward lift].
    assert (Hfile : Trainer.write_file E output_path
                      (embedding (Node2vecModel.current st))
                    = Return (option_map
                                (fun path =>
                                   (path,
                                    embedding (Node2vecModel.current st)))
                                output_path)).
    { unfold Trainer.write_file. destruct output_path as [path|];
        [|reflexivity].
      now rewrite (Hpath path eq_refl). }
    rewrite Hfile. cbn [and_then]. eexists. split; [reflexivity|].
    cbn [Trainer.trained Trainer.returned Trainer.written].
    split; [|split; [exact Hlr'|split; [reflexivity|split;
                                         [|reflexivity]]]].
    + rewrite Hp. unfold Node2vecModel.probes.
      rewrite Hsteps, Hes, Z.mod_1_r. destruct eval_set; reflexivity.
    + rewrite (ready_table O _ Hready'), HN', HN. reflexivity.
Qed.

Lemma ring_env_ok : Trainer.env_ok RingRun.env.
Proof.
  constructor.
  - intros i l. apply Permutation_rev.
  - intros sparse rate m pos dists neg. exists (embedding m).
    split; [destruct m; reflexivity | reflexivity].
  - intros. eexists. reflexivity.
Qed.

Lemma run_node2vec_probes_witness :
  exists r,
    Trainer.run_node2vec (fun _ _ => 0%R) false Ring.oracle RingRun.env
      Ring.graph (Some RingRun.eval_set) (Some RingRun.params) None
    = Return r /\
    Node2vecModel.probe_epochs (Trainer.trained r) = [1; 2; 3].
Proof.
  destruct (run_node2vec_probes (fun _ _ => 0%R) false Ring.oracle
              RingRun.env Ring.graph (Some RingRun.eval_set) RingRun.params
              None
              {| Node2vecModel.model := Ring.model;
                 Node2vecModel.g := Ring.graph;
                 Node2vecModel.use_sparse := true;
                 Node2vecModel.eval_steps := 1;
                 Node2vecModel.eval_set := Some RingRun.eval_set;
                 Node2vecModel.device := Node2vecModel.cpu |})
    as (r & H1 & H2 & _).
  - reflexivity.
  - apply ring_ready.
  - apply ring_env_ok.
  - simpl. lia.
  - simpl. destruct (Rlt_dec 0 (1 / 100)); [reflexivity | lra].
  - intros es Hes. injection Hes as <-. simpl.
    split; repeat constructor; lia.
  - discriminate.
  - exists r. split; [exact H1 | exact H2].
Defined.

End TrainerFacts.

(** ** The heuristics of run_routing *)

Module HeuristicFacts.
Import Heuristics.

Lemma node_data_error nodes a err :
  node_data nodes a = Raise err -> err = KeyError.
Proof.
  induction nodes as [|[n xy] nodes IH]; simpl; [congruence|].
  destruct (n =? a); [discriminate | exact IH].
Qed.

Lemma haversine_symmetric (lat_a long_a lat_b long_b p : R) :
  (1 / 2 - cos ((lat_b - lat_a) * p) / 2
   + cos (lat_a * p) * cos (lat_b * p)
     * (1 - cos ((long_b - long_a) * p)) / 2
   = 1 / 2 - cos ((lat_a - lat_b) * p) / 2
     + cos (lat_b * p) * cos (lat_a * p)
       * (1 - cos ((long_a - long_b) * p)) / 2)%R.
Proof.
  replace ((lat_a - lat_b) * p)%R with (- ((lat_b - lat_a) * p))%R by ring.
  replace ((long_a - long_b) * p)%R with (- ((long_b - long_a) * p))%R
    by ring.
  rewrite !cos_neg. field.
Qed.

(** X11. The geographic heuristic is symmetric: [dist_heuristic(a, b)] and
    [dist_heuristic(b, a)] are the same, value or [KeyError]. *)
Theorem dist_heuristic_symmetric nodes a b :
  dist_heuristic nodes a b = dist_heuristic nodes b a.
Proof.
  unfold dist_heuristic.
  destruct (node_data nodes a) as [[xa ya]|ea] eqn:Ha;
    destruct (node_data nodes b) as [[xb yb]|eb] eqn:Hb; cbn [bind fst snd].
  - now rewrite haversine_symmetric.
  - reflexivity.
  - reflexivity.
  - apply node_data_error in Ha, Hb. congruence.
Qed.

Lemma asin_nonneg (x : R) : (0 <= x <= 1)%R -> (0 <= asin x)%R.
Proof.
  intros Hx. destruct (Rle_or_lt 0 (asin x)) as [H|H]; [exact H|].
  pose proof (asin_bound x) as Hb. pose proof PI_RGT_0 as Hpi.
  assert (Hs : (sin (asin x) < 0)%R) by (apply sin_lt_0_var; lra).
  rewrite sin_asin in Hs by lra. lra.
Qed.

Lemma haversine_range (la lb dl : R) :
  (0 <= cos la)%R -> (0 <= cos lb)%R ->
  (0 <= 1 / 2 - cos (lb - la) / 2 + cos la * cos lb * (1 - cos dl) / 2
   <= 1)%R.
Proof.
  intros Ha Hb.
  pose proof (COS_bound (lb - la)) as [H1 H2].
  pose proof (COS_bound dl) as [H3 H4].
  pose proof (COS_bound (lb + la)) as [H5 H6].
  rewrite cos_minus in *. rewrite cos_plus in *.
  set (ca := cos la) in *. set (cb := cos lb) in *.
  set (sa := sin la) in *. set (sb := sin lb) in *.
  set (cd := cos dl) in *.
  assert (Hab : (0 <= ca * cb)%R) by (apply Rmult_le_pos; assumption).
  assert (Ht : (0 <= ca * cb * (1 - cd))%R)
    by (apply Rmult_le_pos; lra).
  assert (Hu : (0 <= ca * cb * (1 + cd))%R)
    by (apply Rmult_le_pos; lra).
  split; lra.
Qed.

(** X12. For two nodes of the graph with latitudes between -90 and 90
    degrees, [dist_heuristic] returns a value that is not negative; and the
    distance from a node to itself is 0. *)
Theorem dist_heuristic_nonneg nodes a b xa ya xb yb :
  node_data nodes a = Ok (xa, ya) ->
  node_data nodes b = Ok (xb, yb) ->
  (-90 <= ya <= 90)%R -> (-90 <= yb <= 90)%R ->
  (exists v, dist_heuristic nodes a b = Ok v /\ (0 <= v)%R) /\
  dist_heuristic nodes a a = Ok 0%R.
Proof.
  intros Ha Hb Hya Hyb. pose proof PI_RGT_0 as Hpi. split.
  - unfold dist_heuristic. rewrite Ha, Hb. cbn [bind fst snd].
    eexists. split; [reflexivity|].
    replace ((yb - ya) * (PI / 180))%R
      with (yb * (PI / 180) - ya * (PI / 180))%R by ring.
    assert (Hca : (0 <= cos (ya * (PI / 180)))%R)
      by (apply cos_ge_0; nra).
    assert (Hcb : (0 <= cos (yb * (PI / 180)))%R)
      by (apply cos_ge_0; nra).
    pose proof (haversine_range (ya * (PI / 180)) (yb * (PI / 180))
                  ((xb - xa) * (PI / 180)) Hca Hcb) as Hd.
    set (d := (1 / 2 - _ / 2 + _ * _ * _ / 2)%R) in *.
    assert (Hs : (0 <= sqrt d <= 1)%R).
    { split; [apply sqrt_pos|]. rewrite <- sqrt_1.
      apply sqrt_le_1; lra. }
    pose proof (asin_nonneg (sqrt d) Hs). nra.
  - unfold dist_heuristic. rewrite Ha. cbn [bind fst snd].
    f_equal.
    replace ((ya - ya) * (PI / 180))%R with 0%R by ring.
    replace ((xa - xa) * (PI / 180))%R with 0%R by ring.
    rewrite cos_0.
    replace (1 / 2 - 1 / 2
             + cos (ya * (PI / 180)) * cos (ya * (PI / 180)) * (1 - 1) / 2)%R
      with 0%R by field.
    rewrite sqrt_0, asin_0. ring.
Qed.

Lemma dist_heuristic_nonneg_witness :
  exists v,
    dist_heuristic [(1, (10%R, 45%R)); (2, (20%R, (-30)%R))] 1 2 = Ok v /\
    (0 <= v)%R.
Proof.
  destruct (dist_heuristic_nonneg
              [(1, (10%R, 45%R)); (2, (20%R, (-30)%R))] 1 2
              10%R 45%R 20%R (-30)%R) as [H _];
    [reflexivity | reflexivity | lra | lra | exact H].
Defined.

Lemma dot_comm (u v : list R) : dot u v = dot v u.
Proof.
  unfold dot. revert v; induction u as [|x u IH]; intros [|y v];
    try reflexivity.
  cbn [combine map fold_right fst snd]. rewrite IH. ring.
Qed.

Lemma index_error {A} (t : list A) (i : Z) err :
  Tensor.index t i = Raise err -> err = IndexError.
Proof.
  unfold Tensor.index.
  destruct (_ && _); [destruct (nth_error _ _)|]; congruence.
Qed.

Lemma add_rows_comm (u v : list R) : add_rows u v = add_rows v u.
Proof.
  unfold add_rows. revert v; induction u as [|x u IH]; intros [|y v];
    try reflexivity.
  cbn [combine map fst snd]. rewrite IH. f_equal. ring.
Qed.

(** X14. The learned heuristic is symmetric, whatever the predictor is: the
    input it builds from [x] and [y] is the same as from [y] and [x], so
    [model_heuristic(x, y)] and [model_heuristic(y, x)] are the same, value
    or [IndexError]. *)
Theorem model_heuristic_symmetric predict embedding x y :
  model_heuristic predict embedding x y
  = model_heuristic predict embedding y x.
Proof.
  unfold model_heuristic.
  destruct (Tensor.index embedding x) as [wx|ex] eqn:Hx;
    destruct (Tensor.index embedding y) as [wy|ey] eqn:Hy; cbn [bind].
  - now rewrite add_rows_comm.
  - reflexivity.
  - reflexivity.
  - apply index_error in Hx, Hy. congruence.
Qed.

End HeuristicFacts.

(** ** plot_route *)

Module PlotFacts.
Import Plot.

Lemma div_mod_succ (m i : Z) :
  0 < m -> 0 <= i ->
  (i mod m + 1 < m /\ (i + 1) / m = i / m /\ (i + 1) mod m = i mod m + 1) \/
  (i mod m + 1 = m /\ (i + 1) / m = i / m + 1 /\ (i + 1) mod m = 0).
Proof.
  intros Hm Hi.
  pose proof (Z.mod_pos_bound i m Hm) as Hb.
  pose proof (Z.div_mod i m ltac:(lia)) as Hdm.
  destruct (Z.eq_dec (i mod m + 1) m) as [He|Hne].
  - right. split; [exact He|]. split.
    + symmetry. apply (Z.div_unique _ _ _ 0); [lia | nia].
    + symmetry. apply (Z.mod_unique _ _ (i / m + 1)); [lia | nia].
  - left. split; [lia|]. split.
    + symmetry. apply (Z.div_unique _ _ _ (i mod m + 1)); [lia | nia].
    + symmetry. apply (Z.mod_unique _ _ (i / m)); [lia | nia].
Qed.

(** One step of the loop moves along the colour wheel. *)
Local Ltac wheel :=
  unfold shift, updates;
  cbv [Z.to_nat Pos.to_nat Pos.iter_op Init.Nat.add nth fst snd];
  repeat match goal with |- (_, _) = (_, _) => f_equal end; lia.

Lemma hue_step (m i : Z) :
  0 < m -> 0 <= i ->
  shift (hue m i) (nth (Z.to_nat ((i / m) mod 6)) updates (0, 0, 0))
  = hue m (i + 1).
Proof.
  intros Hm Hi.
  assert (Hq : 0 <= i / m) by (apply Z.div_pos; lia).
  pose proof (Z.mod_pos_bound (i / m) 6 ltac:(lia)) as Hk.
  pose proof (Z.mod_pos_bound i m Hm) as Ht.
  unfold hue.
  destruct (div_mod_succ m i Hm Hi) as [(Hlt & Hd & Hr)|(Heq & Hd & Hr)];
    rewrite Hd, Hr.
  - assert (Hcase : (i / m) mod 6 = 0 \/ (i / m) mod 6 = 1
                    \/ (i / m) mod 6 = 2 \/ (i / m) mod 6 = 3
                    \/ (i / m) mod 6 = 4 \/ (i / m) mod 6 = 5) by lia.
    destruct Hcase as [H|[H|[H|[H|[H|H]]]]]; rewrite H;
      wheel.
  - destruct (div_mod_succ 6 (i / m) ltac:(lia) Hq)
      as [(Hlt6 & _ & Hr6)|(Heq6 & _ & Hr6)]; rewrite Hr6.
    + assert (Hcase : (i / m) mod 6 = 0 \/ (i / m) mod 6 = 1
                      \/ (i / m) mod 6 = 2 \/ (i / m) mod 6 = 3
                      \/ (i / m) mod 6 = 4) by lia.
      destruct Hcase as [H|[H|[H|[H|H]]]]; rewrite H;
        [change (0 + 1) with 1 | change (1 + 1) with 2
         | change (2 + 1) with 3 | change (3 + 1) with 4
         | change (4 + 1) with 5]; wheel.
    + assert (H : (i / m) mod 6 = 5) by lia. rewrite H.
      wheel.
Qed.

Lemma hue_range (m i : Z) :
  0 < m -> 0 <= i ->
  0 <= fst (fst (hue m i)) <= m /\ 0 <= snd (fst (hue m i)) <= m /\
  0 <= snd (hue m i) <= m.
Proof.
  intros Hm Hi. pose proof (Z.mod_pos_bound i m Hm) as Ht.
  unfold hue.
  repeat match goal with
         | |- context [match ?x with _ => _ end] => destruct x
         end; cbn [fst snd]; lia.
Qed.

Lemma hue_start (m : Z) : 0 < m -> hue m 0 = (m, 0, 0).
Proof.
  intros Hm. unfold hue. rewrite Z.div_0_l, Z.mod_0_l by lia. reflexivity.
Qed.

Lemma set_item_Ok {A} (P : A -> Prop) (l : list A) (i : nat) (v : A) :
  (i < length l)%nat -> Forall P l -> P v ->
  exists l', set_item l i v = Ok l' /\ length l' = length l /\ Forall P l'.
Proof.
  revert i; induction l as [|x l IH]; intros i Hi Hl Hv;
    [simpl in Hi; lia|].
  inversion Hl; subst. destruct i as [|i]; cbn [set_item].
  - eexists. split; [reflexivity|]. split; [reflexivity|].
    constructor; assumption.
  - destruct (IH i ltac:(simpl in Hi; lia) ltac:(assumption) Hv)
      as (l' & Hs & Hlen & Hall).
    rewrite Hs. cbn [bind]. eexists. split; [reflexivity|].
    split; [simpl; lia | constructor; assumption].
Qed.

Lemma unit_of_hue (m i : Z) :
  0 < m -> 0 <= i ->
  unit_color (IZR (fst (fst (hue m i))) / IZR m,
              IZR (snd (fst (hue m i))) / IZR m,
              IZR (snd (hue m i)) / IZR m)%R.
Proof.
  intros Hm Hi. destruct (hue_range m i Hm Hi) as (Hr & Hg & Hb).
  assert (HM : (0 < IZR m)%R) by (apply IZR_lt; exact Hm).
  assert (Hfrac : forall x, 0 <= x <= m -> (0 <= IZR x / IZR m <= 1)%R).
  { intros x [H0 H1]. apply IZR_le in H0, H1. split.
    - apply Rmult_le_pos; [exact H0|]. left. now apply Rinv_0_lt_compat.
    - apply (Rmult_le_reg_r (IZR m)); [exact HM|].
      unfold Rdiv. rewrite Rmult_assoc, Rinv_l by lra. lra. }
  unfold unit_color. cbn [fst snd]. auto.
Qed.

(** The loop keeps the colours on the wheel and in the unit cube. *)
Lemma paint_loop_Ok nodes m visited :
  0 < m ->
  Forall (fun n => In n nodes) visited ->
  forall st i,
    0 <= i ->
    (r st, g st, b st) = hue m i ->
    (length nodes <= length (node_colors st))%nat ->
    Forall unit_color (node_colors st) ->
    exists st',
      paint_loop nodes m st i visited = Ok st' /\
      length (node_colors st') = length (node_colors st) /\
      Forall unit_color (node_colors st').
Proof.
  intros Hm Hvis. induction Hvis as [|n visited Hn _ IH];
    intros st i Hi Hst Hlen Hunit.
  - exists st. repeat split; assumption.
  - cbn [paint_loop]. unfold paint_step.
    destruct (Z.eqb_spec m 0); [lia|].
    destruct (RoutingClaims.node_to_idx_from_In 0 nodes n Hn) as [idx Hidx].
    unfold Routing.node_to_idx. rewrite Hidx. cbn [bind].
    apply RoutingClaims.node_to_idx_from_bound in Hidx.
    pose proof (hue_step m i Hm Hi) as Hstep.
    rewrite <- Hst in Hstep. unfold shift in Hstep. cbn [fst snd] in Hstep.
    pose proof (unit_of_hue m (i + 1) Hm ltac:(lia)) as Hu.
    rewrite <- Hstep in Hu. cbn [fst snd] in Hu.
    destruct (set_item_Ok unit_color (node_colors st) idx _
                ltac:(lia) Hunit Hu) as (colors & Hset & Hcl & Hcu).
    rewrite Hset. cbn [bind].
    destruct (IH {| r := _; g := _; b := _; node_colors := colors |}
                 (i + 1) ltac:(lia) Hstep
                 ltac:(cbn [node_colors]; lia) Hcu)
      as (st' & Hrun & Hlen' & Hunit').
    exists st'. split; [exact Hrun|]. split; [|exact Hunit'].
    cbn [node_colors] in Hlen'. lia.
Qed.

Lemma nodup_visited_in nodes visited order :
  Forall (fun n => In n nodes) visited ->
  Permutation (nodup Z.eq_dec visited) order ->
  Forall (fun n => In n nodes) order.
Proof.
  intros Hv Hp. apply Forall_forall. intros n Hn.
  apply (Permutation_in _ (Permutation_sym Hp)) in Hn.
  apply nodup_In in Hn. rewrite Forall_forall in Hv. auto.
Qed.

(** X15. When the search visited at least one and fewer than six distinct
    nodes, [plot_route] fails with a [ZeroDivisionError]: the step
    [m = len(visited) // 6] of the colour wheel is 0 and the first index is
    divided by it. *)
Theorem plot_route_short_search edge size astar order nodes u v path :
  path_length edge (fst (astar u v)) 0%R = Ok path ->
  Permutation (nodup Z.eq_dec (snd (astar u v)))
              (order (nodup Z.eq_dec (snd (astar u v)))) ->
  (0 < length (nodup Z.eq_dec (snd (astar u v))) < 6)%nat ->
  plot_route edge size astar order nodes u v = Raise ZeroDivisionError.
Proof.
  intros Hpath Hperm Hlen. unfold plot_route.
  destruct (astar u v) as [route visited]. cbn [fst snd] in *.
  rewrite Hpath. cbn [bind].
  rewrite (Permutation_length Hperm) in Hlen.
  destruct (order (nodup Z.eq_dec visited)) as [|n vs];
    [simpl in Hlen; lia|].
  rewrite Z.div_small by lia. reflexivity.
Qed.

Lemma plot_route_short_search_witness :
  plot_route (fun _ _ => Ok 1%R) 3 (fun _ _ => ([0; 1; 2], [0; 1; 1; 2]))
             (fun l => l) [0; 1; 2] 0 2
  = Raise ZeroDivisionError.
Proof.
  apply (plot_route_short_search _ _ _ _ _ _ _ (0 + 1 + 1)%R).
  - reflexivity.
  - apply Permutation_refl.
  - simpl. lia.
Defined.

(** X16. When the search visited six distinct nodes or more, all of them
    nodes of the index, [plot_route] colours without error and every colour
    it leaves in [node_colors] has its three components between 0 and 1:
    the loop walks the colour wheel in steps of [1 / m] and never leaves
    it. *)
Theorem plot_route_colors edge size astar order nodes u v path :
  path_length edge (fst (astar u v)) 0%R = Ok path ->
  Permutation (nodup Z.eq_dec (snd (astar u v)))
              (order (nodup Z.eq_dec (snd (astar u v)))) ->
  (6 <= length (nodup Z.eq_dec (snd (astar u v))))%nat ->
  Forall (fun n => In n nodes) (snd (astar u v)) ->
  (length nodes <= size)%nat ->
  exists colors,
    plot_route edge size astar order nodes u v = Ok (path, colors) /\
    length colors = size /\
    Forall unit_color colors.
Proof.
  intros Hpath Hperm Hlen Hin Hsize. unfold plot_route.
  destruct (astar u v) as [route visited]. cbn [fst snd] in *.
  rewrite Hpath. cbn [bind].
  rewrite (Permutation_length Hperm) in Hlen.
  set (vs := order (nodup Z.eq_dec visited)) in *.
  set (m := Z.of_nat (length vs) / 6).
  assert (Hm : 0 < m).
  { subst m. apply Z.div_str_pos. lia. }
  destruct (paint_loop_Ok nodes m vs Hm
              (nodup_visited_in nodes visited vs Hin Hperm)
              {| r := m; g := 0; b := 0;
                 node_colors := repeat (1, 1, 1)%R size |} 0)
    as (st' & Hrun & Hlen' & Hunit).
  - lia.
  - cbn [r g b]. symmetry. apply hue_start. exact Hm.
  - cbn [node_colors]. rewrite repeat_length. exact Hsize.
  - cbn [node_colors]. apply Forall_forall. intros c Hc.
    apply repeat_spec in Hc. subst c. unfold unit_color. cbn. lra.
  - rewrite Hrun. cbn [bind]. exists (node_colors st').
    split; [reflexivity|]. split; [|exact Hunit].
    rewrite Hlen'. cbn [node_colors]. apply repeat_length.
Qed.

Lemma plot_route_colors_witness :
  exists colors,
    plot_route (fun _ _ => Ok 1%R) 7 (fun _ _ => ([0; 6], [0; 1; 2; 3; 4; 5; 6]))
               (fun l => l) [0; 1; 2; 3; 4; 5; 6] 0 6
    = Ok ((0 + 1)%R, colors) /\
    Forall unit_color colors.
Proof.
  destruct (plot_route_colors (fun _ _ => Ok 1%R) 7
              (fun _ _ => ([0; 6], [0; 1; 2; 3; 4; 5; 6]))
              (fun l => l) [0; 1; 2; 3; 4; 5; 6] 0 6 (0 + 1)%R)
    as (colors & H1 & _ & H3).
  - reflexivity.
  - apply Permutation_refl.
  - simpl. lia.
  - repeat constructor; simpl; tauto.
  - simpl. lia.
  - exists colors. split; assumption.
Defined.

End PlotFacts.

(** ** data_helper: filtering rare labels *)

Module DataHelperFacts.
Import DataHelper.
Import String.StringSyntax.

Lemma counter_keys_In (y : list Z) (k : Z) :
  In k (counter_keys y) <-> In k y.
Proof.
  induction y as [|v y IH]; simpl; [tauto|].
  rewrite filter_In, IH, negb_true_iff, Z.eqb_neq.
  destruct (Z.eq_dec v k); [subst|]; intuition congruence.
Qed.

Lemma mask_entry (y : list Z) (min_observations v : Z) :
  In v y ->
  existsb (fun k => v =? k)
          (filter (fun k => min_observations <=? count y k) (counter_keys y))
  = keep y min_observations v.
Proof.
  intros Hv. unfold keep.
  destruct (min_observations <=? count y v) eqn:Hk.
  - apply existsb_exists. exists v. split; [|apply Z.eqb_refl].
    apply filter_In. split; [now apply counter_keys_In | exact Hk].
  - apply not_true_is_false. intros Hex. apply existsb_exists in Hex.
    destruct Hex as (k & Hin & Heq). apply Z.eqb_eq in Heq. subst k.
    apply filter_In in Hin. destruct Hin as [_ Hin]. congruence.
Qed.

Lemma select_filter {A} (f : A -> bool) (l : list A) :
  select (map f l) l = Ok (filter f l).
Proof.
  unfold select. rewrite length_map, Nat.eqb_refl. f_equal.
  induction l as [|a l IH]; [reflexivity|].
  cbn [map combine filter fst]. destruct (f a); cbn [map snd]; now rewrite IH.
Qed.

Lemma select_rows {A} (f : Z -> bool) (x : list A) (y : list Z) :
  length x = length y ->
  exists x',
    select (map f y) x = Ok x' /\
    length x' = length (filter f y) /\
    combine x' (filter f y) = filter (fun xy => f (snd xy)) (combine x y).
Proof.
  intros Hlen. unfold select. rewrite length_map, <- Hlen, Nat.eqb_refl.
  eexists. split; [reflexivity|].
  revert y Hlen; induction x as [|a x IH]; intros [|v y] Hlen;
    try discriminate; [split; reflexivity|].
  injection Hlen as Hlen. destruct (IH y Hlen) as [IH1 IH2].
  cbn [map combine filter fst snd]. destruct (f v); cbn [map snd length combine].
  - split; [now rewrite IH1 | now rewrite IH2].
  - split; assumption.
Qed.

Lemma count_filter (f : Z -> bool) (y : list Z) (k : Z) :
  count (filter f y) k = if f k then count y k else 0.
Proof.
  unfold count. destruct (f k) eqn:Hk.
  - induction y as [|v y IH]; [reflexivity|]. simpl.
    destruct (Z.eq_dec v k) as [->|Hne].
    + rewrite Hk. simpl. destruct (Z.eq_dec k k); [lia | congruence].
    + destruct (f v); simpl; [destruct (Z.eq_dec v k); [congruence|]|];
        exact IH.
  - induction y as [|v y IH]; [reflexivity|]. simpl.
    destruct (f v) eqn:Hv; [|exact IH]. simpl.
    destruct (Z.eq_dec v k); [congruence | exact IH].
Qed.

(** What the function returns, in closed form. *)
Lemma remove_closed_form {A} (x : list A) (y : list Z) (m : Z) :
  length x = length y ->
  exists x',
    remove_data_with_a_few_observations x y m
    = Ok (Z.of_nat (length y) - Z.of_nat (length (filter (keep y m) y)),
          (x', filter (keep y m) y)) /\
    length x' = length (filter (keep y m) y) /\
    combine x' (filter (keep y m) y)
    = filter (fun xy => keep y m (snd xy)) (combine x y).
Proof.
  intros Hlen. unfold remove_data_with_a_few_observations.
  rewrite (map_ext_in _ (keep y m))
    by (intros v Hv; now apply mask_entry).
  rewrite select_filter. cbn [bind].
  destruct (select_rows (keep y m) x y Hlen) as (x' & Hs & Hl & Hc).
  rewrite Hs. cbn [bind]. exists x'. repeat split; assumption.
Qed.

(** X17. After [remove_data_with_a_few_observations] every label that is
    left occurs at least [min_observations] times among the labels left,
    as often as before; rows and labels stay paired, in their order, and
    the number printed is the number of rows dropped. *)
Theorem remove_keeps_frequent {A} (x : list A) (y : list Z) (m : Z) :
  length x = length y ->
  exists removed x' y',
    remove_data_with_a_few_observations x y m = Ok (removed, (x', y')) /\
    (forall k, In k y' -> m <= count y' k /\ count y' k = count y k) /\
    combine x' y' = filter (fun xy => m <=? count y (snd xy)) (combine x y) /\
    length x' = length y' /\
    removed = Z.of_nat (length y) - Z.of_nat (length y').
Proof.
  intros Hlen.
  destruct (remove_closed_form x y m Hlen) as (x' & Hr & Hl & Hc).
  eexists _, x', _. split; [exact Hr|].
  split; [|split; [exact Hc | split; [exact Hl | reflexivity]]].
  intros k Hk. apply filter_In in Hk. destruct Hk as [_ Hk].
  rewrite count_filter, Hk. unfold keep in Hk.
  apply Z.leb_le in Hk. split; [exact Hk | reflexivity].
Qed.

Lemma remove_keeps_frequent_witness :
  exists removed x' y',
    remove_data_with_a_few_observations [10; 11; 12; 13] [1; 2; 1; 3] 2
    = Ok (removed, (x', y')) /\
    combine x' y' = [(10, 1); (12, 1)] /\
    removed = Z.of_nat 4 - Z.of_nat (length y').
Proof.
  destruct (remove_keeps_frequent [10; 11; 12; 13] [1; 2; 1; 3] 2
              eq_refl)
    as (removed & x' & y' & H1 & _ & H3 & _ & H5).
  exists removed, x', y'. repeat split; assumption.
Defined.

Lemma filter_all {A} (f : A -> bool) (l : list A) :
  (forall a, In a l -> f a = true) -> filter f l = l.
Proof.
  induction l as [|a l IH]; intros H; [reflexivity|]. simpl.
  rewrite (H a (or_introl eq_refl)). f_equal.
  apply IH. intros b Hb. apply H. now right.
Qed.

Lemma combine_inj_l {A B} (a b : list A) (c : list B) :
  length a = length c -> length b = length c ->
  combine a c = combine b c -> a = b.
Proof.
  revert b c; induction a as [|x a IH]; intros [|y b] [|z c] Ha Hb H;
    try discriminate; [reflexivity|].
  simpl in H. injection H as -> H. f_equal.
  eapply IH; [| |exact H]; simpl in *; lia.
Qed.

(** X18. [remove_data_with_a_few_observations] is idempotent: applied to
    what it returned, with the same threshold, it removes nothing and
    returns the same rows and labels. *)
Theorem remove_idempotent {A} (x : list A) (y : list Z) (m : Z)
    removed x' y' :
  remove_data_with_a_few_observations x y m = Ok (removed, (x', y')) ->
  remove_data_with_a_few_observations x' y' m = Ok (0, (x', y')).
Proof.
  intros H.
  assert (Hlen : length x = length y).
  { unfold remove_data_with_a_few_observations, select in H.
    rewrite !length_map in H. rewrite Nat.eqb_refl in H. cbn [bind] in H.
    destruct (Nat.eqb_spec (length y) (length x)) as [He|Hne];
      [now symmetry | discriminate]. }
  destruct (remove_closed_form x y m Hlen) as (x0 & Hr & Hl & _).
  rewrite Hr in H. injection H as _ <- <-.
  set (y' := filter (keep y m) y) in *.
  assert (Hall : forall k, In k y' -> keep y' m k = true).
  { intros k Hk. unfold keep. apply filter_In in Hk.
    destruct Hk as [_ Hk]. unfold y'. rewrite count_filter, Hk.
    exact Hk. }
  destruct (remove_closed_form x0 y' m Hl) as (x1 & Hr1 & Hl1 & Hc1).
  rewrite Hr1. rewrite (filter_all _ y' Hall) in *.
  rewrite Z.sub_diag. do 3 f_equal.
  assert (Hcomb : combine x1 y' = combine x0 y').
  { rewrite Hc1. apply filter_all. intros [a v] Hin. cbn [snd].
    apply Hall. eapply in_combine_r. exact Hin. }
  eapply combine_inj_l; [| |exact Hcomb]; assumption.
Qed.

Lemma remove_idempotent_witness :
  remove_data_with_a_few_observations [10; 12] [1; 1] 2
  = Ok (0, ([10; 12], [1; 1])).
Proof.
  apply (remove_idempotent [10; 11; 12; 13] [1; 2; 1; 3] 2 2).
  reflexivity.
Defined.

(** *** create_dataset *)

Lemma and_then_inv {A B} (m : outcome A) (k : A -> outcome B) (b : B) :
  and_then m k = Return b -> exists a, m = Return a /\ k a = Return b.
Proof. destruct m as [a|x]; simpl; [eauto | discriminate]. Qed.

Lemma mem_spec (k : Z * Z) (s : list (Z * Z)) :
  mem k s = true <-> In k s.
Proof.
  unfold mem. rewrite existsb_exists. split.
  - intros ([a b] & Hin & Heq). apply andb_true_iff in Heq.
    destruct Heq as [H1 H2]. apply Z.eqb_eq in H1, H2.
    destruct k as [c d]. simpl in *. subst. exact Hin.
  - intros Hin. exists k. split; [exact Hin|].
    now rewrite !Z.eqb_refl.
Qed.

Lemma visit_ok emb n2i op landmark (Q : Z * Z -> Prop) st entry st' :
  collected_ok Q st ->
  (forall d, snd entry = Finite d -> fst entry <> landmark ->
             Q (pair_key (fst entry) landmark)) ->
  visit emb n2i op landmark st entry = Return st' ->
  collected_ok Q st'.
Proof.
  intros Hst HQ. unfold visit. destruct entry as [node dist].
  cbn [fst snd] in HQ.
  destruct (node =? landmark) eqn:Hnl; cbn [orb];
    [intros H; injection H as <-; exact Hst|].
  destruct dist as [d|]; cbn [is_inf orb];
    [|intros H; injection H as <-; exact Hst].
  destruct (mem (pair_key node landmark) (node_pairs st)) eqn:Hmem;
    [intros H; injection H as <-; exact Hst|].
  destruct (String.eqb op "average"); [|discriminate].
  intros H.
  apply and_then_inv in H. destruct H as (i & _ & H).
  apply and_then_inv in H. destruct H as (wn & _ & H).
  apply and_then_inv in H. destruct H as (j & _ & H).
  apply and_then_inv in H. destruct H as (wl & _ & H).
  injection H as <-.
  destruct Hst as (H1 & H2 & H3 & H4).
  apply Z.eqb_neq in Hnl.
  unfold collected_ok. cbn [data_list label_list node_pairs].
  rewrite !length_app. cbn [length]. repeat split; try lia.
  - constructor; [|exact H3]. intros Hin.
    apply mem_spec in Hin. congruence.
  - constructor; [|exact H4]. split.
    + unfold pair_key. cbn [fst snd]. lia.
    + eapply HQ; [reflexivity | exact Hnl].
Qed.

Lemma visit_all_ok emb n2i op landmark (Q : Z * Z -> Prop) dl :
  (forall node d, In (node, Finite d) dl -> node <> landmark ->
                  Q (pair_key node landmark)) ->
  forall st st',
    collected_ok Q st ->
    visit_all emb n2i op landmark st dl = Return st' ->
    collected_ok Q st'.
Proof.
  induction dl as [|entry dl IH]; intros HQ st st' Hst H.
  - injection H as <-. exact Hst.
  - cbn [visit_all] in H. apply and_then_inv in H.
    destruct H as (st1 & Hv & H).
    apply (IH (fun node d Hin => HQ node d (or_intror Hin)) st1 st');
      [|exact H].
    eapply visit_ok; [exact Hst | | exact Hv].
    intros d Hd Hne. destruct entry as [node dist]. cbn [fst snd] in *.
    subst dist. apply (HQ node d); [now left | exact Hne].
Qed.

Lemma collect_ok emb n2i op (Q : Z * Z -> Prop) dm :
  (forall landmark dl node d,
      In (landmark, dl) dm -> In (node, Finite d) dl -> node <> landmark ->
      Q (pair_key node landmark)) ->
  forall st st',
    collected_ok Q st ->
    collect emb n2i op st dm = Return st' ->
    collected_ok Q st'.
Proof.
  induction dm as [|[landmark dl] dm IH]; intros HQ st st' Hst H.
  - injection H as <-. exact Hst.
  - cbn [collect] in H. apply and_then_inv in H.
    destruct H as (st1 & Hv & H).
    apply (IH (fun l0 d0 n0 x0 Hin => HQ l0 d0 n0 x0 (or_intror Hin))
              st1 st'); [|exact H].
    eapply visit_all_ok; [|exact Hst | exact Hv].
    intros node d Hin Hne. apply (HQ landmark dl node d); auto.
    now left.
Qed.

(** X19. When [create_dataset] returns, it returns as many labels as data
    rows, one for each of a list of pair keys without repetition: no
    unordered pair of nodes gives two data points, no node is paired with
    itself, and every pair is a landmark of the map with a node at a finite
    distance from it. *)
Theorem create_dataset_pairs to_int16 dm emb n2i (op : String.string)
    data labels :
  create_dataset to_int16 dm emb n2i op = Return (data, labels) ->
  length data = length labels /\
  exists pairs,
    length pairs = length data /\
    NoDup pairs /\
    Forall (fun k => fst k < snd k /\ from_map dm k) pairs.
Proof.
  unfold create_dataset.
  destruct (valid_operator op); cbn [negb]; [|discriminate].
  intros H. apply and_then_inv in H. destruct H as (st & Hc & H).
  injection H as <- <-.
  assert (Hok : collected_ok (from_map dm) st).
  { eapply (collect_ok emb n2i op (from_map dm) dm); [| |exact Hc].
    - intros landmark dl node d H1 H2 H3.
      exists landmark, dl, node, d. auto.
    - repeat split; constructor. }
  destruct Hok as (H1 & H2 & H3 & H4).
  rewrite length_map. split; [lia|].
  exists (node_pairs st). auto.
Qed.

Lemma create_dataset_pairs_witness :
  exists data labels,
    create_dataset (fun _ => 5)
      [(1, [(1, Finite 0); (2, Finite 5); (3, Inf)]);
       (2, [(1, Finite 5); (2, Finite 0)])]
      [[1; 2]; [3; 4]]%R [(1, 0%nat); (2, 1%nat); (3, 1%nat)] average
    = Return (data, labels) /\
    length data = length labels.
Proof.
  eexists _, _. split; [reflexivity|].
  eapply (create_dataset_pairs (fun _ => 5)
            [(1, [(1, Finite 0); (2, Finite 5); (3, Inf)]);
             (2, [(1, Finite 5); (2, Finite 0)])]
            [[1; 2]; [3; 4]]%R [(1, 0%nat); (2, 1%nat); (3, 1%nat)]
            average).
  reflexivity.
Defined.

Lemma visit_all_unimplemented emb n2i (op : String.string) landmark st dl :
  String.eqb op "average" = false ->
  node_pairs st = [] ->
  visit_all emb n2i op landmark st dl
  = if existsb (admissible landmark) dl then Throw ValueError
    else Return st.
Proof.
  intros Hop Hst. induction dl as [|[node dist] dl IH]; [reflexivity|].
  cbn [visit_all existsb]. unfold visit, admissible at 1. cbn [fst snd].
  rewrite Hst. cbn [mem existsb]. rewrite orb_false_r, Hop.
  destruct (node =? landmark); cbn [orb negb andb and_then];
    [exact IH|].
  destruct dist; cbn [is_inf negb and_then orb]; [reflexivity | exact IH].
Qed.

Lemma collect_unimplemented emb n2i (op : String.string) st dm :
  String.eqb op "average" = false ->
  node_pairs st = [] ->
  collect emb n2i op st dm
  = if has_admissible dm then Throw ValueError else Return st.
Proof.
  intros Hop Hst. unfold has_admissible.
  induction dm as [|[landmark dl] dm IH]; [reflexivity|].
  cbn [collect existsb fst snd].
  rewrite (visit_all_unimplemented emb n2i op landmark st dl Hop Hst).
  destruct (existsb (admissible landmark) dl); cbn [orb and_then];
    [reflexivity | exact IH].
Qed.

(** X20. With an operator that is accepted but not implemented
    ("concatenation", "subtraction", "hadamard"), [create_dataset] raises a
    [ValueError] exactly when some landmark of the map has another node at a
    finite distance; on a map without such an entry it returns two empty
    arrays. *)
Theorem create_dataset_unimplemented to_int16 dm emb n2i
    (op : String.string) :
  valid_operator op = true ->
  String.eqb op "average" = false ->
  create_dataset to_int16 dm emb n2i op
  = if has_admissible dm then Throw ValueError else Return ([], []).
Proof.
  intros Hvalid Hop. unfold create_dataset. rewrite Hvalid. cbn [negb].
  rewrite collect_unimplemented by (exact Hop || reflexivity).
  destruct (has_admissible dm); reflexivity.
Qed.

Lemma create_dataset_unimplemented_witness :
  create_dataset (fun _ => 0) [(1, [(1, Finite 0); (2, Finite 5)])]
                 [[1; 2]; [3; 4]]%R [(1, 0%nat); (2, 1%nat)] hadamard
  = Throw ValueError.
Proof.
  apply (create_dataset_unimplemented (fun _ => 0)
           [(1, [(1, Finite 0); (2, Finite 5)])]
           [[1; 2]; [3; 4]]%R [(1, 0%nat); (2, 1%nat)] hadamard);
    reflexivity.
Defined.

(** *** get_coord_embedding *)

(** X21. With a source other than "gis-f2e" and a measure other than
    "lat-long", [get_coord_embedding] returns for nodes of the graph one row
    per node, of the three entries that the array is allocated for, and
    every row is a point of the unit sphere: its squares sum to 1. *)
Theorem coord_embedding_unit cfg nodes node_list :
  String.eqb (source cfg) "gis-f2e" = false ->
  String.eqb (measure cfg) "lat-long" = false ->
  Forall (fun n => exists xy, Heuristics.node_data nodes n = Ok xy)
         node_list ->
  exists embedding,
    get_coord_embedding cfg nodes node_list = Ok embedding /\
    length embedding = length node_list /\
    Forall (fun row => length row = coord_dim cfg /\ dot row row = 1%R)
           embedding.
Proof.
  intros Hs Hm Hnodes. unfold get_coord_embedding.
  induction Hnodes as [|n node_list [xy Hn] _ IH].
  - exists []. repeat split. constructor.
  - destruct IH as (emb & Hemb & Hlen & Hrows).
    cbn [mapM]. unfold coord_row at 1. rewrite Hn. cbn [bind].
    rewrite Hs, Hm, Hemb. cbn [bind].
    eexists. split; [reflexivity|]. split; [simpl; lia|].
    constructor; [|exact Hrows]. split.
    + unfold coord_dim. now rewrite Hs, Hm.
    + unfold dot. cbn [combine map fold_right fst snd].
      set (lat := (snd xy * (PI / 180))%R).
      set (long := (fst xy * (PI / 180))%R).
      pose proof (sin2_cos2 lat) as H1. pose proof (sin2_cos2 long) as H2.
      unfold Rsqr in H1, H2.
      replace (cos lat * cos long * (cos lat * cos long)
               + (cos lat * sin long * (cos lat * sin long)
                  + (sin lat * sin lat + 0)))%R
        with (cos lat * cos lat * (sin long * sin long + cos long * cos long)
              + sin lat * sin lat)%R by ring.
      rewrite H2. lra.
Qed.

Lemma coord_embedding_unit_witness :
  exists embedding,
    get_coord_embedding {| source := osmnx; measure := norm |}
                        [(1, (10%R, 45%R)); (2, (20%R, (-30)%R))] [2; 1]
    = Ok embedding /\
    length embedding = 2%nat.
Proof.
  destruct (coord_embedding_unit {| source := osmnx; measure := norm |}
              [(1, (10%R, 45%R)); (2, (20%R, (-30)%R))] [2; 1])
    as (emb & H1 & H2 & _).
  - reflexivity.
  - reflexivity.
  - repeat constructor; eexists; reflexivity.
  - exists emb. split; assumption.
Defined.

End DataHelperFacts.

(** ** landmarks: the landmarks by degree *)

Module LandmarkFacts.
Import Landmarks.

Lemma insert_perm (x : Z * Z) (s : list (Z * Z)) :
  Permutation (x :: s) (insert x s).
Proof.
  induction s as [|y s IH]; simpl; [apply Permutation_refl|].
  destruct (snd x <? snd y); [|apply Permutation_refl].
  eapply Permutation_trans; [apply perm_swap|]. now apply perm_skip.
Qed.

Lemma sorted_perm (degree : list (Z * Z)) :
  Permutation degree (sorted degree).
Proof.
  induction degree as [|x degree IH]; simpl; [constructor|].
  eapply Permutation_trans; [apply perm_skip, IH | apply insert_perm].
Qed.

Lemma insert_sorted (x : Z * Z) (s : list (Z * Z)) :
  StronglySorted (fun a b => snd b <= snd a) s ->
  StronglySorted (fun a b => snd b <= snd a) (insert x s).
Proof.
  induction 1 as [|y s Hs IH Hy]; simpl.
  - repeat constructor.
  - destruct (Z.ltb_spec (snd x) (snd y)).
    + constructor; [exact IH|].
      apply (Permutation_Forall (insert_perm x s)).
      constructor; [lia | exact Hy].
    + constructor; [constructor; assumption|].
      constructor; [lia|].
      eapply Forall_impl; [|exact Hy]. simpl; intros; lia.
Qed.

Lemma sorted_sorted (degree : list (Z * Z)) :
  StronglySorted (fun a b => snd b <= snd a) (sorted degree).
Proof.
  induction degree as [|x degree IH]; simpl; [constructor|].
  now apply insert_sorted.
Qed.

Lemma sorted_app_order {A} (R : A -> A -> Prop) (pre post : list A) :
  StronglySorted R (pre ++ post) ->
  forall a b, In a pre -> In b post -> R a b.
Proof.
  induction pre as [|x pre IH]; intros Hs a b Ha Hb; [destruct Ha|].
  simpl in Hs. inversion Hs as [|? ? Hs' Hx]; subst.
  destruct Ha as [->|Ha]; [|now apply IH].
  rewrite Forall_forall in Hx. apply Hx, in_or_app. now right.
Qed.

(** X22. Whatever the portion, the landmarks of [get_landmark_custom] are
    the nodes at the head of the list of nodes by decreasing degree: no
    node left out has a larger degree than a node taken. *)
Theorem landmark_custom_top (degree : list (Z * Z)) (portion : R) :
  exists taken left,
    get_landmark_custom degree portion = map fst taken /\
    Permutation degree (taken ++ left) /\
    forall a b, In a taken -> In b left -> snd b <= snd a.
Proof.
  unfold get_landmark_custom, slice.
  set (s := sorted degree).
  set (n := Z.to_nat _).
  exists (firstn n s), (skipn n s). cbn [skipn Z.to_nat].
  split; [reflexivity|]. split.
  - rewrite firstn_skipn. apply sorted_perm.
  - apply (sorted_app_order (fun a b => snd b <= snd a)).
    rewrite firstn_skipn. apply sorted_sorted.
Qed.

Lemma length_sorted (degree : list (Z * Z)) :
  length (sorted degree) = length degree.
Proof. symmetry. apply Permutation_length, sorted_perm. Qed.

End LandmarkFacts.

(** ** Binary64: the integer part of a float below 1 *)

Module Binary64Facts.
Import PrimFloat.

Lemma digits2_bound (m : positive) :
  Z.pos m < 2 ^ Z.pos (SpecFloat.digits2_pos m).
Proof.
  induction m as [m IH|m IH|]; cbn [SpecFloat.digits2_pos].
  - rewrite Pos2Z.inj_succ, Z.pow_succ_r by lia. lia.
  - rewrite Pos2Z.inj_succ, Z.pow_succ_r by lia. lia.
  - reflexivity.
Qed.

(** The mantissa of a float has at most 53 binary digits. *)
Lemma mantissa_bound (m : positive) (e : Z) :
  SpecFloat.bounded FloatOps.prec FloatOps.emax m e = true ->
  Z.pos m < 2 ^ 53.
Proof.
  unfold SpecFloat.bounded, SpecFloat.canonical_mantissa, SpecFloat.fexp.
  intros H. apply andb_prop in H. destruct H as [H _].
  apply Z.eqb_eq in H.
  assert (Hd : Z.pos (SpecFloat.digits2_pos m) <= 53).
  { change FloatOps.prec with 53 in H. lia. }
  eapply Z.lt_le_trans; [apply digits2_bound|].
  apply Z.pow_le_mono_r; lia.
Qed.

Lemma finite_lt_one (m : positive) (e : Z) :
  SpecFloat.SFltb (SpecFloat.S754_finite false m e)
                  (SpecFloat.S754_finite false 4503599627370496 (-52))
  = true ->
  e < -52 \/ (e = -52 /\ Z.pos m < 2 ^ 52).
Proof.
  unfold SpecFloat.SFltb, SpecFloat.SFcompare.
  destruct (Z.compare_spec e (-52)) as [He|He|He].
  - rewrite Pos.compare_cont_spec. unfold Pos.switch_Eq.
    destruct (Pos.compare_spec m 4503599627370496) as [Hm|Hm|Hm];
      try discriminate.
    intros _. right. split; [exact He|].
    apply Pos2Z.pos_lt_pos in Hm. exact Hm.
  - intros _. now left.
  - discriminate.
Qed.

Lemma finite_nonneg (s : bool) (m : positive) (e : Z) :
  SpecFloat.SFleb (SpecFloat.S754_zero false) (SpecFloat.S754_finite s m e)
  = true ->
  s = false.
Proof. destruct s; [discriminate | reflexivity]. Qed.

Lemma magnitude_small (m : positive) (e : Z) :
  Z.pos m < 2 ^ 53 ->
  e < -52 \/ (e = -52 /\ Z.pos m < 2 ^ 52) ->
  (if 0 <=? e then Z.pos m * 2 ^ e else Z.pos m / 2 ^ (- e)) = 0.
Proof.
  intros Hv He.
  assert (Hneg : e < 0) by (destruct He as [He|[He _]]; lia).
  destruct (Z.leb_spec 0 e) as [Hle|_]; [lia|].
  apply Z.div_small. split; [apply Pos2Z.is_nonneg|].
  destruct He as [He|[-> Hm]]; [|exact Hm].
  eapply Z.lt_le_trans; [exact Hv|].
  apply Z.pow_le_mono_r; lia.
Qed.

(** [int(x)] is 0 for a float [x] with [0 <= x < 1]. *)
Lemma int_small (x : float) :
  (0 <=? x)%float = true -> (x <? 1)%float = true ->
  Binary64.int x = Return 0.
Proof.
  intros H0 H1.
  rewrite FloatAxioms.leb_spec in H0. rewrite FloatAxioms.ltb_spec in H1.
  pose proof (FloatAxioms.Prim2SF_valid x) as Hv.
  assert (E0 : FloatOps.Prim2SF 0 = SpecFloat.S754_zero false)
    by (vm_compute; reflexivity).
  assert (E1 : FloatOps.Prim2SF 1
               = SpecFloat.S754_finite false 4503599627370496 (-52))
    by (vm_compute; reflexivity).
  rewrite E0 in H0. rewrite E1 in H1. unfold Binary64.int.
  destruct (FloatOps.Prim2SF x) as [s|s| |s m e].
  - reflexivity.
  - destruct s; discriminate.
  - discriminate.
  - rewrite (finite_nonneg s m e H0) in *.
    rewrite (magnitude_small m e (mantissa_bound m e Hv)
                             (finite_lt_one m e H1)).
    reflexivity.
Qed.

End Binary64Facts.

(** ** landmarks: the counts that round to 0 *)

Module Landmark64Facts.
Import Landmarks LandmarkFacts.
Import PrimFloat.

Lemma scale_sorted (degree : list (Z * Z)) (x : float) :
  scale (sorted degree) x = scale degree x.
Proof. unfold scale. now rewrite length_sorted. Qed.

(** X23. When the float [len(s) * (portion / 2)] is at least 0 and below 1,
    the count of each half of [get_landmark_custom2] is 0 and the slice
    [s[-0:]] of the low half is the whole list: every node of the graph is
    returned as a landmark. *)
Theorem landmark_custom2_small_portion (degree : list (Z * Z))
    (portion : float) :
  (0 <=? scale degree (portion / 2))%float = true ->
  (scale degree (portion / 2) <? 1)%float = true ->
  get_landmark_custom2 degree portion = Return (map fst (sorted degree)) /\
  Permutation (map fst degree) (map fst (sorted degree)).
Proof.
  intros H0 H1. split; [|apply Permutation_map, sorted_perm].
  unfold get_landmark_custom2. rewrite scale_sorted.
  rewrite (Binary64Facts.int_small _ H0 H1). cbn [and_then].
  unfold slice, clamp. cbn [Z.opp Z.ltb Z.compare].
  rewrite Z.min_l by lia. rewrite Z.sub_diag, Z.sub_0_r. cbn [Z.to_nat].
  cbn [firstn skipn map app]. rewrite Nat2Z.id.
  now rewrite firstn_all.
Qed.

Lemma landmark_custom2_small_portion_witness :
  get_landmark_custom2 [(1, 2); (2, 3); (3, 1)] 0.5
  = Return (map fst (sorted [(1, 2); (2, 3); (3, 1)])).
Proof.
  apply (landmark_custom2_small_portion [(1, 2); (2, 3); (3, 1)] 0.5);
    vm_compute; reflexivity.
Defined.

(** X24. When the float [len(s) * cut_position], with [cut_position] the
    float [(1 - portion) / 2], is at least 0 and below 1, as it is for
    [portion = 1], the cut of [get_landmark_custom4] is 0 and the slice
    [s[0:-0]] is empty: no landmark is returned. *)
Theorem landmark_custom4_no_cut (degree : list (Z * Z)) (portion : float) :
  (0 <=? scale degree ((1 - portion) / 2))%float = true ->
  (scale degree ((1 - portion) / 2) <? 1)%float = true ->
  get_landmark_custom4 degree portion = Return [].
Proof.
  intros H0 H1. unfold get_landmark_custom4. rewrite scale_sorted.
  rewrite (Binary64Facts.int_small _ H0 H1). cbn [and_then].
  unfold slice, clamp. cbn [Z.opp Z.ltb Z.compare].
  rewrite Z.min_l by lia. reflexivity.
Qed.

Lemma landmark_custom4_no_cut_witness :
  get_landmark_custom4 [(1, 2); (2, 3); (3, 1)] 1 = Return [].
Proof.
  apply (landmark_custom4_no_cut [(1, 2); (2, 3); (3, 1)] 1);
    vm_compute; reflexivity.
Defined.

End Landmark64Facts.

(** ** train_neural_net: when the evaluation and the training return *)

Module NeuralNetFacts.
Import NeuralNet.
Import String.StringSyntax.

Section Net.
Variables (X Y M Metrics : Type).
Variable predict : M -> X -> Y.
Variable loss_fn : Y -> Y -> R.
Variable train_on : M -> X -> Y -> M.
Variable reachable : String.string -> bool.

Local Abbreviation eval_batches :=
  (eval_batches X Y M Metrics predict loss_fn reachable).
Local Abbreviation evaluate_model :=
  (evaluate_model X Y M Metrics predict loss_fn reachable).
Local Abbreviation train_batches :=
  (train_batches X Y M predict loss_fn train_on reachable).
Local Abbreviation _train_model :=
  (_train_model X Y M Metrics predict loss_fn train_on reachable).
Local Abbreviation epochs_loop :=
  (epochs_loop X Y M Metrics predict loss_fn train_on reachable).

Lemma eval_batches_no_function model device loader :
  forall yhat_list ytrue_list val_losses r,
    eval_batches model device None yhat_list ytrue_list val_losses loader
    = Return r ->
    fst (fst r) = yhat_list /\ snd (fst r) = ytrue_list.
Proof.
  induction loader as [|[x y] loader IH]; intros a b c r;
    cbn [NeuralNet.eval_batches].
  - intros [= <-]. auto.
  - unfold to_device. destruct (reachable device); cbn [and_then].
    + apply IH.
    + discriminate.
Qed.

Lemma eval_batches_no_function_reachable model device loader :
  reachable device = true \/ loader = [] ->
  forall yhat_list ytrue_list val_losses,
    exists losses,
      eval_batches model device None yhat_list ytrue_list val_losses loader
      = Return (yhat_list, ytrue_list, losses).
Proof.
  intros H. induction loader as [|[x y] loader IH]; intros a b c;
    cbn [NeuralNet.eval_batches].
  - eauto.
  - destruct H as [H|H]; [|discriminate].
    unfold to_device. rewrite H. cbn [and_then]. apply IH. now left.
Qed.

(** X25. Called without an [evaluate_function], which is the default,
    [evaluate_model] never returns: once the batches are through it raises
    an [UnboundLocalError], since [metric_scores] is returned but was never
    assigned. *)
Theorem evaluate_model_needs_function model loader device :
  (forall r, evaluate_model model loader device None <> Return r) /\
  (reachable device = true \/ loader = [] ->
   evaluate_model model loader device None = Throw UnboundLocalError).
Proof.
  split.
  - intros r. unfold NeuralNet.evaluate_model.
    destruct (eval_batches model device None [] [] [] loader)
      as [[[a b] c]|e]; cbn [and_then]; discriminate.
  - intros H. unfold NeuralNet.evaluate_model.
    destruct (eval_batches_no_function_reachable model device loader H
                [] [] []) as [losses Hl].
    rewrite Hl. reflexivity.
Qed.

Lemma eval_batches_cpu model (device : String.string) f loader :
  reachable device = true ->
  String.eqb device "cpu" = true ->
  forall yhat_list ytrue_list val_losses,
    eval_batches model device (Some f) yhat_list ytrue_list val_losses
                 loader
    = Return (yhat_list ++ map (fun xy => predict model (fst xy)) loader,
              ytrue_list ++ map snd loader,
              val_losses
              ++ map (fun xy => loss_fn (snd xy) (predict model (fst xy)))
                     loader).
Proof.
  intros Hr Hd. induction loader as [|[x y] loader IH]; intros a b c;
    cbn [NeuralNet.eval_batches map fst snd].
  - now rewrite !app_nil_r.
  - unfold to_device. rewrite Hr, Hd. cbn [negb and_then].
    rewrite IH, <- !app_assoc. reflexivity.
Qed.

(** What [evaluate_model] does with an [evaluate_function]. *)
Lemma evaluate_model_with_function model loader (device : String.string) f :
  evaluate_model model loader device (Some f)
  = match loader with
    | [] => Throw ValueError
    | _ =>
        if reachable device
        then
          if String.eqb device "cpu"
          then Return
                 (np_mean (map (fun xy => loss_fn (snd xy)
                                                  (predict model (fst xy)))
                               loader),
                  f (map snd loader)
                    (map (fun xy => predict model (fst xy)) loader))
          else Throw AttributeError
        else Throw (Builtin RuntimeError)
    end.
Proof.
  destruct loader as [|[x y] loader]; [reflexivity|].
  destruct (reachable device) eqn:Hr.
  - destruct (String.eqb device "cpu") eqn:Hd.
    + unfold NeuralNet.evaluate_model.
      rewrite (eval_batches_cpu model device f _ Hr Hd).
      cbn [and_then app]. reflexivity.
    + unfold NeuralNet.evaluate_model. cbn [NeuralNet.eval_batches].
      unfold to_device. rewrite Hr, Hd. reflexivity.
  - unfold NeuralNet.evaluate_model. cbn [NeuralNet.eval_batches].
    unfold to_device. rewrite Hr. reflexivity.
Qed.

(** X26. With an [evaluate_function] and a device that the batches can be
    moved to, [evaluate_model] returns exactly when the device is "cpu" and
    the loader has a batch: on another device it raises an
    [AttributeError] at the first batch ([yhat.cpu.numpy()] reads an
    attribute of the method [cpu]), and on an empty loader a
    [ValueError]. *)
Theorem evaluate_model_returns_on_cpu model loader (device : String.string)
    f :
  reachable device = true ->
  (String.eqb device "cpu" = false -> loader <> [] ->
   evaluate_model model loader device (Some f) = Throw AttributeError) /\
  (loader = [] ->
   evaluate_model model loader device (Some f) = Throw ValueError) /\
  ((exists r, evaluate_model model loader device (Some f) = Return r) <->
   String.eqb device "cpu" = true /\ loader <> []).
Proof.
  intros Hr. rewrite evaluate_model_with_function, Hr.
  destruct loader as [|xy loader]; destruct (String.eqb device "cpu").
  - split; [discriminate|]. split; [reflexivity|].
    split; [intros [r H]; discriminate | intros [_ H]; congruence].
  - split; [congruence|]. split; [reflexivity|].
    split; [intros [r H]; discriminate | intros [H _]; discriminate].
  - split; [discriminate|]. split; [discriminate|].
    split; [intros _; split; [reflexivity | discriminate] | eauto].
  - split; [reflexivity|]. split; [discriminate|].
    split; [intros [r H]; discriminate | intros [H _]; discriminate].
Qed.

Lemma net_train_batches_return model device train_loader :
  reachable device = true ->
  forall batch_losses,
    exists r, train_batches model device batch_losses train_loader
              = Return r.
Proof.
  intros Hr. revert model.
  induction train_loader as [|[x y] loader IH]; intros model losses;
    cbn [NeuralNet.train_batches].
  - eauto.
  - unfold to_device. rewrite Hr. cbn [and_then]. unfold train_step.
    apply IH.
Qed.

Section Cpu.

(** A tensor can always be moved to "cpu". *)
Hypothesis cpu_reachable : reachable cpu = true.

Lemma epochs_loop_returns evaluate_metrics (device : String.string)
    lr_scheduler verbose train_loader val_loader n_epochs epochs :
  String.eqb device "cpu" = true -> val_loader <> [] ->
  forall st,
    exists st',
      epochs_loop evaluate_metrics device lr_scheduler verbose train_loader
                  val_loader n_epochs st epochs = Return st' /\
      (epochs <> [] -> exists metrics, val_metrics _ _ st' = Some metrics) /\
      (epochs = [] -> st' = st) /\
      scheduler_steps _ _ st'
      = ((if lr_scheduler then length epochs else 0)
         + scheduler_steps _ _ st)%nat /\
      length (printed _ _ st')
      = ((if verbose then length epochs else 0)
         + length (printed _ _ st))%nat.
Proof.
  intros Hd Hval.
  assert (Hr : reachable device = true).
  { apply String.eqb_eq in Hd. subst device. exact cpu_reachable. }
  induction epochs as [|epoch epochs IH]; intros st.
  - exists st. split; [reflexivity|].
    repeat split; try congruence; destruct lr_scheduler, verbose;
      reflexivity.
  - cbn [NeuralNet.epochs_loop]. unfold NeuralNet.epoch_body at 1.
    destruct (net_train_batches_return (net _ _ st) device train_loader Hr [])
      as [[model losses] Ht].
    rewrite Ht. cbn [and_then].
    rewrite evaluate_model_with_function, Hr, Hd.
    destruct val_loader as [|xy val_loader']; [congruence|].
    cbn [and_then].
    match goal with
    | |- context [NeuralNet.epochs_loop _ _ _ _ _ _ _ _ _ _ _ _ _ _ _ ?s
                                        epochs] =>
        destruct (IH s) as (st' & Hrun & Hm & He & Hs & Hp)
    end.
    exists st'. split; [exact Hrun|].
    cbn [scheduler_steps printed val_metrics] in Hs, Hp.
    rewrite length_app in Hp.
    split; [|split; [discriminate|split]].
    + intros _. destruct epochs as [|e2 epochs'].
      * rewrite (He eq_refl). cbn [val_metrics]. eauto.
      * apply Hm. discriminate.
    + rewrite Hs. destruct lr_scheduler; cbn [length]; lia.
    + rewrite Hp. destruct verbose; cbn [length]; lia.
Qed.

Lemma train_model_conditions evaluate_metrics model
    (device : String.string) lr_scheduler n_epochs train_loader val_loader
    verbose r :
  _train_model evaluate_metrics model device lr_scheduler n_epochs
               train_loader val_loader verbose = Return r ->
  1 <= n_epochs /\ String.eqb device "cpu" = true /\ val_loader <> [].
Proof.
  intros Hr. unfold NeuralNet._train_model in Hr.
  destruct (Z.to_nat n_epochs) as [|n] eqn:En.
  - cbn in Hr. discriminate.
  - split; [lia|]. cbn [seq map NeuralNet.epochs_loop] in Hr.
    unfold NeuralNet.epoch_body at 1 in Hr.
    destruct (train_batches _ device [] train_loader) as [[m0 l0]|e];
      cbn [and_then] in Hr; [|discriminate].
    rewrite evaluate_model_with_function in Hr.
    destruct val_loader as [|xy val_loader']; [discriminate|].
    destruct (reachable device); [|discriminate].
    destruct (String.eqb device "cpu"); [|discriminate].
    split; [reflexivity | discriminate].
Qed.

Lemma train_model_runs evaluate_metrics model (device : String.string)
    lr_scheduler n_epochs train_loader val_loader verbose :
  1 <= n_epochs -> String.eqb device "cpu" = true -> val_loader <> [] ->
  exists st metrics,
    _train_model evaluate_metrics model device lr_scheduler n_epochs
                 train_loader val_loader verbose = Return (st, metrics) /\
    val_metrics _ _ st = Some metrics /\
    scheduler_steps _ _ st
    = (if lr_scheduler then Z.to_nat n_epochs else 0%nat) /\
    length (printed _ _ st) = (if verbose then Z.to_nat n_epochs else 0%nat).
Proof.
  intros Hn Hd Hval. unfold NeuralNet._train_model.
  destruct (epochs_loop_returns evaluate_metrics device lr_scheduler
              verbose train_loader val_loader n_epochs
              (map Z.of_nat (seq 0 (Z.to_nat n_epochs))) Hd Hval
              {| net := model; val_metrics := None; printed := [];
                 scheduler_steps := 0 |})
    as (st' & Hrun & Hm & _ & Hs & Hp).
  rewrite Hrun. cbn [and_then].
  destruct Hm as [metrics Hm].
  { destruct (Z.to_nat n_epochs) eqn:E; [lia | discriminate]. }
  rewrite Hm. exists st', metrics. split; [reflexivity|].
  split; [exact Hm|].
  rewrite length_map, length_seq in Hs, Hp.
  cbn [scheduler_steps printed length] in Hs, Hp.
  split; [rewrite Hs | rewrite Hp];
    [destruct lr_scheduler | destruct verbose]; lia.
Qed.

(** X27. [_train_model] returns exactly when there is at least one epoch,
    the device is "cpu" and the validation loader has a batch; it then has
    stepped the scheduler, if there is one, once per epoch and printed, if
    verbose, one line per epoch. *)
Theorem train_model_returns evaluate_metrics model (device : String.string)
    lr_scheduler n_epochs train_loader val_loader verbose :
  ((exists r,
      _train_model evaluate_metrics model device lr_scheduler n_epochs
                   train_loader val_loader verbose = Return r) <->
   1 <= n_epochs /\ String.eqb device "cpu" = true /\ val_loader <> []) /\
  (forall st metrics,
      _train_model evaluate_metrics model device lr_scheduler n_epochs
                   train_loader val_loader verbose = Return (st, metrics) ->
      val_metrics _ _ st = Some metrics /\
      scheduler_steps _ _ st
      = (if lr_scheduler then Z.to_nat n_epochs else 0%nat) /\
      length (printed _ _ st)
      = (if verbose then Z.to_nat n_epochs else 0%nat)).
Proof.
  split; [split|].
  - intros [r Hr]. exact (train_model_conditions _ _ _ _ _ _ _ _ _ Hr).
  - intros (Hn & Hd & Hval).
    destruct (train_model_runs evaluate_metrics model device lr_scheduler
                n_epochs train_loader val_loader verbose Hn Hd Hval)
      as (st & metrics & H & _). eauto.
  - intros st metrics Hr.
    destruct (train_model_conditions _ _ _ _ _ _ _ _ _ Hr)
      as (Hn & Hd & Hval).
    destruct (train_model_runs evaluate_metrics model device lr_scheduler
                n_epochs train_loader val_loader verbose Hn Hd Hval)
      as (st0 & m0 & H & H1 & H2 & H3).
    rewrite H in Hr. injection Hr as <- <-. auto.
Qed.

End Cpu.

End Net.

Lemma evaluate_model_needs_function_witness :
  evaluate_model R R R nat ScalarNet.predict ScalarNet.loss_fn
                 ScalarNet.reachable 2%R ScalarNet.loader cpu None
  = Throw UnboundLocalError.
Proof.
  apply (proj2 (evaluate_model_needs_function R R R nat ScalarNet.predict
                  ScalarNet.loss_fn ScalarNet.reachable 2%R
                  ScalarNet.loader cpu)).
  left. reflexivity.
Defined.

Lemma evaluate_model_returns_on_cpu_witness :
  evaluate_model R R R nat ScalarNet.predict ScalarNet.loss_fn
                 ScalarNet.reachable 2%R ScalarNet.loader cuda
                 (Some ScalarNet.evaluate_metrics)
  = Throw AttributeError.
Proof.
  apply (proj1 (evaluate_model_returns_on_cpu R R R nat ScalarNet.predict
                  ScalarNet.loss_fn ScalarNet.reachable 2%R
                  ScalarNet.loader cuda ScalarNet.evaluate_metrics
                  eq_refl)).
  - reflexivity.
  - discriminate.
Defined.

Lemma train_model_returns_witness :
  exists r,
    _train_model R R R nat ScalarNet.predict ScalarNet.loss_fn
                 ScalarNet.train_on ScalarNet.reachable
                 ScalarNet.evaluate_metrics 2%R cpu true 3 ScalarNet.loader
                 ScalarNet.loader true
    = Return r.
Proof.
  apply (proj2 (proj1 (train_model_returns R R R nat ScalarNet.predict
                         ScalarNet.loss_fn ScalarNet.train_on
                         ScalarNet.reachable eq_refl
                         ScalarNet.evaluate_metrics 2%R cpu true 3
                         ScalarNet.loader ScalarNet.loader true))).
  split; [lia|]. split; [reflexivity | discriminate].
Defined.

End NeuralNetFacts.
